(** * Meterstick models: closed-form and Newton solvers over sufficient statistics

    A shallow embedding of [models.py]: the packed-triangle matrix
    reconstruction, the closed-form linear / ridge solve from sufficient
    statistics, the precondition checks and Newton iteration of the logistic
    pushdown solver, the mode dispatch of [Model.compute_through_sql] and the
    recursive feature count.

    Conventions of the embedding.
    - A Python float (numpy float64) is an exact rational [Qc]; rounding is
      not modelled.  The one place where an infinite value arises from finite
      inputs by definition, the condition number of a singular matrix, has its
      own type [cond_value].
    - A numpy 2-d array is a [list (list Qc)] (rows), a 1-d array a [list Qc].
    - A pandas Series (one row of statistics) is a [gmap string Qc] from
      column label to value; a label that is absent raises [KeyError].
    - A raised exception is the [Raise] case of [result]; text written by
      [print] is collected, in order, in a list of [output] records.
    - [np.linalg.solve] and [np.linalg.cond] are library routines: they are
      variables of the sections that use them. *)

From Stdlib Require Import QArith Qcanon ZArith Lia Ascii String.
From stdpp Require Import gmap strings list pretty sorting.

Open Scope Qc_scope.

#[local] Set Warnings "-clear-no-such-hyp".

(** ** Numbers *)

Definition Qc_of_Z (z : Z) : Qc := Q2Qc (inject_Z z).
Definition Qc_of_nat (n : nat) : Qc := Qc_of_Z (Z.of_nat n).

Notation "'#' z" := (Qc_of_Z z%Z) (at level 1, format "'#' z") : Qc_scope.

Definition Qc_ltb (x y : Qc) : bool := bool_decide (x < y).
Definition Qc_leb (x y : Qc) : bool := bool_decide (x <= y).

Definition Qc_abs (x : Qc) : Qc := if Qc_ltb x 0 then - x else x.

(** ** Exceptions *)

#[warnings="-register-all"]
Inductive exn : Type :=
| ValueError (msg : string)
| KeyError (key : string)
| AttributeError (attr : string)
| IndexError
| LinAlgError
| OverflowError
| NotImplementedError
| MaybeBadSqlModeError (use_mode : string) (cause : option exn)
| OtherException (msg : string).

Fixpoint exn_eq_dec (a b : exn) {struct a} : Decision (a = b).
Proof.
  unfold Decision.
  decide equality;
    try (match goal with |- {?x = ?y} + {_} => exact (decide (x = y)) end).
  decide equality. apply exn_eq_dec.
Defined.
Global Existing Instance exn_eq_dec.

Inductive result (A : Type) : Type :=
| Ok (a : A)
| Raise (e : exn).
Arguments Ok {A} a.
Arguments Raise {A} e.

Global Instance result_eq_dec `{EqDecision A} : EqDecision (result A).
Proof. solve_decision. Defined.

Global Instance result_ret : MRet result := fun A a => Ok a.
Global Instance result_bind : MBind result := fun A B f r =>
  match r with
  | Ok a => f a
  | Raise e => Raise e
  end.
Global Instance result_fmap : FMap result := fun A B f r =>
  match r with
  | Ok a => Ok (f a)
  | Raise e => Raise e
  end.

(** [mapM] in the [result] monad: the first failure, left to right, wins. *)
Fixpoint result_mapM {A B : Type} (f : A → result B) (l : list A)
    : result (list B) :=
  match l with
  | [] => Ok []
  | x :: l' => y ← f x; ys ← result_mapM f l'; Ok (y :: ys)
  end.

(** ** numpy arrays *)

Abbreviation vector := (list Qc).
Abbreviation matrix := (list (list Qc)).

(** An array of [n] rows and [m] columns. *)
Definition is_shape (n m : nat) (M : matrix) : Prop :=
  length M = n ∧ Forall (λ row, length row = m) M.

(** [np.zeros([n, m])] *)
Definition zeros (n m : nat) : matrix := replicate n (replicate m 0).

(** [np.identity(n)] *)
Definition identity (n : nat) : matrix :=
  (λ i, <[i := 1]> (replicate n 0)) <$> seq 0 n.

(** [a[i, j]] *)
Definition mget (M : matrix) (i j : nat) : option Qc :=
  M !! i ≫= (.!! j).

(** [a[i, j] = v], for indices in range *)
Definition mset (M : matrix) (i j : nat) (v : Qc) : matrix :=
  alter (<[j := v]>) i M.

(** [a.T] of an array with [ncols] columns *)
Fixpoint transpose (ncols : nat) (M : matrix) : matrix :=
  match M with
  | [] => replicate ncols []
  | row :: rest => zip_with cons row (transpose ncols rest)
  end.

(** [a + b], [a - b] and [c * a] on arrays of one shape *)
Definition madd (A B : matrix) : matrix := zip_with (zip_with Qcplus) A B.
Definition msub (A B : matrix) : matrix := zip_with (zip_with Qcminus) A B.
Definition mscale (c : Qc) (A : matrix) : matrix :=
  (λ row : vector, Qcmult c <$> row) <$> A.

(** [a.diagonal()] *)
Definition diagonal (M : matrix) : vector :=
  omap id (imap (λ i row, row !! i) M).

(** [np.diag(v)] *)
Definition diag (v : vector) : matrix :=
  imap (λ i x, <[i := x]> (replicate (length v) 0)) v.

(** [np.triu_indices(n)]: the positions on and above the diagonal, row by
    row. *)
Definition triu_indices (n : nat) : list (nat * nat) :=
  i ← seq 0 n; pair i <$> seq i (n - i).

(** [a[idx] = vals]: numpy assigns position by position; a list of one value
    is broadcast, any other length mismatch is a [ValueError]. *)
Definition assign_at (M : matrix) (idx : list (nat * nat)) (vals : list Qc)
    : matrix :=
  foldl (λ M' p, mset M' p.1.1 p.1.2 p.2) M (zip idx vals).

Definition assign (M : matrix) (idx : list (nat * nat)) (vals : list Qc)
    : result matrix :=
  if decide (length vals = length idx) then Ok (assign_at M idx vals)
  else match vals with
       | [v] => Ok (assign_at M idx (replicate (length idx) v))
       | _ => Raise (ValueError "shape mismatch")
       end.

(** ** [symmetrize_triangular] *)

(** [int(np.floor((2 * len(tril_elements)) ** 0.5))] is the integer square
    root; [n * (n + 1) / 2] is a true division, compared as a rational. *)
Definition symmetrize_triangular (tril_elements : list Qc) : result matrix :=
  let n := Nat.sqrt (2 * length tril_elements) in
  if decide (Qc_of_nat (n * (n + 1)) / #2 ≠ Qc_of_nat (length tril_elements))
  then Raise (ValueError "The elements cannot form a symmetric matrix!")
  else
    sym ← assign (zeros n n) (triu_indices n) tril_elements;
    Ok (msub (madd sym (transpose n sym)) (diag (diagonal sym))).

(** The position of entry [(i, j)], [i <= j < n], in the row-major listing
    of the upper triangle of an [n]-by-[n] matrix. *)
Definition row_start (n i : nat) : nat := i * n - i * (i - 1) / 2.
Definition packed_index (n i j : nat) : nat := row_start n i + (j - i).

(** The upper-triangular matrix [U] filled from [packed]: entry [(i, j)]. *)
Definition upper_entry (packed : list Qc) (n i j : nat) : Qc :=
  if decide (i ≤ j)%nat then default 0 (packed !! packed_index n i j) else 0.

Definition QL (l : list Z) : list Qc := Qc_of_Z <$> l.

(** ** Printed diagnostics *)

(** A group (slice) key: the values of the [split_by] columns. *)
Abbreviation slice_key := (list string).

Inductive output : Type :=
| CondWarning (cond : Z)
    (* "WARNING: The condition number of X'X is %i, which might be too
       large. The model coefficients might be inaccurate." *)
| L1Warning
    (* "WARNING: Our solution for L1 and elasticnet penalty doesn't quite
       achieve sparsity. Please interprete the results with care." *)
| NotConverged
    (* "WARNING: Optimization didn't converge!" *)
| NotConvergedSlices (slices : list slice_key).
    (* "WARNING: Optimization didn't converge for slice: ", followed by the
       keys of the slices that did not converge *)

Global Instance output_eq_dec : EqDecision output.
Proof. solve_decision. Defined.

(** A computation that prints and may raise: what was printed so far and the
    outcome. *)
Definition io (A : Type) : Type := list output * result A.

Global Instance io_ret : MRet io := λ A a, ([], Ok a).
Global Instance io_bind : MBind io := λ A B f m,
  match m with
  | (out, Ok a) => let '(out', r) := f a in (out ++ out', r)
  | (out, Raise e) => (out, Raise e)
  end.

Definition print (o : output) : io () := ([o], Ok ()).
Definition lift {A : Type} (r : result A) : io A := ([], r).

(** ** Strings *)

Definition eqb_ascii (a b : ascii) : bool := bool_decide (a = b).

(** [s.replace(old, new)] for a non-empty [old]: occurrences are replaced
    left to right and do not overlap.  [skip] counts the characters of a
    matched occurrence still to be dropped. *)
Fixpoint replace_go (old new : string) (skip : nat) (s : string) : string :=
  match s with
  | EmptyString => EmptyString
  | String c s' =>
      match skip with
      | S k => replace_go old new k s'
      | O =>
          if String.prefix old s
          then new +:+ replace_go old new (String.length old - 1) s'
          else String c (replace_go old new 0 s')
      end
  end.
Definition str_replace (old new s : string) : string := replace_go old new 0 s.

(** [s.strip(c)] for a single character [c] *)
Fixpoint lstrip (c : ascii) (s : string) : string :=
  match s with
  | EmptyString => EmptyString
  | String a s' => if eqb_ascii a c then lstrip c s' else s
  end.
Definition strip (c : ascii) (s : string) : string :=
  String.rev (lstrip c (String.rev (lstrip c s))).

(** [n.replace('macro_', '$').strip('`')] *)
Definition clean_name (n : string) : string :=
  strip "`"%char (str_replace "macro_" "$" n).

(** ** Models *)

(** [class_weight] of the scikit-learn model: ['balanced'] or a dictionary
    from class label to weight. *)
Inductive class_weight_value : Type :=
| Balanced
| Weights (weights : list (Qc * Qc)).

Global Instance class_weight_value_eq_dec : EqDecision class_weight_value.
Proof. solve_decision. Defined.

(** The attributes [LogisticRegression.__init__] stores, on the instance
    ([penalty], [tol], [c], [intercept_scaling], [max_iter], [l1_ratio]) and
    on the scikit-learn model ([class_weight], [multi_class]). *)
Record logistic_params : Type := {
  penalty : string;
  lr_tol : Qc;
  lr_c : Qc;
  intercept_scaling : Qc;
  lr_max_iter : Z;
  l1_ratio : option Qc;
  class_weight : option class_weight_value;
  multi_class : string
}.

Global Instance logistic_params_eq_dec : EqDecision logistic_params.
Proof. solve_decision. Defined.

(** The model classes; the fields a class adds to [Model] sit on its
    constructor. *)
Inductive model_class : Type :=
| LinearRegression
| Ridge (alpha : Qc)
| Lasso
| ElasticNet
| LogisticRegression (params : logistic_params).

Global Instance model_class_eq_dec : EqDecision model_class.
Proof. solve_decision. Defined.

(** The attributes of a [Model] instance that the solvers read.  [y] and
    [x] stand for the child metrics, by name. *)
Record Model : Type := {
  cls : model_class;
  y : string;
  x : list string;
  group_by : list string;
  name : string;
  where_ : option string;
  fit_intercept : bool;
  normalize : bool
}.

Global Instance Model_eq_dec : EqDecision Model.
Proof. solve_decision. Defined.

(** [isinstance(m, Ridge)], with [m.alpha] when it holds *)
Definition ridge_alpha (m : Model) : option Qc :=
  match cls m with
  | Ridge alpha => Some alpha
  | _ => None
  end.

(** The same configuration under another class. *)
Definition with_cls (m : Model) (c : model_class) : Model :=
  {| cls := c; y := y m; x := x m; group_by := group_by m; name := name m;
     where_ := where_ m; fit_intercept := fit_intercept m;
     normalize := normalize m |}.

(** ** Sufficient statistics *)

(** One row of statistics (a pandas Series), and what a solver may be handed:
    a DataFrame of rows or a Series. *)
Abbreviation series := (gmap string Qc).

Inductive frame : Type :=
| DataFrame (rows : list series)
| Series (row : series).

(** [s[label]] *)
Definition getitem (s : series) (label : string) : result Qc :=
  match s !! label with
  | Some v => Ok v
  | None => Raise (KeyError label)
  end.

(** [s.label], attribute access to a column *)
Definition getattr (s : series) (label : string) : result Qc :=
  match s !! label with
  | Some v => Ok v
  | None => Raise (AttributeError label)
  end.

(** [df.iloc[0]] *)
Definition iloc0 (rows : list series) : result series :=
  match rows with
  | row :: _ => Ok row
  | [] => Raise IndexError
  end.

(** The column labels [f'x{i}'], [f'x{i}x{j}'], [f'x{i}y'] *)
Definition x_col (i : nat) : string := "x" +:+ pretty i.
Definition xx_col (i j : nat) : string := "x" +:+ pretty i +:+ "x" +:+ pretty j.
Definition xy_col (i : nat) : string := "x" +:+ pretty i +:+ "y".

(** A fitted coefficient row: [pd.DataFrame([coef], columns=names)], which
    raises when the two lengths differ. *)
Record coef_row : Type := { columns : list string; values : list Qc }.

Global Instance coef_row_eq_dec : EqDecision coef_row.
Proof. solve_decision. Defined.

Definition make_coef_row (coef : list Qc) (names : list string)
    : result coef_row :=
  if decide (length coef = length names)
  then Ok {| columns := names; values := coef |}
  else Raise (ValueError "columns do not match the data").

(** ** [construct_matrix_from_elements] *)

Definition construct_matrix_from_elements
    (sufficient_stats_elements : frame) (xs : list string)
    (fit_intercept : bool) : result (matrix * vector) :=
  row ← match sufficient_stats_elements with
        | DataFrame rows =>
            if decide (1 < length rows)%nat
            then Raise (ValueError "Only support 1D input!")
            else iloc0 rows
        | Series row => Ok row
        end;
  let n := length xs in
  let x_t_x_cols :=
    (if fit_intercept then x_col <$> seq 0 n else [])
    ++ (i ← seq 0 n; xx_col i <$> seq i (n - i)) in
  let x_t_y_cols :=
    (if fit_intercept then ["y"] else []) ++ (xy_col <$> seq 0 n) in
  x_t_x_elements ← result_mapM (getitem row) x_t_x_cols;
  let x_t_x_elements :=
    if fit_intercept then 1 :: x_t_x_elements else x_t_x_elements in
  x_t_y ← result_mapM (getitem row) x_t_y_cols;
  x_t_x ← symmetrize_triangular x_t_x_elements;
  Ok (x_t_x, x_t_y).

(** ** The closed-form solvers *)

(** The value of [np.linalg.cond]: a finite number, or [inf] for a singular
    matrix. *)
Inductive cond_value : Type :=
| CondFinite (c : Qc)
| CondInf.

(** [cond > 20] *)
Definition cond_gt_20 (c : cond_value) : bool :=
  match c with
  | CondFinite c => Qc_ltb #20 c
  | CondInf => true
  end.

(** ['%i' % cond]: the integer part, towards zero; an infinite float cannot
    be converted and raises [OverflowError]. *)
Definition format_i (c : cond_value) : result Z :=
  match c with
  | CondFinite c => Ok (Z.quot (Qnum c) (Z.pos (Qden c)))
  | CondInf => Raise OverflowError
  end.

(** [u.dot(v)]: the two lengths must agree. *)
Definition dot (u v : vector) : result Qc :=
  if decide (length u = length v)
  then Ok (foldr Qcplus 0 (zip_with Qcmult u v))
  else Raise (ValueError "shapes not aligned").

Section ClosedForm.
(** [np.linalg.solve] and [np.linalg.cond] *)
Variable solve : matrix → vector → result vector.
Variable cond : matrix → result cond_value.

(** The condition check shared by both branches. *)
Definition warn_if_ill_conditioned (x_t_x : matrix) : io () :=
  c ← lift (cond x_t_x);
  if cond_gt_20 c
  then i ← lift (format_i c); print (CondWarning i)
  else mret ().

(** [compute_coef_for_normalize_ridge]: the solve when both
    [fit_intercept] and [normalize] are set. *)
Definition compute_coef_for_normalize_ridge
    (sufficient_stats : series) (xs : list string) (m : Model)
    : io coef_row :=
  let n := length xs in
  let stat := getitem sufficient_stats in
  rows ← lift (result_mapM (λ i,
      xiy ← stat (xy_col i); xi ← stat (x_col i); sy ← stat "y";
      row ← result_mapM (λ j,
          xixj ← stat (xx_col i j); xi ← stat (x_col i);
          xj ← stat (x_col j);
          Ok (xixj - xi * xj)) (seq i (n - i));
      Ok (xiy - xi * sy, row)) (seq 0 n));
  let x_t_y : vector := fst <$> rows in
  let x_t_x_elements : vector := concat (snd <$> rows) in
  x_t_x ← lift (symmetrize_triangular x_t_x_elements);
  let x_t_x :=
    match ridge_alpha m with
    | Some alpha => madd x_t_x (mscale alpha (diag (diagonal x_t_x)))
    | None => x_t_x
    end in
  _ ← warn_if_ill_conditioned x_t_x;
  coef ← lift (solve x_t_x x_t_y);
  let names := clean_name <$> xs in
  sy ← lift (getattr sufficient_stats "y");
  means ← lift (result_mapM (λ i, stat (x_col i)) (seq 0 n));
  d ← lift (dot coef means);
  let intercept := sy - d in
  lift (make_coef_row (intercept :: coef) ("intercept" :: names)).

(** [compute_ridge_coefs] *)
Definition compute_ridge_coefs
    (sufficient_stats : frame) (xs : list string) (m : Model)
    : io coef_row :=
  sufficient_stats ← lift (match sufficient_stats with
                           | DataFrame rows => iloc0 rows
                           | Series row => Ok row
                           end);
  let fit_intercept := fit_intercept m in
  if fit_intercept && normalize m
  then compute_coef_for_normalize_ridge sufficient_stats xs m
  else
    '(x_t_x, x_t_y) ← lift (construct_matrix_from_elements
                              (Series sufficient_stats) xs fit_intercept);
    x_t_x ← lift (match ridge_alpha m with
                  | Some alpha =>
                      n_obs ← getitem sufficient_stats "n_obs";
                      let penalty := identity (length x_t_y) in
                      let penalty :=
                        if fit_intercept then mset penalty 0 0 0
                        else penalty in
                      (* We use AVG() to compute x_t_x so the penalty
                         needs to be scaled. *)
                      Ok (madd x_t_x (mscale (alpha / n_obs) penalty))
                  | None => Ok x_t_x
                  end);
    _ ← warn_if_ill_conditioned x_t_x;
    coef ← lift (solve x_t_x x_t_y);
    let xs := clean_name <$> xs in
    let xs := if fit_intercept then "intercept" :: xs else xs in
    lift (make_coef_row coef xs).
(** What both branches do once the matrix handed to the solver is fixed:
    the condition check, the solve, the named row.  Used to state the
    properties of the two solvers. *)
Definition solve_system (A : matrix) (b : vector)
    (finish : vector → result coef_row) : io coef_row :=
  _ ← warn_if_ill_conditioned A;
  coef ← lift (solve A b);
  lift (finish coef).

End ClosedForm.

(** The column names of the row returned by [compute_ridge_coefs]. *)
Definition coef_names (fi : bool) (xs : list string) : list string :=
  if fi then "intercept" :: (clean_name <$> xs) else clean_name <$> xs.

(** ** Construction of models *)

(** [Model.__init__]: an absent or empty [name] is generated from the model
    name and the names of the children.  The checks on [y] are those of the
    metric framework and are not repeated here. *)
Definition Model_init (c : model_class) (model_name : string)
    (y : string) (x : list string) (group_by : list string)
    (where_ : option string) (name : option string)
    (fit_intercept normalize : bool) : Model :=
  let auto := model_name +:+ "(" +:+ y +:+ " ~ " +:+ String.concat " + " x
              +:+ ")" in
  let name := match name with
              | Some n => if decide (n = "") then auto else n
              | None => auto
              end in
  {| cls := c; y := y; x := x; group_by := group_by; name := name;
     where_ := where_; fit_intercept := fit_intercept;
     normalize := normalize |}.

(** [Ridge(y, x, group_by, alpha, fit_intercept, normalize, where, name)] *)
Definition Ridge_init (y : string) (x : list string) (group_by : list string)
    (alpha : Qc) (fit_intercept normalize : bool) (where_ : option string)
    (name : option string) : Model :=
  Model_init (Ridge alpha) "Ridge" y x group_by where_ name fit_intercept
    normalize.

(** [LinearRegression(y, x, group_by, fit_intercept, normalize, where, name)] *)
Definition LinearRegression_init (y : string) (x : list string)
    (group_by : list string) (fit_intercept normalize : bool)
    (where_ : option string) (name : option string) : Model :=
  Model_init LinearRegression "OLS" y x group_by where_ name fit_intercept
    normalize.

(** ** The pushdown path of the linear models *)

(** What a fit returns: one coefficient row, or one row per slice. *)
Inductive fit_result : Type :=
| SingleFit (row : coef_row)
| GroupedFit (index : list slice_key) (names : list string)
    (rows : list (list Qc)).

Global Instance fit_result_eq_dec : EqDecision fit_result.
Proof. solve_decision. Defined.

Section Pushdown.
Variable solve : matrix → vector → result vector.
Variable cond : matrix → result cond_value.

(** The table expression a query reads from. *)
Variable Table : Type.

(** The round trip of [get_sufficient_stats_elements]: the aggregate query,
    built with the [sql] module and run by [execute].  It reads the children,
    [group_by] and [fit_intercept] of the model, not its class; it returns
    the names of the x columns and the statistics, one row per slice. *)
Variable sufficient_stats_query :
  string → list string → list string → bool →
  Table → list string → bool → bool → result (list string * list series).

(** [df.groupby(split_by).apply(fn)] of pandas. *)
Variable groupby_apply :
  list series → list string → (frame → io coef_row) → io fit_result.

Definition get_sufficient_stats_elements (m : Model) (table : Table)
    (split_by : list string) (normalize_arg : option bool)
    (include_n_obs : bool) : result (list string * list series) :=
  let normalize_arg := match normalize_arg with
                       | Some b => b
                       | None => normalize m && fit_intercept m
                       end in
  sufficient_stats_query (y m) (x m) (group_by m) (fit_intercept m)
    table split_by normalize_arg include_n_obs.

Definition apply_algorithm_to_sufficient_stats_elements
    (sufficient_stats_elements : list series) (split_by : list string)
    (algorithm : frame → io coef_row) : io fit_result :=
  match split_by with
  | _ :: _ => groupby_apply sufficient_stats_elements split_by algorithm
  | [] => row ← algorithm (DataFrame sufficient_stats_elements);
          mret (SingleFit row)
  end.

(** [Ridge.compute_on_sql_magic_mode] *)
Definition Ridge_compute_on_sql_magic_mode (m : Model) (table : Table)
    (split_by : list string) : io fit_result :=
  (* Never normalize for the sufficient_stats. Normalization is handled in
     compute_ridge_coefs() instead. *)
  '(xs, sufficient_stats) ←
    lift (get_sufficient_stats_elements m table split_by (Some false) true);
  apply_algorithm_to_sufficient_stats_elements sufficient_stats split_by
    (λ row, compute_ridge_coefs solve cond row xs m).

(** [LinearRegression.compute_on_sql_magic_mode] *)
Definition LinearRegression_compute_on_sql_magic_mode (m : Model)
    (table : Table) (split_by : list string) : io fit_result :=
  Ridge_compute_on_sql_magic_mode
    (Ridge_init (y m) (x m) (group_by m) 0 (fit_intercept m)
       (normalize m) (where_ m) (Some (name m)))
    table split_by.

End Pushdown.

(** ** Newton's method *)

(** [l[i]] *)
Definition index {A : Type} (l : list A) (i : nat) : result A :=
  match l !! i with
  | Some a => Ok a
  | None => Raise IndexError
  end.

(** [abs(delta).max()], which numpy refuses on an empty array *)
Definition max_abs (delta : vector) : result Qc :=
  match delta with
  | [] => Raise (ValueError "zero-size array to reduction operation maximum")
  | d :: ds =>
      Ok (foldl (λ acc v, if Qc_ltb acc (Qc_abs v) then Qc_abs v else acc)
            (Qc_abs d) ds)
  end.

(** [u -= v] on rows of one length *)
Definition vsub (u v : vector) : result vector :=
  if decide (length u = length v) then Ok (zip_with Qcminus u v)
  else Raise (ValueError "operands could not be broadcast together").

(** A left fold in the [result] monad: the body of a [for] loop that may
    raise. *)
Fixpoint result_foldl {A B : Type} (f : A → B → result A) (a : A)
    (l : list B) : result A :=
  match l with
  | [] => Ok a
  | x :: l' => a' ← f a x; result_foldl f a' l'
  end.

(** [np.array(conds)[~converged]]: the keys of the slices whose flag is
    unset; the mask must be as long as the array. *)
Definition unconverged_slices (conds : list slice_key)
    (converged : list bool) : result (list slice_key) :=
  if decide (length conds = length converged)
  then Ok (fst <$> filter (λ p, p.2 = false) (zip conds converged))
  else Raise IndexError.

Section Newton.
Variable solve : matrix → vector → result vector.

(** The callbacks: the Hessians and the gradients of the slices, [None] for
    a slice that has converged. *)
Variable hess : matrix → list bool → result (list (option matrix)).
Variable grads : matrix → list bool → result (list (option vector)).
Variable tol : Qc.

(** [np.linalg.solve(h[i], j[i])]; numpy rejects a missing operand. *)
Definition solve_slice (h : option matrix) (j : option vector)
    : result vector :=
  match h, j with
  | Some h, Some j => solve h j
  | _, _ => Raise LinAlgError
  end.

(** The body of [for i in range(n_slice)]. *)
Definition newton_slice (h : list (option matrix)) (j : list (option vector))
    (st : matrix * list bool) (i : nat) : result (matrix * list bool) :=
  let '(coef, converged) := st in
  done ← index converged i;
  if (done : bool) then Ok (coef, converged)
  else
    hi ← index h i;
    ji ← index j i;
    delta ← solve_slice hi ji;
    mx ← max_abs delta;
    let converged :=
      if Qc_ltb mx tol then <[i := true]> converged else converged in
    ci ← index coef i;
    ci ← vsub ci delta;
    Ok (<[i := ci]> coef, converged).

(** The body of [for _ in range(int(max_iter))], up to the test
    [all(converged)]. *)
Definition newton_iter (st : matrix * list bool)
    : result (matrix * list bool) :=
  let '(coef, converged) := st in
  let n_slice := length coef in
  h ← hess coef converged;
  j ← grads coef converged;
  result_foldl (newton_slice h j) (coef, converged) (seq 0 n_slice).

(** [all(converged)] *)
Definition all_converged (converged : list bool) : bool :=
  forallb id converged.

(** The statements after the loop: the warning and the last iterate. *)
Definition warn_not_converged (conds : list slice_key)
    (st : matrix * list bool) : io matrix :=
  let '(coef, converged) := st in
  let n_slice := length coef in
  _ ← (if decide (n_slice = 1%nat) then print NotConverged
       else slices ← lift (unconverged_slices conds converged);
            print (NotConvergedSlices slices));
  mret coef.

Fixpoint newton_loop (iters : nat) (conds : list slice_key)
    (st : matrix * list bool) : io matrix :=
  match iters with
  | O => warn_not_converged conds st
  | S iters' =>
      st' ← lift (newton_iter st);
      if all_converged st'.2 then mret st'.1
      else newton_loop iters' conds st'
  end.

(** [newtons_method(coef, grads, hess, tol, max_iter, conds)] *)
Definition newtons_method (coef : matrix) (max_iter : Z)
    (conds : list slice_key) : io matrix :=
  let n_slice := length coef in
  let converged := replicate n_slice false in
  newton_loop (Z.to_nat max_iter) conds (coef, converged).

(** What one pass of the loop body does to slice [i]: a converged slice is
    left alone; for any other the system [h[i] delta = j[i]] is solved, the
    step is subtracted from its coefficients, and the slice is flagged
    exactly when the largest absolute component of the step is below
    [tol]. *)
Definition slice_pass (coef coef' : matrix) (conv conv' : list bool)
    (i : nat) : Prop :=
  ∃ h j,
    hess coef conv = Ok h ∧ grads coef conv = Ok j ∧
    ((conv !! i = Some true ∧ coef' !! i = coef !! i ∧
      conv' !! i = Some true) ∨
     (conv !! i = Some false ∧
      ∃ hi ji delta mx ci,
        h !! i = Some hi ∧ j !! i = Some ji ∧
        solve_slice hi ji = Ok delta ∧ max_abs delta = Ok mx ∧
        coef !! i = Some ci ∧ length ci = length delta ∧
        coef' !! i = Some (zip_with Qcminus ci delta) ∧
        conv' !! i = Some (Qc_ltb mx tol))).

(** The state after [t] passes of the loop body, ignoring the exit test. *)
Fixpoint newton_iterate (t : nat) (st : matrix * list bool)
    : result (matrix * list bool) :=
  match t with
  | O => Ok st
  | S t' => st' ← newton_iterate t' st; newton_iter st'
  end.

End Newton.

(** ** The pushdown path of logistic regression *)

(** [intercept_scaling or 1], as [LogisticRegression.__init__] stores it *)
Definition or_1 (v : option Qc) : Qc :=
  match v with
  | Some q => if bool_decide (q = 0) then 1 else q
  | None => 1
  end.

(** The truth value of [self.model.class_weight]: [None] and the empty
    dictionary are false. *)
Definition class_weight_set (v : option class_weight_value) : bool :=
  match v with
  | None => false
  | Some Balanced => true
  | Some (Weights []) => false
  | Some (Weights (_ :: _)) => true
  end.

(** [not self.l1_ratio or not 0 <= self.l1_ratio <= 1] *)
Definition bad_l1_ratio (v : option Qc) : bool :=
  match v with
  | None => true
  | Some r => bool_decide (r = 0) || negb (Qc_leb 0 r && Qc_leb r 1)
  end.

(** The checks at the head of
    [LogisticRegression.compute_on_sql_magic_mode], up to the warning for the
    L1 penalties.  The text of the [l1_ratio] message ends with the value
    given, which is left out here. *)
Definition check_magic_preconditions (p : logistic_params) : io () :=
  if class_weight_set (class_weight p)
  then lift (Raise (ValueError "Magic mode doesn't support class_weight!"))
  else if bool_decide (multi_class p = "multinomial")
  then lift (Raise (ValueError "Magic mode doesn't support multi_class!"))
  else if bool_decide (penalty p = "elasticnet") && bad_l1_ratio (l1_ratio p)
  then lift (Raise (ValueError "l1_ratio must be between 0 and 1"))
  else if negb (bool_decide (intercept_scaling p = 1))
  then lift (Raise (ValueError
                      "intercept_scaling is not supported in magic mode!"))
  else if bool_decide (penalty p = "l1")
          || bool_decide (penalty p = "elasticnet")
  then print L1Warning
  else mret ().

(** [values.reshape(-1, w)]: rows of [w] values; the length must be a
    multiple of [w]. *)
Fixpoint chunks (fuel w : nat) (values : list Qc) : list (list Qc) :=
  match fuel, values with
  | S fuel', _ :: _ => take w values :: chunks fuel' w (drop w values)
  | _, _ => []
  end.
Definition reshape_rows (w : nat) (values : list Qc)
    : result (list (list Qc)) :=
  if decide (w = 0%nat ∨ (length values mod w ≠ 0)%nat)
  then Raise (ValueError "cannot reshape array")
  else Ok (chunks (length values) w values).

(** The loop that fills [self._gradients]: [k] values for each slice that
    has not converged; what is left of the row is returned with them. *)
Fixpoint slice_gradients (k : nat) (converged : list bool)
    (values : list Qc) : list (option vector) * list Qc :=
  match converged with
  | [] => ([], values)
  | true :: rest =>
      let '(gs, values') := slice_gradients k rest values in
      (None :: gs, values')
  | false :: rest =>
      let '(gs, values') := slice_gradients k rest (drop k values) in
      (Some (take k values) :: gs, values')
  end.

(** The loop that fills [hess_arr], popping the packed Hessians in order. *)
Fixpoint slice_hessians (converged : list bool)
    (hess_elements : list (list Qc)) : result (list (option matrix)) :=
  match converged with
  | [] => Ok []
  | true :: rest => hs ← slice_hessians rest hess_elements; Ok (None :: hs)
  | false :: rest =>
      match hess_elements with
      | [] => Raise IndexError
      | packed :: hess_elements' =>
          h ← symmetrize_triangular packed;
          hs ← slice_hessians rest hess_elements';
          Ok (Some h :: hs)
      end
  end.

(** [np.concatenate([[res[-1]], res[:-1]])]: the last entry moved first *)
Definition last_first {A : Type} (l : list A) : result (list A) :=
  match last l with
  | Some a => Ok (a :: removelast l)
  | None => Raise IndexError
  end.

(** The order of [sort_index] on slice keys: lexicographic, strings by
    code point. *)
Fixpoint key_leb (a b : slice_key) : bool :=
  match a, b with
  | [], _ => true
  | _ :: _, [] => false
  | u :: a', v :: b' =>
      match String.compare u v with
      | Lt => true
      | Gt => false
      | Eq => key_leb a' b'
      end
  end.
Definition key_le (p q : slice_key * list Qc) : Prop := key_leb p.1 q.1 = true.
Global Instance key_le_dec : RelDecision key_le.
Proof. intros p q. unfold key_le. apply _. Defined.

Section LogisticPushdown.
Variable solve : matrix → vector → result vector.
Variable Table : Type.

(** The round trips to the engine: the number of distinct values of the
    response over the population grouped by [group_by]; the names of the x
    columns of [get_data]; the distinct slices; and the one row of gradient
    and Hessian aggregates of the slices that have not converged, whose
    query text the [sql] module builds from the penalty, [C], the
    coefficients and the slice conditions. *)
Variable y_nunique : string → list string → Table → result nat.
Variable get_data_xs : Model → Table → list string → result (list string).
Variable distinct_slices : Table → list string → result (list slice_key).
Variable grads_and_hess_query :
  Model → logistic_params → Table → list string → list string →
  list slice_key → matrix → list bool → result (list Qc).

(** [compute_grads_and_hess]: the gradients it stores in [self._gradients]
    and the Hessians it returns. *)
Definition compute_grads_and_hess (m : Model) (p : logistic_params)
    (table : Table) (xs split_by : list string) (conds : list slice_key)
    (coef : matrix) (converged : list bool)
    : result (list (option vector) * list (option matrix)) :=
  coef0 ← index coef 0;
  let k := length coef0 in
  grads_and_hess ←
    grads_and_hess_query m p table xs split_by conds coef converged;
  let '(gradients, grads_and_hess) :=
    slice_gradients k converged grads_and_hess in
  hess_elements ← reshape_rows (k * (k + 1) / 2) grads_and_hess;
  hess_arr ← slice_hessians converged hess_elements;
  Ok (gradients, hess_arr).

(** [LogisticRegression.compute_on_sql_magic_mode] *)
Definition LogisticRegression_compute_on_sql_magic_mode (m : Model)
    (p : logistic_params) (table : Table) (split_by : list string)
    : io fit_result :=
  _ ← check_magic_preconditions p;
  n_y ← lift (y_nunique (y m) (group_by m) table);
  if decide (n_y ≠ 2%nat)
  then lift (Raise (ValueError ("Magic mode only support two classes but got "
                                +:+ pretty n_y +:+ " distinct y values!")))
  else
    xs ← lift (get_data_xs m table split_by);
    let xs := if fit_intercept m then xs ++ ["1"] else xs in
    conds ← lift (match split_by with
                  | _ :: _ => distinct_slices table split_by
                  | [] => Ok []
                  end);
    let grads coef converged :=
      fst <$> compute_grads_and_hess m p table xs split_by conds coef
                converged in
    let hess coef converged :=
      snd <$> compute_grads_and_hess m p table xs split_by conds coef
                converged in
    let n_slice := match conds with [] => 1%nat | _ => length conds end in
    res ← newtons_method solve hess grads (lr_tol p)
            (zeros n_slice (length xs)) (lr_max_iter p) conds;
    let xs := clean_name <$> xs in
    match split_by with
    | _ :: _ =>
        if decide (length conds ≠ length res)
        then lift (Raise (ValueError "Shape of passed values does not match"))
        else
          fit ← lift (if fit_intercept m
                      then rows ← result_mapM last_first res;
                           Ok ("intercept" :: removelast xs, rows)
                      else Ok (xs, res));
          let sorted := merge_sort key_le (zip conds fit.2) in
          mret (GroupedFit (fst <$> sorted) fit.1 (snd <$> sorted))
    | [] =>
        res ← lift (index res 0);
        fit ← lift (if fit_intercept m
                    then row ← last_first res;
                         Ok ("intercept" :: removelast xs, row)
                    else Ok (xs, res));
        row ← lift (make_coef_row fit.2 fit.1);
        mret (SingleFit row)
    end.

End LogisticPushdown.

(** ** [compute_on_sql_magic_mode], by class *)

Section MagicMode.
Variable solve : matrix → vector → result vector.
Variable cond : matrix → result cond_value.
Variable Table : Type.
Variable sufficient_stats_query :
  string → list string → list string → bool →
  Table → list string → bool → bool → result (list string * list series).
Variable groupby_apply :
  list series → list string → (frame → io coef_row) → io fit_result.
Variable y_nunique : string → list string → Table → result nat.
Variable get_data_xs : Model → Table → list string → result (list string).
Variable distinct_slices : Table → list string → result (list slice_key).
Variable grads_and_hess_query :
  Model → logistic_params → Table → list string → list string →
  list slice_key → matrix → list bool → result (list Qc).

(** The method a model answers with: [Lasso] and [ElasticNet] inherit the
    one of [Model], which raises [NotImplementedError]. *)
Definition Model_compute_on_sql_magic_mode (m : Model) (table : Table)
    (split_by : list string) : io fit_result :=
  match cls m with
  | LinearRegression =>
      LinearRegression_compute_on_sql_magic_mode solve cond Table
        sufficient_stats_query groupby_apply m table split_by
  | Ridge _ =>
      Ridge_compute_on_sql_magic_mode solve cond Table
        sufficient_stats_query groupby_apply m table split_by
  | LogisticRegression p =>
      LogisticRegression_compute_on_sql_magic_mode solve Table y_nunique
        get_data_xs distinct_slices grads_and_hess_query m p table split_by
  | Lasso | ElasticNet => lift (Raise NotImplementedError)
  end.

End MagicMode.

(** ** [Model.compute_through_sql] *)

(** [try: body except Exception as e: handler(e)]; what the body printed
    before it raised stays printed. *)
Definition catch {A : Type} (body : io A) (handler : exn → io A) : io A :=
  match body with
  | (out, Raise e) => let '(out', r) := handler e in (out ++ out', r)
  | (out, Ok a) => (out, Ok a)
  end.

(** The double quote character, for messages that contain it. *)
Definition dquote : string := String (ascii_of_nat 34) EmptyString.

Section ModelFacade.
Variable Table : Type.

(** [sql.Sql(sql.Column('*', auto_alias=False), table, self.where)] *)
Variable sql_where : Table → string → Table.

(** Methods of the metric framework and of the class of the model:
    [all_computable_in_pure_sql(False)], [compute_on_sql_mixed_mode],
    [compute_on_sql_magic_mode] (for [Model] itself it raises
    [NotImplementedError]), and [utils.apply_name_tmpl]. *)
Variable all_computable_in_pure_sql : Model → bool.
Variable compute_on_sql_mixed_mode :
  Model → Table → list string → option string → io fit_result.
Variable compute_on_sql_magic_mode :
  Model → Table → list string → io fit_result.
Variable apply_name_tmpl : string → fit_result → result fit_result.

(** [self.name_tmpl] *)
Definition name_tmpl (m : Model) : string := name m +:+ " Coefficient: {}".

(** The table after [if self.where: table = sql.Sql(...)]. *)
Definition filtered_table (m : Model) (table : Table) : Table :=
  match where_ m with
  | Some w => if decide (w = "") then table else sql_where table w
  | None => table
  end.

(** [Model.compute_through_sql]; falling off the end returns [None]. *)
Definition compute_through_sql (m : Model) (table : Table)
    (split_by : list string) (mode : option string)
    : io (option fit_result) :=
  if negb (bool_decide
             (mode ∈ [None; Some "sql"; Some "mixed"; Some "magic"]))
  then lift (Raise (ValueError ("Mode " +:+ default "None" mode
                                +:+ " is not supported!")))
  else if bool_decide (mode = Some "sql")
  then lift (Raise (ValueError (name m
                                +:+ " is not computable in pure SQL!")))
  else if bool_decide (mode = Some "magic")
          && negb (all_computable_in_pure_sql m)
  then lift (Raise (ValueError
         ("The " +:+ dquote +:+ "magic" +:+ dquote +:+ " mode of " +:+ name m
          +:+ " requires all descendants to be computable in SQL!")))
  else
    let table := filtered_table m table in
    if bool_decide (mode = Some "mixed")
       || bool_decide (mode = None ∨ mode = Some "")
    then
      catch (res ← compute_on_sql_mixed_mode m table split_by mode;
             mret (Some res))
        (λ e, match e with
              | MaybeBadSqlModeError _ _ => lift (Raise e)
              | _ => lift (Raise (MaybeBadSqlModeError "magic" (Some e)))
              end)
    else if all_computable_in_pure_sql m
    then
      catch (res ← compute_on_sql_magic_mode m table split_by;
             res ← lift (apply_name_tmpl (name_tmpl m) res);
             mret (Some res))
        (λ e, lift (Raise (MaybeBadSqlModeError "mixed" (Some e))))
    else mret None.

End ModelFacade.

(** ** Metrics and [count_features] *)

(** The metric nodes, by the class [count_features] tests for, in the order
    of its [isinstance] chain.  [Model] and [MetricWithCI] are operations,
    so they come before [Operation]. *)
#[warnings="-register-all"]
Inductive Metric : Type :=
| ModelMetric (k : nat)
| MetricList (children : list Metric)
| MetricWithCI (confidence : option Qc) (children : list Metric)
| Operation (children : list Metric)
| CompositeMetric (children : list Metric)
| Quantile (one_quantile : bool) (quantile : list Qc)
| SimpleMetric.

(** The truth value of [m.confidence]: [None] and 0 are false. *)
Definition truthy (v : option Qc) : bool :=
  match v with
  | Some q => negb (bool_decide (q = 0))
  | None => false
  end.

(** [m.children[0]] *)
Definition first_child (children : list Metric) : result Metric :=
  match children with
  | c :: _ => Ok c
  | [] => Raise IndexError
  end.

(** [max(l)], which raises on an empty list *)
Definition max_of (l : list nat) : result nat :=
  match l with
  | [] => Raise (ValueError "max() arg is an empty sequence")
  | n :: l' => Ok (foldl Nat.max n l')
  end.

Fixpoint count_features (m : Metric) : result nat :=
  match m with
  | ModelMetric k => Ok k
  | MetricList children =>
      ns ← result_mapM count_features children; Ok (sum_list ns)
  | MetricWithCI confidence children =>
      match children with
      | c :: _ =>
          n ← count_features c;
          Ok (if truthy confidence then n * 3 else n * 2)%nat
      | [] => Raise IndexError
      end
  | Operation children =>
      match children with
      | c :: _ => count_features c
      | [] => Raise IndexError
      end
  | CompositeMetric children =>
      ns ← result_mapM count_features children; max_of ns
  | Quantile one_quantile quantile =>
      if one_quantile then Ok 1%nat else Ok (length quantile)
  | SimpleMetric => Ok 1%nat
  end.

(** ** The packed positions penalized in [get_grads_and_hess_query] *)

(** [np.arange(start, stop, -1)] *)
Definition arange_down (start stop : Z) : list Z :=
  (λ i, start - Z.of_nat i)%Z <$> seq 0 (Z.to_nat (start - stop)).

(** [a.cumsum()] *)
Fixpoint cumsum_from (acc : Z) (a : list Z) : list Z :=
  match a with
  | [] => []
  | v :: a' => (acc + v)%Z :: cumsum_from (acc + v) a'
  end.
Definition cumsum (a : list Z) : list Z := cumsum_from 0 a.

(** [hess_diag_idx], from [len(xs)] and [self.k]: the positions, in the
    packed Hessian columns, that receive the L2 term. *)
Definition hess_diag_idx (n_xs k : nat) : list Z :=
  0%Z :: cumsum (arange_down (Z.of_nat n_xs)
                   (Z.of_nat n_xs - Z.of_nat k + 1)).

(** ** Sample inputs *)

(** The statistics of a slice of four rows whose single feature is
    identically zero, with response mean 1: [XtX] is [[1, 0], [0, 0]]. *)
Definition zero_feature_stats : series :=
  list_to_map [("x0", 0); ("x0x0", 0); ("y", 1); ("x0y", 0); ("n_obs", #4)].

(** The Ridge model with [alpha = 0] that [LinearRegression] solves through,
    with an intercept and without normalization. *)
Definition ols_model : Model :=
  {| cls := Ridge 0; y := "y"; x := ["a"]; group_by := []; name := "OLS(y ~ a)";
     where_ := None; fit_intercept := true; normalize := false |}.

(** The statistics of ten rows of one feature: means 2 and 3, raw second
    moments 5 and 7. *)
Definition sample_stats : series :=
  list_to_map [("x0", #2); ("x0x0", #5); ("y", #3); ("x0y", #7);
               ("n_obs", #10)].

(** Ridge models with [alpha = 1] over one feature, without and with
    normalization. *)
Definition sample_ridge : Model :=
  {| cls := Ridge 1; y := "y"; x := ["a"]; group_by := [];
     name := "Ridge(y ~ a)"; where_ := None; fit_intercept := true;
     normalize := false |}.
Definition sample_ridge_normalized : Model :=
  {| cls := Ridge 1; y := "y"; x := ["a"]; group_by := [];
     name := "Ridge(y ~ a)"; where_ := None; fit_intercept := true;
     normalize := true |}.

(** A statistics query that always answers with [sample_stats], and a
    [groupby] that is never reached when there is no [split_by]. *)
Definition sample_query (y : string) (x group_by : list string)
    (fit_intercept : bool) (table : ()) (split_by : list string)
    (normalize include_n_obs : bool) : result (list string * list series) :=
  Ok (["a"], [sample_stats]).
Definition no_groupby (rows : list series) (split_by : list string)
    (fn : frame → io coef_row) : io fit_result :=
  lift (Raise NotImplementedError).

(** [LogisticRegression(y, x, penalty='elasticnet', l1_ratio=0)], every
    other argument at its default. *)
Definition elasticnet_l1_ratio_0 : logistic_params :=
  {| penalty := "elasticnet"; lr_tol := 1 / #10000; lr_c := 1;
     intercept_scaling := or_1 (Some 1); lr_max_iter := 100;
     l1_ratio := Some 0; class_weight := None; multi_class := "auto" |}.

(** A model whose pushdown fit succeeds while fitting on the children
    computed through SQL fails. *)
Definition sample_fit : fit_result :=
  SingleFit {| columns := ["intercept"; "a"]; values := [1; 1] |}.
Definition failing_mixed_mode (m : Model) (table : ()) (split_by : list string)
    (mode : option string) : io fit_result :=
  lift (Raise (OtherException "the local fit failed")).
Definition working_magic_mode (m : Model) (table : ())
    (split_by : list string) : io fit_result :=
  mret sample_fit.
Definition keep_names (tmpl : string) (res : fit_result) : result fit_result :=
  Ok res.

(** Condition numbers reported for every matrix: 1, and infinite. *)
Definition cond_one (M : matrix) : result cond_value := Ok (CondFinite 1).
Definition cond_inf (M : matrix) : result cond_value := Ok CondInf.

(** A single slice, keyed ["a"], whose Newton step is always 1: the solver
    returns the gradient, the Hessian is the identity, the gradient is 1. *)
Definition unit_solve (h : matrix) (j : vector) : result vector := Ok j.
Definition unit_hess (coef : matrix) (converged : list bool)
    : result (list (option matrix)) :=
  Ok ((λ _, Some [[1]]) <$> coef).
Definition unit_grads (coef : matrix) (converged : list bool)
    : result (list (option vector)) :=
  Ok ((λ _, Some [1]) <$> coef).

(** [LogisticRegression(y, x)], every argument at its default. *)
Definition default_logistic : logistic_params :=
  {| penalty := "l2"; lr_tol := 1 / #10000; lr_c := 1;
     intercept_scaling := or_1 (Some 1); lr_max_iter := 100;
     l1_ratio := None; class_weight := None; multi_class := "auto" |}.

(** An engine that answers, for one slice of two coefficients [a] and [b], a
    gradient of [a - 3] and [b - 5] and the identity as packed Hessian. *)
Definition shifted_query (m : Model) (p : logistic_params) (table : ())
    (xs split_by : list string) (conds : list slice_key) (coef : matrix)
    (converged : list bool) : result (list Qc) :=
  match coef with
  | [[a; b]] => Ok [a - #3; b - #5; 1; 0; 1]
  | _ => Raise (OtherException "unexpected coefficients")
  end.

(** An engine over two-coefficient slices: the gradient of the slice at
    position [i] with coefficients [a] and [b] is [a - (3 + i)] and [b - 5],
    its packed Hessian the identity; only the slices that have not converged
    are answered for, gradients first. *)
Definition sliced_query (m : Model) (p : logistic_params) (table : ())
    (xs split_by : list string) (conds : list slice_key) (coef : matrix)
    (converged : list bool) : result (list Qc) :=
  let open := filter (λ q, q.2.1 = false)
                (imap (λ i c, (i, c)) (zip converged coef)) in
  Ok ((q ← open; zip_with Qcminus q.2.2 [Qc_of_nat q.1 + #3; #5])
      ++ (q ← open; [1; 0; 1])).

(** * Properties *)

(** ** Numbers *)

Lemma Qc_of_Z_inj (a b : Z) : Qc_of_Z a = Qc_of_Z b → a = b.
Proof.
  unfold Qc_of_Z. rewrite Q2Qc_eq_iff. apply inject_Z_injective.
Qed.

Lemma Qc_of_Z_mult (a b : Z) : Qc_of_Z (a * b) = Qc_of_Z a * Qc_of_Z b.
Proof.
  unfold Qc_of_Z, Qcmult. apply Q2Qc_eq_iff. simpl.
  rewrite !Qred_correct. by rewrite inject_Z_mult.
Qed.

Lemma Qc_two_neq_0 : #2 ≠ 0.
Proof. intros H. apply (Qc_of_Z_inj 2 0) in H. discriminate. Qed.

(** The true division [n * (n + 1) / 2] equals the length exactly when the
    integers do: no rounding is involved. *)
Lemma triangular_check (n len : nat) :
  Qc_of_nat (n * (n + 1)) / #2 = Qc_of_nat len ↔ (n * (n + 1) = 2 * len)%nat.
Proof.
  unfold Qc_of_nat. split.
  - intros H. apply Nat2Z.inj, Qc_of_Z_inj.
    rewrite (Nat2Z.inj_mul 2 len), Qc_of_Z_mult. simpl (Z.of_nat 2).
    rewrite <- H. rewrite Qcmult_div_r; [done | apply Qc_two_neq_0].
  - intros H. rewrite H, (Nat2Z.inj_mul 2 len), Qc_of_Z_mult. simpl (Z.of_nat 2).
    rewrite Qcmult_comm. apply Qcdiv_mult_l, Qc_two_neq_0.
Qed.

Lemma even_consecutive (n : nat) : (2 * (n * (n + 1) / 2) = n * (n + 1))%nat.
Proof.
  induction n as [|n IH]; [done|].
  replace (S n * (S n + 1))%nat with (n * (n + 1) + (n + 1) * 2)%nat by lia.
  rewrite Nat.div_add by lia. lia.
Qed.

Lemma triangular_check_div (n len : nat) :
  (n * (n + 1) / 2 = len)%nat ↔ (n * (n + 1) = 2 * len)%nat.
Proof. pose proof (even_consecutive n). lia. Qed.

(** ** Arrays: shapes and entries *)

Lemma zeros_shape (n m : nat) : is_shape n m (zeros n m).
Proof.
  split; [apply length_replicate|].
  apply Forall_replicate, length_replicate.
Qed.

Lemma mget_zeros (n m i j : nat) :
  (i < n)%nat → (j < m)%nat → mget (zeros n m) i j = Some 0.
Proof.
  intros Hi Hj. unfold mget, zeros.
  rewrite lookup_replicate_2 by done. simpl.
  by rewrite lookup_replicate_2.
Qed.

Lemma mget_lt (n m : nat) (M : matrix) (i j : nat) :
  is_shape n m M → (i < n)%nat → (j < m)%nat → is_Some (mget M i j).
Proof.
  intros [Hn Hm] Hi Hj. unfold mget.
  destruct (lookup_lt_is_Some_2 M i) as [row Hrow]; [lia|].
  rewrite Hrow. simpl. apply lookup_lt_is_Some_2.
  rewrite Forall_lookup in Hm. by rewrite (Hm _ _ Hrow).
Qed.

Lemma mset_shape (n m : nat) (M : matrix) (i j : nat) (v : Qc) :
  is_shape n m M → is_shape n m (mset M i j v).
Proof.
  intros [Hn Hm]. unfold mset. split; [by rewrite length_alter|].
  rewrite Forall_lookup in Hm. apply Forall_lookup. intros k row Hk.
  destruct (decide (i = k)) as [->|Hne].
  - rewrite list_lookup_alter_eq in Hk.
    destruct (M !! k) as [r|] eqn:Hr; [|discriminate Hk].
    injection Hk as <-. rewrite length_insert. eauto.
  - rewrite list_lookup_alter_ne in Hk by done. eauto.
Qed.

Lemma mget_mset_eq (n m : nat) (M : matrix) (i j : nat) (v : Qc) :
  is_shape n m M → (i < n)%nat → (j < m)%nat →
  mget (mset M i j v) i j = Some v.
Proof.
  intros [Hn Hm] Hi Hj. unfold mget, mset.
  rewrite list_lookup_alter_eq.
  destruct (lookup_lt_is_Some_2 M i) as [row Hrow]; [lia|].
  rewrite Hrow. simpl. apply list_lookup_insert_eq.
  rewrite Forall_lookup in Hm. by rewrite (Hm _ _ Hrow).
Qed.

Lemma mget_mset_ne (M : matrix) (i j i' j' : nat) (v : Qc) :
  (i, j) ≠ (i', j') → mget (mset M i j v) i' j' = mget M i' j'.
Proof.
  intros Hne. unfold mget, mset.
  destruct (decide (i = i')) as [->|Hi].
  - rewrite list_lookup_alter_eq. destruct (M !! i') as [row|]; [|done].
    simpl. apply list_lookup_insert_ne. congruence.
  - by rewrite list_lookup_alter_ne.
Qed.

Lemma assign_at_shape (n m : nat) (idx : list (nat * nat)) (vals : list Qc)
    (M : matrix) :
  is_shape n m M → is_shape n m (assign_at M idx vals).
Proof.
  unfold assign_at. revert M. induction (zip idx vals) as [|p l IH]; [done|].
  intros M HM. simpl. apply IH. by apply mset_shape.
Qed.

Lemma mget_assign_at_notin (idx : list (nat * nat)) (vals : list Qc)
    (M : matrix) (i j : nat) :
  (i, j) ∉ idx → mget (assign_at M idx vals) i j = mget M i j.
Proof.
  unfold assign_at. revert vals M.
  induction idx as [|[a b] idx IH]; intros vals M Hnot; [done|].
  destruct vals as [|v vals]; [done|]. simpl.
  apply not_elem_of_cons in Hnot as [Hne Hnot].
  rewrite IH by done. apply mget_mset_ne. congruence.
Qed.

Lemma mget_assign_at (n m : nat) (idx : list (nat * nat)) (vals : list Qc)
    (M : matrix) (k i j : nat) (v : Qc) :
  is_shape n m M → NoDup idx → (i < n)%nat → (j < m)%nat →
  idx !! k = Some (i, j) → vals !! k = Some v →
  mget (assign_at M idx vals) i j = Some v.
Proof.
  revert vals M k.
  induction idx as [|[a b] idx IH]; intros vals M k HM Hnd Hi Hj Hk Hv; [done|].
  destruct vals as [|w vals]; [done|].
  apply NoDup_cons in Hnd as [Hnotin Hnd].
  destruct k as [|k]; simplify_eq/=.
  - change (mget (assign_at (mset M i j v) idx vals) i j = Some v).
    rewrite mget_assign_at_notin by done.
    by apply (mget_mset_eq n m).
  - change (mget (assign_at (mset M a b w) idx vals) i j = Some v).
    apply (IH _ _ k); auto using mset_shape.
Qed.

Lemma transpose_shape (n m : nat) (M : matrix) :
  is_shape n m M → is_shape m n (transpose m M).
Proof.
  revert n. induction M as [|row rest IH]; intros n [Hn Hm]; simpl in *.
  - subst n. split; [apply length_replicate|]. by apply Forall_replicate.
  - apply Forall_cons in Hm as [Hrow Hrest].
    destruct (IH (length rest)) as [Hlen Hrows]; [done|].
    split; [rewrite length_zip_with; lia|].
    apply Forall_lookup. intros j col Hj.
    rewrite lookup_zip_with in Hj.
    destruct (row !! j) as [x|]; [|done]. simpl in Hj.
    destruct (transpose m rest !! j) as [y|] eqn:Hy; [|done].
    injection Hj as <-. rewrite Forall_lookup in Hrows.
    simpl. rewrite (Hrows _ _ Hy). lia.
Qed.

Lemma mget_transpose (n m : nat) (M : matrix) (i j : nat) :
  is_shape n m M → (i < n)%nat → (j < m)%nat →
  mget (transpose m M) j i = mget M i j.
Proof.
  revert n i. induction M as [|row rest IH]; intros n i [Hn Hm] Hi Hj;
    simpl in *; [lia|].
  apply Forall_cons in Hm as [Hrow Hrest].
  destruct (transpose_shape (length rest) m rest) as [Hlen _]; [done|].
  unfold mget. rewrite lookup_zip_with.
  destruct (lookup_lt_is_Some_2 row j) as [x Hx]; [lia|].
  destruct (lookup_lt_is_Some_2 (transpose m rest) j) as [y Hy]; [lia|].
  rewrite Hx, Hy. simpl. destruct i as [|i]; simpl; [done|].
  specialize (IH (length rest) i). unfold mget in IH.
  rewrite Hy in IH. apply IH; [done|lia|done].
Qed.

Lemma zip_rows_shape (f : Qc → Qc → Qc) (n m : nat) (A B : matrix) :
  is_shape n m A → is_shape n m B → is_shape n m (zip_with (zip_with f) A B).
Proof.
  intros [HAn HAm] [HBn HBm]. split; [rewrite length_zip_with; lia|].
  rewrite Forall_lookup in HAm, HBm. apply Forall_lookup. intros i row Hi.
  rewrite lookup_zip_with in Hi.
  destruct (A !! i) as [a|] eqn:Ha; [|done]. simpl in Hi.
  destruct (B !! i) as [b|] eqn:Hb; [|done]. injection Hi as <-.
  rewrite length_zip_with, (HAm _ _ Ha), (HBm _ _ Hb). lia.
Qed.

Lemma mget_zip_rows (f : Qc → Qc → Qc) (A B : matrix) (i j : nat) (a b : Qc) :
  mget A i j = Some a → mget B i j = Some b →
  mget (zip_with (zip_with f) A B) i j = Some (f a b).
Proof.
  unfold mget. intros Ha Hb. rewrite lookup_zip_with.
  destruct (A !! i) as [ra|]; [|done]. destruct (B !! i) as [rb|]; [|done].
  simpl in *. rewrite lookup_zip_with, Ha. simpl. by rewrite Hb.
Qed.

Lemma omap_id_lookup {A : Type} (l : list (option A)) (i : nat) :
  Forall is_Some l → omap id l !! i = mjoin (l !! i).
Proof.
  revert i. induction l as [|[x|] l IH]; intros i Hall; [done| |].
  - apply Forall_cons in Hall as [_ Hall]. destruct i; simpl; [done|].
    by apply IH.
  - apply Forall_cons in Hall as [[? ?] _]. done.
Qed.

Lemma omap_id_length {A : Type} (l : list (option A)) :
  Forall is_Some l → length (omap id l) = length l.
Proof.
  induction 1 as [|o l [x ->] _ IH]; [done|].
  change (S (length (omap id l)) = S (length l)). by rewrite IH.
Qed.

Lemma diagonal_entries_exist (n : nat) (M : matrix) :
  is_shape n n M → Forall is_Some (imap (λ i (row : vector), row !! i) M).
Proof.
  intros [Hn Hm]. apply Forall_lookup. intros k o Hk.
  rewrite list_lookup_imap in Hk.
  destruct (M !! k) as [row|] eqn:Hrow; [|done]. injection Hk as <-.
  apply lookup_lt_is_Some_2. rewrite Forall_lookup in Hm.
  rewrite (Hm _ _ Hrow). apply lookup_lt_Some in Hrow. lia.
Qed.

Lemma diagonal_lookup (n : nat) (M : matrix) (i : nat) :
  is_shape n n M → diagonal M !! i = mget M i i.
Proof.
  intros HM. unfold diagonal, mget.
  rewrite omap_id_lookup by eauto using diagonal_entries_exist.
  rewrite list_lookup_imap. by destruct (M !! i).
Qed.

Lemma diagonal_length (n : nat) (M : matrix) :
  is_shape n n M → length (diagonal M) = n.
Proof.
  intros HM. unfold diagonal.
  rewrite omap_id_length by eauto using diagonal_entries_exist.
  rewrite length_imap. apply HM.
Qed.

Lemma diag_shape (v : vector) : is_shape (length v) (length v) (diag v).
Proof.
  unfold diag. split; [apply length_imap|].
  apply Forall_lookup. intros i row Hi. rewrite list_lookup_imap in Hi.
  destruct (v !! i); [|done]. injection Hi as <-.
  by rewrite length_insert, length_replicate.
Qed.

Lemma mget_diag (v : vector) (i j : nat) :
  (i < length v)%nat → (j < length v)%nat →
  mget (diag v) i j = if decide (i = j) then v !! i else Some 0.
Proof.
  intros Hi Hj. unfold mget, diag. rewrite list_lookup_imap.
  destruct (lookup_lt_is_Some_2 v i Hi) as [x Hx]. rewrite Hx. simpl.
  case_decide as Hij.
  - subst j. apply list_lookup_insert_eq. by rewrite length_replicate.
  - rewrite list_lookup_insert_ne by done. by apply lookup_replicate_2.
Qed.

(** ** The row-major listing of the upper triangle *)

Lemma elem_of_triu_indices (n i j : nat) :
  (i, j) ∈ triu_indices n ↔ (i ≤ j < n)%nat.
Proof.
  unfold triu_indices. rewrite list_elem_of_bind. split.
  - intros (a & Hin & Ha). apply list_elem_of_fmap in Hin as (b & [= -> ->] & Hb).
    apply elem_of_seq in Ha, Hb. lia.
  - intros Hij. exists i. split; [|apply elem_of_seq; lia].
    apply list_elem_of_fmap. exists j. split; [done|]. apply elem_of_seq. lia.
Qed.

Lemma NoDup_triu_indices (n : nat) : NoDup (triu_indices n).
Proof.
  unfold triu_indices. apply NoDup_bind.
  - intros a b [i j] _ _ Ha Hb.
    apply list_elem_of_fmap in Ha as (? & [= -> ->] & _).
    apply list_elem_of_fmap in Hb as (? & [= -> _] & _). done.
  - intros a _. apply NoDup_fmap_2; [|apply NoDup_seq].
    intros x y [= ->]. done.
  - apply NoDup_seq.
Qed.

Lemma row_start_S (n i : nat) :
  (i < n)%nat → row_start n (S i) = (row_start n i + (n - i))%nat.
Proof.
  intros Hi. unfold row_start.
  replace (S i - 1)%nat with i by lia.
  assert (H1 : (2 * (S i * i / 2) = S i * i)%nat).
  { pose proof (even_consecutive i). replace (S i * i)%nat with (i * (i + 1))%nat by lia. done. }
  assert (H2 : (2 * (i * (i - 1) / 2) = i * (i - 1))%nat).
  { destruct i as [|k]; [done|]. pose proof (even_consecutive k).
    replace (S k * (S k - 1))%nat with (k * (k + 1))%nat by lia. done. }
  nia.
Qed.

Lemma triu_rows_length {B : Type} (f : nat → nat → B) (n i : nat) :
  (i ≤ n)%nat →
  length (seq 0 i ≫= λ a, f a <$> seq a (n - a)) = row_start n i.
Proof.
  induction i as [|i IH]; intros Hi; [done|].
  rewrite seq_S, bind_app, length_app, IH by lia. simpl.
  rewrite app_nil_r, length_fmap, length_seq, row_start_S by lia. done.
Qed.

Lemma triu_indices_length (n : nat) :
  (2 * length (triu_indices n) = n * (n + 1))%nat.
Proof.
  unfold triu_indices. rewrite triu_rows_length by done. unfold row_start.
  destruct n as [|k]; [done|]. pose proof (even_consecutive k).
  replace (S k * (S k - 1))%nat with (k * (k + 1))%nat by lia. nia.
Qed.

Lemma triu_indices_lookup (n i j : nat) :
  (i ≤ j < n)%nat → triu_indices n !! packed_index n i j = Some (i, j).
Proof.
  intros Hij. unfold triu_indices, packed_index.
  assert (Hsplit : seq 0 n = seq 0 i ++ seq i (n - i)).
  { rewrite <- seq_app. f_equal. lia. }
  rewrite Hsplit, bind_app.
  rewrite lookup_app_r; rewrite triu_rows_length by lia; [|lia].
  replace (row_start n i + (j - i) - row_start n i)%nat with (j - i)%nat by lia.
  destruct (n - i)%nat as [|k] eqn:Hk; [lia|]. simpl.
  rewrite lookup_app_l by (rewrite length_fmap, length_seq; lia).
  rewrite list_lookup_fmap, lookup_seq_lt by lia. simpl. f_equal. f_equal. lia.
Qed.

(** ** [symmetrize_triangular] *)

Lemma upper_entry_Some (packed : list Qc) (n i j : nat) :
  (n * (n + 1) = 2 * length packed)%nat → (i ≤ j < n)%nat →
  packed !! packed_index n i j = Some (upper_entry packed n i j).
Proof.
  intros Hlen Hij. unfold upper_entry. rewrite decide_True by lia.
  pose proof (triu_indices_lookup n i j Hij) as Hk.
  apply lookup_lt_Some in Hk. pose proof (triu_indices_length n).
  destruct (lookup_lt_is_Some_2 packed (packed_index n i j)) as [v Hv]; [lia|].
  by rewrite Hv.
Qed.

Lemma mget_filled_upper (packed : list Qc) (n i j : nat) :
  (n * (n + 1) = 2 * length packed)%nat → (i < n)%nat → (j < n)%nat →
  mget (assign_at (zeros n n) (triu_indices n) packed) i j
  = Some (upper_entry packed n i j).
Proof.
  intros Hlen Hi Hj. destruct (decide (i ≤ j)%nat) as [Hij|Hij].
  - apply (mget_assign_at n n _ _ _ (packed_index n i j));
      auto using zeros_shape, NoDup_triu_indices.
    + apply triu_indices_lookup. lia.
    + apply upper_entry_Some; [done|lia].
  - rewrite mget_assign_at_notin.
    + unfold upper_entry. rewrite decide_False by done. by apply mget_zeros.
    + rewrite elem_of_triu_indices. lia.
Qed.

Lemma sqrt_triangular (p len : nat) :
  (p * (p + 1) = 2 * len)%nat → Nat.sqrt (2 * len) = p.
Proof.
  intros H. apply Nat.sqrt_unique. rewrite <- H. simpl. lia.
Qed.

Lemma symmetrize_triangular_Raise (packed : list Qc) :
  let n := Nat.sqrt (2 * length packed) in
  (n * (n + 1) ≠ 2 * length packed)%nat →
  symmetrize_triangular packed
  = Raise (ValueError "The elements cannot form a symmetric matrix!").
Proof.
  intros n Hne. unfold symmetrize_triangular. fold n.
  rewrite decide_True; [done|]. by rewrite triangular_check.
Qed.

Lemma symmetrize_triangular_Ok (packed : list Qc) :
  let n := Nat.sqrt (2 * length packed) in
  let U := upper_entry packed n in
  (n * (n + 1) = 2 * length packed)%nat →
  ∃ M : matrix,
    symmetrize_triangular packed = Ok M ∧ is_shape n n M ∧
    ∀ i j, (i < n)%nat → (j < n)%nat →
      mget M i j
      = Some (U i j + U j i - (if decide (i = j) then U i i else 0)) ∧
      mget M i j = packed !! packed_index n (i `min` j) (i `max` j) ∧
      mget M i j = mget M j i.
Proof.
  intros n U Heq.
  set (sym := assign_at (zeros n n) (triu_indices n) packed).
  assert (Hshape : is_shape n n sym) by apply assign_at_shape, zeros_shape.
  assert (Hsym : ∀ i j, (i < n)%nat → (j < n)%nat →
                        mget sym i j = Some (U i j)).
  { intros. by apply mget_filled_upper. }
  exists (msub (madd sym (transpose n sym)) (diag (diagonal sym))).
  assert (Hentry : ∀ i j, (i < n)%nat → (j < n)%nat →
    mget (msub (madd sym (transpose n sym)) (diag (diagonal sym))) i j
    = Some (U i j + U j i - (if decide (i = j) then U i i else 0))).
  { intros i j Hi Hj. unfold msub, madd.
    apply (mget_zip_rows Qcminus); [apply (mget_zip_rows Qcplus)|].
    - by apply Hsym.
    - rewrite (mget_transpose n n) by done. by apply Hsym.
    - rewrite mget_diag by (by rewrite (diagonal_length n)).
      case_decide; [|done].
      rewrite (diagonal_lookup n) by done. by apply Hsym. }
  assert (Hpacked : ∀ i j, (i < n)%nat → (j < n)%nat →
    Some (U i j + U j i - (if decide (i = j) then U i i else 0))
    = packed !! packed_index n (i `min` j) (i `max` j)).
  { intros i j Hi Hj.
    rewrite (upper_entry_Some packed n) by (done || lia). fold U. f_equal.
    destruct (Nat.lt_trichotomy i j) as [Hlt|[->|Hgt]].
    - rewrite Nat.min_l, Nat.max_r, decide_False by lia.
      unfold U at 2, upper_entry. rewrite decide_False by lia. ring.
    - rewrite Nat.min_id, Nat.max_id, decide_True by done. ring.
    - rewrite Nat.min_r, Nat.max_l, decide_False by lia.
      unfold U at 1, upper_entry. rewrite decide_False by lia. ring. }
  split_and!.
  - unfold symmetrize_triangular. fold n.
    rewrite decide_False by (rewrite triangular_check; auto).
    unfold assign. rewrite decide_True; [done|].
    pose proof (triu_indices_length n). lia.
  - unfold msub, madd. apply zip_rows_shape; [apply zip_rows_shape|].
    + done.
    + by apply transpose_shape.
    + rewrite <- (diagonal_length n sym) at 1 2 by done. apply diag_shape.
  - intros i j Hi Hj. split_and!.
    + by apply Hentry.
    + rewrite Hentry by done. by apply Hpacked.
    + rewrite !Hentry, !Hpacked by done.
      by rewrite Nat.min_comm, Nat.max_comm.
Qed.

(** Claim C1.  [symmetrize_triangular packed] takes [n] to be the integer
    square root of twice the length of [packed].  It raises the shape error
    when [n (n + 1) / 2] differs from the length.  Otherwise it returns an
    [n]-by-[n] matrix [M] whose entries are those of [U + U^T - diag U],
    where [U] carries [packed] on its upper triangle in row-major order and
    zero below: [M[i][j]] is the packed element of rank
    [packed_index n (min i j) (max i j)], and [M] is symmetric.  On
    [[1, 2, 3]] the result is [[[1, 2], [2, 3]]]; on [[1, 2]] it raises. *)
Theorem symmetrize_triangular_spec (packed : list Qc) :
  let n := Nat.sqrt (2 * length packed) in
  let U := upper_entry packed n in
  ((n * (n + 1) / 2 ≠ length packed)%nat →
   symmetrize_triangular packed
   = Raise (ValueError "The elements cannot form a symmetric matrix!")) ∧
  ((n * (n + 1) / 2 = length packed)%nat →
   ∃ M : matrix,
     symmetrize_triangular packed = Ok M ∧ is_shape n n M ∧
     ∀ i j, (i < n)%nat → (j < n)%nat →
       mget M i j
       = Some (U i j + U j i - (if decide (i = j) then U i i else 0)) ∧
       mget M i j = packed !! packed_index n (i `min` j) (i `max` j) ∧
       mget M i j = mget M j i) ∧
  symmetrize_triangular (QL [1; 2; 3]%Z) = Ok [QL [1; 2]%Z; QL [2; 3]%Z] ∧
  symmetrize_triangular (QL [1; 2]%Z)
  = Raise (ValueError "The elements cannot form a symmetric matrix!").
Proof.
  intros n U. split_and!.
  - intros Hne. apply symmetrize_triangular_Raise.
    by rewrite <- triangular_check_div.
  - intros Heq. apply symmetrize_triangular_Ok.
    by apply triangular_check_div.
  - compute_done.
  - compute_done.
Qed.

Lemma symmetrize_triangular_spec_witness :
  (3 * (3 + 1) / 2 = length (QL [1; 2; 3; 4; 5; 6]%Z))%nat ∧
  ∃ M : matrix,
    symmetrize_triangular (QL [1; 2; 3; 4; 5; 6]%Z) = Ok M ∧ is_shape 3 3 M.
Proof.
  split; [reflexivity|].
  destruct (symmetrize_triangular_spec (QL [1; 2; 3; 4; 5; 6]%Z))
    as (_ & H & _).
  destruct H as (M & HM & Hshape & _); [reflexivity|].
  exists M. split; assumption.
Defined.

(** ** Monad laws used below *)

Lemma io_bind_lift_Ok {A B : Type} (a : A) (f : A → io B) :
  (lift (Ok a) ≫= f) = f a.
Proof. unfold lift, mbind, io_bind. by destruct (f a). Qed.

Lemma io_bind_lift_Raise {A B : Type} (e : exn) (f : A → io B) :
  (lift (Raise e) ≫= f) = lift (Raise e).
Proof. done. Qed.

Lemma io_bind_ext {A B : Type} (m : io A) (f g : A → io B) :
  (∀ a, f a = g a) → (m ≫= f) = (m ≫= g).
Proof.
  intros H. destruct m as [out [a|e]]; [|done].
  unfold mbind, io_bind. by rewrite H.
Qed.

Lemma lift_bind {A B : Type} (r : result A) (f : A → result B) :
  (lift r ≫= λ a, lift (f a)) = lift (r ≫= f).
Proof. destruct r as [a|e]; [|done]. by rewrite io_bind_lift_Ok. Qed.

Lemma result_bind_Ok {A B : Type} (r : result A) (f : A → result B) (b : B) :
  r ≫= f = Ok b → ∃ a, r = Ok a ∧ f a = Ok b.
Proof. destruct r as [a|e]; [eauto|done]. Qed.

Lemma result_mapM_length {A B : Type} (f : A → result B) (l : list A)
    (ys : list B) :
  result_mapM f l = Ok ys → length ys = length l.
Proof.
  revert ys. induction l as [|x l IH]; intros ys H; simpl in H.
  - by injection H as <-.
  - apply result_bind_Ok in H as (y & _ & H).
    apply result_bind_Ok in H as (ys' & Hys & H).
    injection H as <-. simpl. f_equal. by apply IH.
Qed.

(** ** More array facts: identity and scaling *)

Lemma identity_shape (n : nat) : is_shape n n (identity n).
Proof.
  unfold identity. split; [by rewrite length_fmap, length_seq|].
  apply Forall_fmap, Forall_forall. intros i _. simpl.
  by rewrite length_insert, length_replicate.
Qed.

Lemma mget_identity (n i j : nat) :
  (i < n)%nat → (j < n)%nat →
  mget (identity n) i j = Some (if decide (i = j) then 1 else 0).
Proof.
  intros Hi Hj. unfold mget, identity.
  rewrite list_lookup_fmap, lookup_seq_lt by done. simpl.
  case_decide as Hij.
  - subst j. apply list_lookup_insert_eq. by rewrite length_replicate.
  - rewrite list_lookup_insert_ne by done. by apply lookup_replicate_2.
Qed.

Lemma mscale_shape (c : Qc) (n m : nat) (M : matrix) :
  is_shape n m M → is_shape n m (mscale c M).
Proof.
  intros [Hn Hm]. unfold mscale. split; [by rewrite length_fmap|].
  apply Forall_fmap. eapply Forall_impl; [exact Hm|].
  intros row Hrow. simpl. by rewrite length_fmap.
Qed.

Lemma mget_mscale (c : Qc) (M : matrix) (i j : nat) (a : Qc) :
  mget M i j = Some a → mget (mscale c M) i j = Some (c * a).
Proof.
  unfold mget, mscale. intros H. rewrite list_lookup_fmap.
  destruct (M !! i) as [row|]; [|done]. simpl in *.
  by rewrite list_lookup_fmap, H.
Qed.

Lemma matrix_ext (n m : nat) (A B : matrix) :
  is_shape n m A → is_shape n m B →
  (∀ i j, (i < n)%nat → (j < m)%nat → mget A i j = mget B i j) →
  A = B.
Proof.
  intros [HAn HAm] [HBn HBm] Hent.
  apply list_eq_same_length with n; [done|done|].
  intros i ra rb Hi Ha Hb.
  rewrite Forall_lookup in HAm, HBm.
  apply list_eq_same_length with m; [eauto|eauto|].
  intros j a b Hj Haj Hbj.
  specialize (Hent i j Hi Hj). unfold mget in Hent.
  rewrite Ha, Hb in Hent. simpl in Hent. congruence.
Qed.

Lemma Qc_zero_div (q : Qc) : 0 / q = 0.
Proof. unfold Qcdiv. apply Qcmult_0_l. Qed.

(** ** [construct_matrix_from_elements] *)

Lemma construct_matrix_shape (stats : series) (xs : list string)
    (fi : bool) (XtX : matrix) (Xty : vector) :
  construct_matrix_from_elements (Series stats) xs fi = Ok (XtX, Xty) →
  length Xty = ((if fi then 1 else 0) + length xs)%nat ∧
  is_shape (length Xty) (length Xty) XtX.
Proof.
  unfold construct_matrix_from_elements. simpl. intros H.
  apply result_bind_Ok in H as (elems & Helems & H).
  apply result_bind_Ok in H as (xty & Hxty & H).
  apply result_bind_Ok in H as (M & HM & H).
  injection H as <- <-.
  apply result_mapM_length in Helems, Hxty.
  rewrite length_app, length_fmap, length_seq in Hxty.
  rewrite length_app in Helems.
  pose proof (triu_rows_length xx_col (length xs) (length xs)
                (Nat.le_refl _)) as Hxx.
  rewrite Hxx in Helems.
  assert (Hrow : (2 * row_start (length xs) (length xs)
                  = length xs * (length xs + 1))%nat).
  { unfold row_start. destruct (length xs) as [|k]; [done|].
    pose proof (even_consecutive k).
    replace (S k * (S k - 1))%nat with (k * (k + 1))%nat by lia. nia. }
  set (p := length xty) in *.
  set (packed := if fi then 1 :: elems else elems) in *.
  assert (Hp : (p * (p + 1) = 2 * length packed)%nat).
  { unfold packed. destruct fi; simpl in *;
      rewrite ?length_fmap, ?length_seq in Helems; nia. }
  split; [destruct fi; simpl in *; lia|].
  destruct (symmetrize_triangular_Ok packed) as (M' & HM' & Hshape & _).
  { by rewrite (sqrt_triangular p). }
  rewrite (sqrt_triangular p) in Hshape by done. congruence.
Qed.

(** ** The closed-form solve without normalization *)

Section ClosedFormProperties.
Variable solve : matrix → vector → result vector.
Variable cond : matrix → result cond_value.

Lemma ridge_penalty_entries (fi : bool) (c : Qc) (p : nat) (XtX : matrix)
    (i j : nat) :
  is_shape p p XtX → (i < p)%nat → (j < p)%nat →
  ∃ a, mget XtX i j = Some a ∧
       mget (madd XtX (mscale c (if fi then mset (identity p) 0 0 0
                                 else identity p))) i j
       = Some (a + c * (if decide (i = j ∧ ¬ (fi = true ∧ i = 0%nat))
                        then 1 else 0)).
Proof.
  intros Hshape Hi Hj.
  destruct (mget_lt p p XtX i j Hshape Hi Hj) as [a Ha].
  exists a. split; [done|]. unfold madd.
  apply (mget_zip_rows Qcplus); [done|]. apply mget_mscale.
  destruct fi.
  - destruct (decide ((0, 0) = (i, j))%nat) as [[= <- <-]|Hne].
    + rewrite (mget_mset_eq p p) by auto using identity_shape.
      by rewrite decide_False by tauto.
    + rewrite mget_mset_ne, mget_identity by done.
      destruct (decide (i = j)) as [->|Hij].
      * rewrite decide_True; [done|]. split; [done|].
        intros [_ ->]. done.
      * by rewrite decide_False by tauto.
  - rewrite mget_identity by done.
    destruct (decide (i = j)) as [->|Hij].
    + rewrite decide_True; [done|]. split; [done|]. intros [? _]. done.
    + by rewrite decide_False by tauto.
Qed.

Lemma ridge_penalty_shape (fi : bool) (c : Qc) (p : nat) (XtX : matrix) :
  is_shape p p XtX →
  is_shape p p (madd XtX (mscale c (if fi then mset (identity p) 0 0 0
                                    else identity p))).
Proof.
  intros Hshape. unfold madd. apply zip_rows_shape; [done|].
  apply mscale_shape. destruct fi; auto using mset_shape, identity_shape.
Qed.

Lemma compute_ridge_coefs_unfold (f : frame) (stats : series)
    (xs : list string) (m : Model) (XtX : matrix) (Xty : vector) :
  f = Series stats ∨ f = DataFrame [stats] →
  fit_intercept m && normalize m = false →
  construct_matrix_from_elements (Series stats) xs (fit_intercept m)
  = Ok (XtX, Xty) →
  compute_ridge_coefs solve cond f xs m
  = (A ← lift (match ridge_alpha m with
               | Some alpha =>
                   n_obs ← getitem stats "n_obs";
                   Ok (madd XtX (mscale (alpha / n_obs)
                         (if fit_intercept m
                          then mset (identity (length Xty)) 0 0 0
                          else identity (length Xty))))
               | None => Ok XtX
               end);
     solve_system solve cond A Xty
       (λ coef, make_coef_row coef (coef_names (fit_intercept m) xs))).
Proof.
  intros Hf Hnorm Hcons. unfold compute_ridge_coefs.
  assert (Hrow : match f with
                 | DataFrame rows => iloc0 rows
                 | Series row => Ok row
                 end = Ok stats) by (by destruct Hf as [-> | ->]).
  rewrite Hrow, io_bind_lift_Ok, Hnorm, Hcons, io_bind_lift_Ok.
  done.
Qed.

(** Claim C2.  Without normalization, for a Ridge model with penalty [alpha]
    and a single statistics row carrying a non-zero [n_obs], the system
    handed to the solver is [(XtX + (alpha / n_obs) I') beta = Xty]: [XtX]
    and [Xty] are the moments assembled by
    [construct_matrix_from_elements], and [I'] is the identity whose
    intercept entry (position [(0, 0)], when [fit_intercept] holds) is
    zero, so the intercept is not penalized. *)
Theorem compute_ridge_coefs_system (f : frame) (stats : series)
    (xs : list string) (m : Model) (alpha n_obs : Qc)
    (XtX : matrix) (Xty : vector) :
  f = Series stats ∨ f = DataFrame [stats] →
  fit_intercept m && normalize m = false →
  cls m = Ridge alpha →
  stats !! "n_obs" = Some n_obs → n_obs ≠ 0 →
  construct_matrix_from_elements (Series stats) xs (fit_intercept m)
  = Ok (XtX, Xty) →
  ∃ A : matrix,
    is_shape (length Xty) (length Xty) A ∧
    (∀ i j, (i < length Xty)%nat → (j < length Xty)%nat →
       ∃ a, mget XtX i j = Some a ∧
            mget A i j
            = Some (a + alpha / n_obs *
                        (if decide (i = j ∧
                                    ¬ (fit_intercept m = true ∧ i = 0%nat))
                         then 1 else 0))) ∧
    compute_ridge_coefs solve cond f xs m
    = solve_system solve cond A Xty
        (λ coef, make_coef_row coef (coef_names (fit_intercept m) xs)).
Proof.
  intros Hf Hnorm Hcls Hn Hn0 Hcons.
  destruct (construct_matrix_shape _ _ _ _ _ Hcons) as [_ Hshape].
  eexists. split_and!.
  - by apply (ridge_penalty_shape (fit_intercept m) (alpha / n_obs)).
  - intros i j Hi Hj.
    by apply (ridge_penalty_entries (fit_intercept m) (alpha / n_obs)).
  - rewrite (compute_ridge_coefs_unfold f stats xs m XtX Xty) by done.
    unfold ridge_alpha, getitem. rewrite Hcls, Hn.
    cbn [mbind result_bind]. by rewrite io_bind_lift_Ok.
Qed.

(** ** The closed-form solve with normalization *)

Lemma result_mapM_Ok {A B : Type} (f : A → result B) (g : A → B)
    (l : list A) :
  (∀ x, x ∈ l → f x = Ok (g x)) → result_mapM f l = Ok (g <$> l).
Proof.
  induction l as [|x l IH]; intros H; [done|]. simpl.
  rewrite H by left. simpl. rewrite IH; [done|].
  intros y Hy. apply H. by right.
Qed.

Lemma concat_rows_triu {B : Type} (h : nat → B) (c : nat → nat → Qc)
    (row : nat → list nat) (l : list nat) :
  concat (snd <$> ((λ i, (h i, c i <$> row i)) <$> l))
  = (λ p, c p.1 p.2) <$> (l ≫= λ i, pair i <$> row i).
Proof.
  induction l as [|i l IH]; [done|]. simpl.
  rewrite fmap_app. f_equal; [|exact IH].
  by rewrite <- list_fmap_compose.
Qed.

Section Normalized.
Variables (stats : series) (xs : list string) (m : Model).
Variables (mu r : nat → Qc) (s : nat → nat → Qc) (ybar : Qc).
Let n := length xs.
Hypothesis Hx : ∀ i, (i < n)%nat → stats !! x_col i = Some (mu i).
Hypothesis Hxx :
  ∀ i j, (i ≤ j < n)%nat → stats !! xx_col i j = Some (s i j).
Hypothesis Hxy : ∀ i, (i < n)%nat → stats !! xy_col i = Some (r i).
Hypothesis Hy : stats !! "y" = Some ybar.

(** The centered cross-moments. *)
Let c (i j : nat) : Qc := s i j - mu i * mu j.
Let b : vector := (λ i, r i - mu i * ybar) <$> seq 0 n.
Let means : vector := mu <$> seq 0 n.
Let packed : vector := (λ p, c p.1 p.2) <$> triu_indices n.

Lemma normalized_rows :
  result_mapM (λ i,
      xiy ← getitem stats (xy_col i); xi ← getitem stats (x_col i);
      sy ← getitem stats "y";
      row ← result_mapM (λ j,
          xixj ← getitem stats (xx_col i j); xi ← getitem stats (x_col i);
          xj ← getitem stats (x_col j);
          Ok (xixj - xi * xj)) (seq i (n - i));
      Ok (xiy - xi * sy, row)) (seq 0 n)
  = Ok ((λ i, (r i - mu i * ybar, c i <$> seq i (n - i))) <$> seq 0 n).
Proof.
  apply result_mapM_Ok. intros i Hi. apply elem_of_seq in Hi.
  unfold getitem. rewrite Hxy, Hx, Hy by lia. cbn [mbind result_bind].
  rewrite (result_mapM_Ok _ (c i)); [done|].
  intros j Hj. apply elem_of_seq in Hj.
  rewrite Hxx, !Hx by lia. done.
Qed.

Lemma packed_length : (n * (n + 1) = 2 * length packed)%nat.
Proof.
  unfold packed. rewrite length_fmap.
  by rewrite triu_indices_length.
Qed.

Lemma normalized_means :
  result_mapM (λ i, getitem stats (x_col i)) (seq 0 n) = Ok means.
Proof.
  apply result_mapM_Ok. intros i Hi. apply elem_of_seq in Hi.
  unfold getitem. by rewrite Hx by lia.
Qed.

Lemma normalized_unfold :
  ∃ M : matrix,
    symmetrize_triangular packed = Ok M ∧ is_shape n n M ∧
    (∀ i j, (i < n)%nat → (j < n)%nat →
       mget M i j = Some (c (i `min` j) (i `max` j))) ∧
    compute_coef_for_normalize_ridge solve cond stats xs m
    = solve_system solve cond
        (match ridge_alpha m with
         | Some alpha => madd M (mscale alpha (diag (diagonal M)))
         | None => M
         end) b
        (λ coef,
           d ← dot coef means;
           make_coef_row ((ybar - d) :: coef)
             ("intercept" :: (clean_name <$> xs))).
Proof.
  pose proof packed_length as Hlen.
  destruct (symmetrize_triangular_Ok packed) as (M & HM & Hshape & Hent).
  { by rewrite (sqrt_triangular n). }
  rewrite (sqrt_triangular n) in Hshape, Hent by done.
  exists M. split_and!; [done|done| |].
  - intros i j Hi Hj. destruct (Hent i j Hi Hj) as (_ & -> & _).
    unfold packed. rewrite list_lookup_fmap, triu_indices_lookup by lia.
    done.
  - unfold compute_coef_for_normalize_ridge. fold n.
    rewrite normalized_rows, io_bind_lift_Ok.
    rewrite concat_rows_triu. fold (triu_indices n). fold packed.
    rewrite HM, io_bind_lift_Ok.
    unfold solve_system. apply io_bind_ext. intros _.
    rewrite <- list_fmap_compose. fold b.
    apply io_bind_ext. intros coef.
    unfold getattr. rewrite Hy, io_bind_lift_Ok.
    rewrite normalized_means, io_bind_lift_Ok.
    apply lift_bind.
Qed.

(** Claim C3.  With [fit_intercept] and [normalize], on a statistics row
    holding the means [mu i] of the features, [ybar] of the response, and the
    raw moments [s i j] and [r i]: the right-hand side is
    [r i - mu i * ybar]; the matrix handed to the solver is symmetric with
    entries [s i j - mu i * mu j], and for a Ridge model the penalty
    [alpha * (s i i - mu i * mu i)] is added on the diagonal only, with no
    division by [n_obs]; the returned row is the intercept
    [ybar - coef . mu] followed by the solved coefficients. *)
Theorem compute_coef_for_normalize_ridge_system (alpha : Qc) :
  cls m = Ridge alpha →
  ∃ A : matrix,
    is_shape n n A ∧
    (∀ i j, (i < n)%nat → (j < n)%nat →
       mget A i j
       = Some (c (i `min` j) (i `max` j)
               + alpha * (if decide (i = j) then c i i else 0))) ∧
    compute_coef_for_normalize_ridge solve cond stats xs m
    = solve_system solve cond A b
        (λ coef,
           d ← dot coef means;
           make_coef_row ((ybar - d) :: coef)
             ("intercept" :: (clean_name <$> xs))) ∧
    ∀ coef : vector, length coef = n →
      (d ← dot coef means;
       make_coef_row ((ybar - d) :: coef) ("intercept" :: (clean_name <$> xs)))
      = Ok {| columns := "intercept" :: (clean_name <$> xs);
              values := (ybar - foldr Qcplus 0 (zip_with Qcmult coef means))
                        :: coef |}.
Proof.
  intros Hcls.
  destruct normalized_unfold as (M & _ & Hshape & Hent & Hrun).
  unfold ridge_alpha in Hrun. rewrite Hcls in Hrun.
  exists (madd M (mscale alpha (diag (diagonal M)))).
  assert (Hdiag : is_shape n n (diag (diagonal M))).
  { rewrite <- (diagonal_length n M) at 1 2 by done. apply diag_shape. }
  split_and!.
  - unfold madd. apply zip_rows_shape; [done|]. by apply mscale_shape.
  - intros i j Hi Hj. unfold madd.
    apply (mget_zip_rows Qcplus); [by apply Hent|]. apply mget_mscale.
    rewrite mget_diag by (by rewrite (diagonal_length n)).
    case_decide as Hij; [|done]. subst j.
    rewrite (diagonal_lookup n), Hent by done.
    by rewrite Nat.min_id, Nat.max_id.
  - exact Hrun.
  - intros coef Hcoef. unfold dot, means, make_coef_row.
    rewrite decide_True by (by rewrite length_fmap, length_seq).
    cbn [mbind result_bind].
    rewrite decide_True by (simpl; rewrite length_fmap; lia).
    done.
Qed.

End Normalized.

(** ** The condition check *)

Lemma solve_system_finite (A : matrix) (b : vector)
    (finish : vector → result coef_row) (c : Qc) :
  cond A = Ok (CondFinite c) → #20 < c →
  solve_system solve cond A b finish
  = ([CondWarning (Z.quot (Qnum c) (Z.pos (Qden c)))],
     solve A b ≫= finish).
Proof.
  intros Hc Hlt. unfold solve_system, warn_if_ill_conditioned.
  rewrite Hc, io_bind_lift_Ok. cbn [cond_gt_20 format_i]. unfold Qc_ltb.
  rewrite bool_decide_eq_true_2 by done.
  rewrite io_bind_lift_Ok, lift_bind. done.
Qed.

Lemma solve_system_well_conditioned (A : matrix) (b : vector)
    (finish : vector → result coef_row) (c : Qc) :
  cond A = Ok (CondFinite c) → c <= #20 →
  solve_system solve cond A b finish = ([], solve A b ≫= finish).
Proof.
  intros Hc Hle. unfold solve_system, warn_if_ill_conditioned.
  rewrite Hc, io_bind_lift_Ok. cbn [cond_gt_20]. unfold Qc_ltb.
  rewrite bool_decide_eq_false_2 by (by apply Qcle_not_lt).
  rewrite lift_bind. done.
Qed.

Lemma solve_system_infinite (A : matrix) (b : vector)
    (finish : vector → result coef_row) :
  cond A = Ok CondInf →
  solve_system solve cond A b finish = ([], Raise OverflowError).
Proof.
  intros Hc. unfold solve_system, warn_if_ill_conditioned.
  by rewrite Hc, io_bind_lift_Ok.
Qed.

(** Claim C7, at the input where it fails.  For the statistics of a feature
    that is identically zero, [XtX] is singular; when [np.linalg.cond]
    reports an infinite condition number for it, formatting the warning
    raises [OverflowError]: nothing is printed and the solver is not
    reached, whatever it would have returned. *)
Theorem compute_ridge_coefs_infinite_cond :
  cond [[1; 0]; [0; 0]] = Ok CondInf →
  compute_ridge_coefs solve cond (Series zero_feature_stats) ["a"] ols_model
  = ([], Raise OverflowError).
Proof.
  intros Hcond.
  rewrite (compute_ridge_coefs_unfold _ zero_feature_stats _ _
             [[1; 0]; [0; 0]] [1; 0]); [|by left|done|compute_done].
  assert (Hpen : match ridge_alpha ols_model with
                 | Some alpha =>
                     n_obs ← getitem zero_feature_stats "n_obs";
                     Ok (madd [[1; 0]; [0; 0]]
                           (mscale (alpha / n_obs)
                              (if fit_intercept ols_model
                               then mset (identity (length [1; 0])) 0 0 0
                               else identity (length [1; 0]))))
                 | None => Ok [[1; 0]; [0; 0]]
                 end = Ok [[1; 0]; [0; 0]]) by compute_done.
  rewrite Hpen, io_bind_lift_Ok. by apply solve_system_infinite.
Qed.

(** ** A zero penalty *)

Lemma zero_penalty_plain (fi : bool) (q : Qc) (p : nat) (XtX : matrix) :
  is_shape p p XtX →
  madd XtX (mscale (0 / q) (if fi then mset (identity p) 0 0 0
                            else identity p)) = XtX.
Proof.
  intros Hshape. apply (matrix_ext p p); [|done|].
  - by apply ridge_penalty_shape.
  - intros i j Hi Hj.
    destruct (ridge_penalty_entries fi (0 / q) p XtX i j Hshape Hi Hj)
      as (a & Ha & ->).
    rewrite Ha, Qc_zero_div. f_equal. ring.
Qed.

Lemma zero_penalty_normalized (p : nat) (M : matrix) :
  is_shape p p M → madd M (mscale 0 (diag (diagonal M))) = M.
Proof.
  intros Hshape.
  assert (Hdiag : is_shape p p (diag (diagonal M))).
  { rewrite <- (diagonal_length p M) at 1 2 by done. apply diag_shape. }
  apply (matrix_ext p p); [|done|].
  - unfold madd. apply zip_rows_shape; [done|]. by apply mscale_shape.
  - intros i j Hi Hj.
    destruct (mget_lt p p M i j Hshape Hi Hj) as [a Ha].
    destruct (mget_lt p p _ i j Hdiag Hi Hj) as [d Hd].
    unfold madd. rewrite (mget_zip_rows Qcplus _ _ i j a (0 * d));
      [|done|by apply mget_mscale].
    rewrite Ha. f_equal. ring.
Qed.

Lemma symmetrize_triangular_shape (packed : list Qc) (M : matrix) :
  symmetrize_triangular packed = Ok M →
  is_shape (Nat.sqrt (2 * length packed)) (Nat.sqrt (2 * length packed)) M.
Proof.
  intros HM.
  destruct (decide (Nat.sqrt (2 * length packed)
                    * (Nat.sqrt (2 * length packed) + 1)
                    = 2 * length packed)%nat) as [Heq|Hne].
  - destruct (symmetrize_triangular_Ok packed Heq) as (M' & HM' & Hs & _).
    congruence.
  - rewrite symmetrize_triangular_Raise in HM by done. done.
Qed.

(** The solver gives a Ridge model with [alpha = 0] exactly what it gives a
    model that is not Ridge: the unpenalized normal equations. *)
Lemma compute_ridge_coefs_alpha_0 (f : frame) (stats : series)
    (xs : list string) (m : Model) (n_obs : Qc) :
  f = Series stats ∨ f = DataFrame [stats] →
  cls m = Ridge 0 →
  stats !! "n_obs" = Some n_obs →
  compute_ridge_coefs solve cond f xs m
  = compute_ridge_coefs solve cond f xs (with_cls m LinearRegression).
Proof.
  intros Hf Hcls Hn. unfold compute_ridge_coefs.
  assert (Hrow : match f with
                 | DataFrame rows => iloc0 rows
                 | Series row => Ok row
                 end = Ok stats) by (by destruct Hf as [-> | ->]).
  rewrite Hrow, !io_bind_lift_Ok.
  change (fit_intercept (with_cls m LinearRegression))
    with (fit_intercept m).
  change (normalize (with_cls m LinearRegression)) with (normalize m).
  unfold ridge_alpha. rewrite Hcls. cbn [with_cls cls].
  destruct (fit_intercept m && normalize m).
  - unfold compute_coef_for_normalize_ridge, ridge_alpha.
    rewrite Hcls. cbn [with_cls cls].
    apply io_bind_ext. intros rows.
    destruct (symmetrize_triangular (concat rows.*2)) as [M|e] eqn:HM;
      [|done].
    rewrite !io_bind_lift_Ok.
    by rewrite (zero_penalty_normalized _ M)
      by (by apply symmetrize_triangular_shape in HM).
  - destruct (construct_matrix_from_elements (Series stats) xs
                (fit_intercept m)) as [[XtX Xty]|e] eqn:Hcons; [|done].
    rewrite !io_bind_lift_Ok.
    destruct (construct_matrix_shape _ _ _ _ _ Hcons) as [_ Hshape].
    unfold getitem. rewrite Hn. cbn [mbind result_bind].
    by rewrite zero_penalty_plain, io_bind_lift_Ok.
Qed.

End ClosedFormProperties.

(** ** One pass of Newton's method *)

Lemma result_foldl_app {A B : Type} (f : A → B → result A) (a : A)
    (l1 l2 : list B) :
  result_foldl f a (l1 ++ l2)
  = (a' ← result_foldl f a l1; result_foldl f a' l2).
Proof.
  revert a. induction l1 as [|x l1 IH]; intros a; [done|]. simpl.
  destruct (f a x) as [a'|e]; [|done]. simpl. apply IH.
Qed.

Lemma result_foldl_singleton {A B : Type} (f : A → B → result A) (a : A)
    (x : B) :
  result_foldl f a [x] = f a x.
Proof. simpl. by destruct (f a x). Qed.

Section NewtonProperties.
Variable solve : matrix → vector → result vector.
Variable hess : matrix → list bool → result (list (option matrix)).
Variable grads : matrix → list bool → result (list (option vector)).
Variable tol : Qc.

Lemma index_Ok {A : Type} (l : list A) (i : nat) (a : A) :
  index l i = Ok a ↔ l !! i = Some a.
Proof. unfold index. destruct (l !! i); naive_solver. Qed.

(** What the loop body does to the slice it visits. *)
Lemma newton_slice_at (h : list (option matrix)) (j : list (option vector))
    (coef coef' : matrix) (conv conv' : list bool) (i : nat) :
  newton_slice solve tol h j (coef, conv) i = Ok (coef', conv') →
  (conv !! i = Some true ∧ coef' = coef ∧ conv' = conv) ∨
  (conv !! i = Some false ∧
   ∃ hi ji delta mx ci,
     h !! i = Some hi ∧ j !! i = Some ji ∧
     solve_slice solve hi ji = Ok delta ∧ max_abs delta = Ok mx ∧
     coef !! i = Some ci ∧ length ci = length delta ∧
     coef' = <[i := zip_with Qcminus ci delta]> coef ∧
     conv' = if Qc_ltb mx tol then <[i := true]> conv else conv).
Proof.
  unfold newton_slice. intros H.
  apply result_bind_Ok in H as (done & Hdone & H).
  apply index_Ok in Hdone. destruct done.
  - left. by injection H as <- <-.
  - right. split; [done|].
    apply result_bind_Ok in H as (hi & Hhi & H).
    apply result_bind_Ok in H as (ji & Hji & H).
    apply result_bind_Ok in H as (delta & Hdelta & H).
    apply result_bind_Ok in H as (mx & Hmx & H).
    apply result_bind_Ok in H as (ci & Hci & H).
    apply result_bind_Ok in H as (ci' & Hci' & H).
    apply index_Ok in Hhi, Hji, Hci. unfold vsub in Hci'.
    case_decide as Hlen; [|done]. injection Hci' as <-.
    injection H as <- <-.
    exists hi, ji, delta, mx, ci. by split_and!.
Qed.

Lemma newton_slice_other (h : list (option matrix))
    (j : list (option vector)) (st st' : matrix * list bool) (k i : nat) :
  newton_slice solve tol h j st k = Ok st' → k ≠ i →
  st'.1 !! i = st.1 !! i ∧ st'.2 !! i = st.2 !! i.
Proof.
  destruct st as [coef conv], st' as [coef' conv']. intros H Hne.
  apply newton_slice_at in H
    as [(_ & -> & ->)|(_ & hi & ji & delta & mx & ci & H)]; [done|].
  destruct H as (_ & _ & _ & _ & _ & _ & -> & ->). simpl. split.
  - by apply list_lookup_insert_ne.
  - destruct (Qc_ltb mx tol); [|done]. by apply list_lookup_insert_ne.
Qed.

Lemma newton_fold_other (h : list (option matrix))
    (j : list (option vector)) (l : list nat) (st st' : matrix * list bool)
    (i : nat) :
  result_foldl (newton_slice solve tol h j) st l = Ok st' → i ∉ l →
  st'.1 !! i = st.1 !! i ∧ st'.2 !! i = st.2 !! i.
Proof.
  revert st. induction l as [|k l IH]; intros st H Hnot; simpl in H.
  - by injection H as <-.
  - apply not_elem_of_cons in Hnot as [Hne Hnot].
    apply result_bind_Ok in H as (st1 & Hst1 & H).
    destruct (IH _ H Hnot) as [-> ->].
    by apply (newton_slice_other h j st st1 k i).
Qed.

Lemma newton_iter_slice (coef coef' : matrix) (conv conv' : list bool)
    (i : nat) :
  newton_iter solve hess grads tol (coef, conv) = Ok (coef', conv') →
  (i < length coef)%nat →
  slice_pass solve hess grads tol coef coef' conv conv' i.
Proof.
  unfold newton_iter, slice_pass. intros H Hi.
  apply result_bind_Ok in H as (h & Hh & H).
  apply result_bind_Ok in H as (j & Hj & H).
  exists h, j. split_and!; [done|done|].
  assert (Hsplit : seq 0 (length coef)
                   = seq 0 i ++ [i] ++ seq (S i) (length coef - S i)).
  { replace (length coef) with (i + (1 + (length coef - S i)))%nat at 1
      by lia.
    rewrite !seq_app. simpl. do 3 f_equal. lia. }
  rewrite Hsplit, !result_foldl_app in H.
  apply result_bind_Ok in H as ([coef1 conv1] & H1 & H).
  apply result_bind_Ok in H as ([coef2 conv2] & H2 & H3).
  change (result_foldl (newton_slice solve tol h j) (coef2, conv2)
            (seq (S i) (length coef - S i)) = Ok (coef', conv')) in H3.
  apply (newton_fold_other h j _ _ _ i) in H1 as [Hc1 Hv1];
    [|rewrite elem_of_seq; lia].
  apply (newton_fold_other h j _ _ _ i) in H3 as [Hc3 Hv3];
    [|rewrite elem_of_seq; lia].
  simpl in *. rewrite Hc3, Hv3, <- Hc1, <- Hv1.
  apply newton_slice_at in H2
    as [(Hconv & -> & ->)|(Hconv & hi & ji & delta & mx & ci & H2)].
  - left. by split_and!.
  - right. split; [done|].
    destruct H2 as (Hhi & Hji & Hsolve & Hmx & Hci & Hlen & -> & ->).
    exists hi, ji, delta, mx, ci. split_and!; try done.
    + apply list_lookup_insert_eq. by apply lookup_lt_Some in Hci.
    + destruct (Qc_ltb mx tol); [|done].
      apply list_lookup_insert_eq. by apply lookup_lt_Some in Hconv.
Qed.

Lemma newton_iter_converged (coef coef' : matrix) (conv conv' : list bool)
    (i : nat) :
  newton_iter solve hess grads tol (coef, conv) = Ok (coef', conv') →
  conv !! i = Some true →
  coef' !! i = coef !! i ∧ conv' !! i = Some true.
Proof.
  intros H Hconv. destruct (decide (i < length coef)%nat) as [Hi|Hi].
  - destruct (newton_iter_slice _ _ _ _ i H Hi)
      as (h & j & _ & _ & [(_ & ? & ?)|(? & _)]); [done|congruence].
  - unfold newton_iter in H.
    apply result_bind_Ok in H as (h & _ & H).
    apply result_bind_Ok in H as (j & _ & H).
    apply (newton_fold_other h j _ _ _ i) in H as [H1 H2];
      [|rewrite elem_of_seq; lia].
    simpl in H1, H2. by rewrite H1, H2.
Qed.

Lemma newton_iterate_converged (t : nat) (coef coef' : matrix)
    (conv conv' : list bool) (i : nat) :
  newton_iterate solve hess grads tol t (coef, conv) = Ok (coef', conv') →
  conv !! i = Some true →
  coef' !! i = coef !! i ∧ conv' !! i = Some true.
Proof.
  revert coef' conv'. induction t as [|t IH]; intros coef' conv' H Hconv.
  - by injection H as <- <-.
  - simpl in H. apply result_bind_Ok in H as ([coef1 conv1] & H1 & H).
    destruct (IH _ _ H1 Hconv) as [<- Hconv1].
    by apply (newton_iter_converged coef1 coef' conv1 conv').
Qed.

(** ** The loop of Newton's method *)

Lemma newton_iterate_shift (t : nat) (st : matrix * list bool) :
  newton_iterate solve hess grads tol (S t) st
  = (st' ← newton_iter solve hess grads tol st;
     newton_iterate solve hess grads tol t st').
Proof.
  induction t as [|t IH].
  - simpl. by destruct (newton_iter solve hess grads tol st).
  - change (newton_iterate solve hess grads tol (S (S t)) st)
      with (st' ← newton_iterate solve hess grads tol (S t) st;
            newton_iter solve hess grads tol st').
    rewrite IH. by destruct (newton_iter solve hess grads tol st).
Qed.

Lemma newton_loop_spec (N : nat) (conds : list slice_key)
    (st : matrix * list bool) :
  ∃ t, (t ≤ N)%nat ∧
    (∀ t', (0 < t' < t)%nat →
       ∃ st', newton_iterate solve hess grads tol t' st = Ok st' ∧
              all_converged st'.2 = false) ∧
    match newton_iterate solve hess grads tol t st with
    | Raise e =>
        (0 < t)%nat ∧
        newton_loop solve hess grads tol N conds st = ([], Raise e)
    | Ok st' =>
        ((0 < t)%nat ∧ all_converged st'.2 = true ∧
         newton_loop solve hess grads tol N conds st = ([], Ok st'.1)) ∨
        (t = N ∧ (t = 0%nat ∨ all_converged st'.2 = false) ∧
         newton_loop solve hess grads tol N conds st
         = warn_not_converged conds st')
    end.
Proof.
  revert st. induction N as [|N IH]; intros st.
  - exists 0%nat. split_and!; [done|intros; lia|]. simpl. right. by split_and!; [|left|].
  - cbn [newton_loop].
    destruct (newton_iter solve hess grads tol st) as [st1|e] eqn:Hst1.
    + rewrite io_bind_lift_Ok.
      destruct (all_converged st1.2) eqn:Hall.
      * exists 1%nat. split_and!; [lia|intros; lia|].
        rewrite newton_iterate_shift, Hst1. simpl. left. by split_and!; [lia| |].
      * destruct (IH st1) as (t & Ht & Hmid & Hend).
        exists (S t). split_and!; [lia| |].
        -- intros t' Ht'. destruct t' as [|t']; [lia|].
           rewrite newton_iterate_shift, Hst1. simpl.
           destruct t' as [|t']; [by exists st1|].
           apply Hmid. lia.
        -- rewrite newton_iterate_shift, Hst1.
           cbn [mbind result_bind].
           destruct (newton_iterate solve hess grads tol t st1)
             as [st'|e] eqn:Hst'.
           ++ destruct Hend as [(? & ? & ?)|(-> & Hnot & ?)].
              ** left. by split_and!; [lia| |].
              ** right. split_and!; [done| |done]. right.
                 destruct Hnot as [->|?]; [|done].
                 simpl in Hst'. by injection Hst' as <-.
           ++ destruct Hend as [_ ?]. split; [lia|done].
    + exists 1%nat. split_and!; [lia|intros; lia|].
      rewrite newton_iterate_shift, Hst1. simpl. split; [lia|done].
Qed.

Lemma warn_not_converged_cases (conds : list slice_key) (coef : matrix)
    (conv : list bool) :
  (length coef = 1%nat ∧
   warn_not_converged conds (coef, conv) = ([NotConverged], Ok coef)) ∨
  (length coef ≠ 1%nat ∧ length conds = length conv ∧
   warn_not_converged conds (coef, conv)
   = ([NotConvergedSlices
         (fst <$> filter (λ p, p.2 = false) (zip conds conv))], Ok coef)) ∨
  (length coef ≠ 1%nat ∧ length conds ≠ length conv ∧
   warn_not_converged conds (coef, conv) = ([], Raise IndexError)).
Proof.
  unfold warn_not_converged, unconverged_slices.
  destruct (decide (length coef = 1%nat)); [by left|]. right.
  destruct (decide (length conds = length conv)); [left|right];
    by split_and!.
Qed.

(** Claim C8, as the code has it.  [newtons_method] runs the loop body some
    [t <= max_iter] times, never stopping before the flags are all set.  An
    exception of a callback or of the solver propagates.  Otherwise it
    returns the iterate of pass [t], silently as soon as a pass ends with
    every slice converged, and after [max_iter] passes with a warning: the
    generic one when there is a single slice, else the one naming the
    slices still unconverged (the keys in [conds] must then match the
    slices).  Each pass treats each slice as [slice_pass] says. *)
Theorem newtons_method_spec (coef : matrix) (max_iter : Z)
    (conds : list slice_key) :
  let N := Z.to_nat max_iter in
  let st0 := (coef, replicate (length coef) false) in
  let run := newtons_method solve hess grads tol coef max_iter conds in
  (∃ t, (t ≤ N)%nat ∧
     (∀ t', (0 < t' < t)%nat →
        ∃ st', newton_iterate solve hess grads tol t' st0 = Ok st' ∧
               all_converged st'.2 = false) ∧
     match newton_iterate solve hess grads tol t st0 with
     | Raise e => (0 < t)%nat ∧ run = ([], Raise e)
     | Ok st' =>
         ((0 < t)%nat ∧ all_converged st'.2 = true ∧ run = ([], Ok st'.1)) ∨
         (t = N ∧ (t = 0%nat ∨ all_converged st'.2 = false) ∧
          ((length st'.1 = 1%nat ∧ run = ([NotConverged], Ok st'.1)) ∨
           (length st'.1 ≠ 1%nat ∧ length conds = length st'.2 ∧
            run = ([NotConvergedSlices
                      (fst <$> filter (λ p, p.2 = false) (zip conds st'.2))],
                   Ok st'.1)) ∨
           (length st'.1 ≠ 1%nat ∧ length conds ≠ length st'.2 ∧
            run = ([], Raise IndexError))))
     end) ∧
  (∀ c c' v v' i,
     newton_iter solve hess grads tol (c, v) = Ok (c', v') →
     (i < length c)%nat →
     slice_pass solve hess grads tol c c' v v' i).
Proof.
  intros N st0 run. split; [|apply newton_iter_slice].
  destruct (newton_loop_spec N conds st0) as (t & Ht & Hmid & Hend).
  exists t. split_and!; [done|done|].
  destruct (newton_iterate solve hess grads tol t st0) as [[c v]|e];
    [|done].
  destruct Hend as [?|(-> & ? & Hrun)]; [by left|right].
  split_and!; [done|done|]. unfold run, newtons_method. fold N st0.
  rewrite Hrun. cbn [fst snd].
  destruct (warn_not_converged_cases conds c v)
    as [(? & ->)|[(? & ? & ->)|(? & ? & ->)]]; eauto 10.
Qed.

(** ** The last step of a slice that converges *)

Lemma newton_iterate_add (a b : nat) (st : matrix * list bool) :
  newton_iterate solve hess grads tol (a + b) st
  = (st' ← newton_iterate solve hess grads tol a st;
     newton_iterate solve hess grads tol b st').
Proof.
  induction b as [|b IH].
  - rewrite Nat.add_0_r.
    by destruct (newton_iterate solve hess grads tol a st).
  - rewrite Nat.add_succ_r. cbn [newton_iterate]. rewrite IH.
    by destruct (newton_iterate solve hess grads tol a st).
Qed.

Lemma newton_fold_flags (h : list (option matrix))
    (j : list (option vector)) (l : list nat) (st st' : matrix * list bool) :
  result_foldl (newton_slice solve tol h j) st l = Ok st' →
  length st'.2 = length st.2.
Proof.
  revert st. induction l as [|k l IH]; intros st H; simpl in H.
  - by injection H as <-.
  - apply result_bind_Ok in H as (st1 & Hst1 & H).
    rewrite (IH _ H). destruct st as [c v], st1 as [c1 v1].
    apply newton_slice_at in Hst1
      as [(_ & _ & ->)|(_ & hi & ji & delta & mx & ci & Hst1)]; [done|].
    destruct Hst1 as (_ & _ & _ & _ & _ & _ & _ & ->). simpl.
    destruct (Qc_ltb mx tol); [|done]. by rewrite length_insert.
Qed.

Lemma newton_iterate_flags (t : nat) (st st' : matrix * list bool) :
  newton_iterate solve hess grads tol t st = Ok st' →
  length st'.2 = length st.2.
Proof.
  revert st'. induction t as [|t IH]; intros st' H; simpl in H.
  - by injection H as <-.
  - apply result_bind_Ok in H as ([c1 v1] & H1 & H).
    rewrite <- (IH _ H1). unfold newton_iter in H.
    apply result_bind_Ok in H as (h & _ & H).
    apply result_bind_Ok in H as (j & _ & H).
    by apply newton_fold_flags in H.
Qed.

Lemma all_converged_lookup (converged : list bool) (i : nat) (b : bool) :
  all_converged converged = true → converged !! i = Some b → b = true.
Proof.
  unfold all_converged. intros Hall Hi.
  rewrite forallb_forall in Hall.
  apply (Hall b). apply list_elem_of_In. by eapply list_elem_of_lookup_2.
Qed.

(** Claim C10.  In a pass of the loop body over an unconverged slice [i],
    the step [delta] is the solution [np.linalg.solve(h[i], j[i])] for the
    Hessian and the gradient the callbacks gave for this pass; it has one
    entry per coefficient and is subtracted from the coefficients of the
    slice whether or not it is below the tolerance.  The slice is flagged
    exactly when [max |delta| < tol], in that same pass.  Once flagged, no
    later pass changes its coefficients, so whenever the pass belongs to a
    run of [newtons_method] that returns, the row returned for the slice is
    the iterate with this last step applied. *)
Theorem newton_last_step_applied (coef coef' : matrix)
    (conv conv' : list bool) (i : nat) :
  newton_iter solve hess grads tol (coef, conv) = Ok (coef', conv') →
  (i < length coef)%nat →
  conv !! i = Some false →
  ∃ (h : list (option matrix)) (j : list (option vector))
    (hi : option matrix) (ji : option vector) (delta : vector) (mx : Qc)
    (ci : vector),
    hess coef conv = Ok h ∧ grads coef conv = Ok j ∧
    h !! i = Some hi ∧ j !! i = Some ji ∧
    solve_slice solve hi ji = Ok delta ∧ max_abs delta = Ok mx ∧
    coef !! i = Some ci ∧ length ci = length delta ∧
    coef' !! i = Some (zip_with Qcminus ci delta) ∧
    conv' !! i = Some (Qc_ltb mx tol) ∧
    (mx < tol →
     conv' !! i = Some true ∧
     (∀ t coef'' conv'',
        newton_iterate solve hess grads tol t (coef', conv')
        = Ok (coef'', conv'') →
        coef'' !! i = Some (zip_with Qcminus ci delta) ∧
        conv'' !! i = Some true) ∧
     (∀ (coef0 : matrix) (max_iter : Z) (conds : list slice_key) (t : nat)
        (out : list output) (res : matrix),
        newton_iterate solve hess grads tol t
          (coef0, replicate (length coef0) false) = Ok (coef, conv) →
        (t < Z.to_nat max_iter)%nat →
        newtons_method solve hess grads tol coef0 max_iter conds
        = (out, Ok res) →
        res !! i = Some (zip_with Qcminus ci delta))).
Proof.
  intros H Hi Hconv.
  destruct (newton_iter_slice _ _ _ _ i H Hi)
    as (h & j & Hh & Hj & [(? & _)|(_ & Hstep)]); [congruence|].
  destruct Hstep as (hi & ji & delta & mx & ci & Hhi & Hji & Hdelta & Hmx
                     & Hci & Hlen & Hcoef' & Hconv').
  exists h, j, hi, ji, delta, mx, ci.
  split_and!; [done|done|done|done|done|done|done|done|done|done|].
  intros Hlt. unfold Qc_ltb in Hconv'.
  rewrite bool_decide_eq_true_2 in Hconv' by done.
  assert (Hlater : ∀ t coef'' conv'',
            newton_iterate solve hess grads tol t (coef', conv')
            = Ok (coef'', conv'') →
            coef'' !! i = Some (zip_with Qcminus ci delta) ∧
            conv'' !! i = Some true).
  { intros t coef'' conv'' Ht.
    destruct (newton_iterate_converged t _ _ _ _ i Ht Hconv') as [-> ?].
    done. }
  split_and!; [done|done|].
  intros coef0 max_iter conds t out res Ht Hmax Hrun.
  unfold newtons_method in Hrun.
  set (st0 := (coef0, replicate (length coef0) false)) in *.
  destruct (newton_loop_spec (Z.to_nat max_iter) conds st0)
    as (T & HT & _ & Hend).
  destruct (newton_iterate solve hess grads tol T st0) as [[cT vT]|e] eqn:HiT;
    [|destruct Hend as [_ Hr]; by rewrite Hr in Hrun].
  assert (Hres : res = cT).
  { destruct Hend as [(_ & _ & Hr)|(_ & _ & Hr)]; rewrite Hr in Hrun.
    - by injection Hrun as <- <-.
    - destruct (warn_not_converged_cases conds cT vT)
        as [(_ & Hw)|[(_ & _ & Hw)|(_ & _ & Hw)]];
        rewrite Hw in Hrun; by injection Hrun. }
  subst res.
  destruct (decide (T ≤ t)%nat) as [Hle|Hgt].
  - exfalso. destruct Hend as [(_ & Hall & _)|(-> & _)]; [|lia].
    replace t with (T + (t - T))%nat in Ht by lia.
    rewrite newton_iterate_add, HiT in Ht. cbn [mbind result_bind] in Ht.
    pose proof (newton_iterate_flags _ _ _ Ht) as Hflags. simpl in Hflags.
    destruct (vT !! i) as [b|] eqn:Hb.
    + pose proof (all_converged_lookup _ _ _ Hall Hb) as ->.
      destruct (newton_iterate_converged _ _ _ _ _ i Ht Hb) as [_ ?].
      congruence.
    + apply lookup_ge_None in Hb. apply lookup_lt_Some in Hconv. lia.
  - replace T with (S t + (T - S t))%nat in HiT by lia.
    rewrite newton_iterate_add in HiT. cbn [newton_iterate] in HiT.
    rewrite Ht in HiT. cbn [mbind result_bind] in HiT. rewrite H in HiT.
    cbn [mbind result_bind] in HiT.
    by destruct (Hlater _ _ _ HiT) as [? _].
Qed.

End NewtonProperties.

(** The claim C8 as the specification words it fails for a single slice
    with a key: after the one allowed pass the slice ["a"] is unconverged,
    and the warning printed is the generic one, which names no slice. *)
Lemma newtons_method_single_slice_unnamed :
  let run := newtons_method unit_solve unit_hess unit_grads (1 / #10000)
               [[0]] 1 [["a"]] in
  newton_iterate unit_solve unit_hess unit_grads (1 / #10000) 1
    ([[0]], [false]) = Ok ([[- (1)]], [false]) ∧
  run = ([NotConverged], Ok [[- (1)]]) ∧
  ¬ (∃ slices, NotConvergedSlices slices ∈ run.1).
Proof.
  assert (Hrun : newtons_method unit_solve unit_hess unit_grads
                   (1 / #10000) [[0]] 1 [["a"]]
                 = ([NotConverged], Ok [[- (1)]])) by compute_done.
  split_and!; [compute_done|done|]. cbv zeta. rewrite Hrun.
  intros [slices Hin]. simpl in Hin.
  apply list_elem_of_singleton in Hin. done.
Qed.

(** ** Ordinary least squares through Ridge *)

Section PushdownProperties.
Variable solve : matrix → vector → result vector.
Variable cond : matrix → result cond_value.
Variable Table : Type.
Variable sufficient_stats_query :
  string → list string → list string → bool →
  Table → list string → bool → bool → result (list string * list series).
Variable groupby_apply :
  list series → list string → (frame → io coef_row) → io fit_result.

Lemma Ridge_init_named (m : Model) (alpha : Qc) :
  name m ≠ "" →
  Ridge_init (y m) (x m) (group_by m) alpha (fit_intercept m) (normalize m)
    (where_ m) (Some (name m))
  = with_cls m (Ridge alpha).
Proof.
  intros Hname. unfold Ridge_init, Model_init, with_cls.
  by rewrite decide_False.
Qed.

(** Claim C9.  The pushdown fit of [LinearRegression] is that of the Ridge
    model with [alpha = 0] and the same children, grouping, filter, name,
    [fit_intercept] and [normalize]: the statistics are queried once, and
    the solver is run on the one frame when there is no [split_by] and by
    [groupby.apply] on the frame of each slice otherwise.  On the statistics
    of a slice the penalty added for [alpha = 0] is zero, so the system
    handed to [np.linalg.solve] is that of ordinary least squares: without
    normalization [XtX beta = Xty] for the matrices of
    [construct_matrix_from_elements], unchanged; with normalization the
    centered moments [x_ix_j - x_i x_j] against [x_iy - x_i y], the
    intercept being [y - beta . means]. *)
Theorem linear_regression_is_ridge_alpha_0 (m : Model) (table : Table)
    (split_by xs : list string) (rows : list series) :
  name m ≠ "" →
  sufficient_stats_query (y m) (x m) (group_by m) (fit_intercept m) table
    split_by false true = Ok (xs, rows) →
  let ols := with_cls m (Ridge 0) in
  let fit := LinearRegression_compute_on_sql_magic_mode solve cond Table
               sufficient_stats_query groupby_apply m table split_by in
  let alg := λ f : frame, compute_ridge_coefs solve cond f xs ols in
  let n := length xs in
  fit = Ridge_compute_on_sql_magic_mode solve cond Table
          sufficient_stats_query groupby_apply ols table split_by ∧
  fit = match split_by with
        | [] => row ← alg (DataFrame rows); mret (SingleFit row)
        | _ :: _ => groupby_apply rows split_by alg
        end ∧
  (∀ (f : frame) (stats : series) (n_obs : Qc) (XtX : matrix)
     (Xty : vector),
     f = Series stats ∨ f = DataFrame [stats] →
     fit_intercept m && normalize m = false →
     stats !! "n_obs" = Some n_obs → n_obs ≠ 0 →
     construct_matrix_from_elements (Series stats) xs (fit_intercept m)
     = Ok (XtX, Xty) →
     alg f = solve_system solve cond XtX Xty
               (λ coef, make_coef_row coef
                          (coef_names (fit_intercept m) xs))) ∧
  (∀ (f : frame) (stats : series) (mu r : nat → Qc) (s : nat → nat → Qc)
     (ybar : Qc),
     f = Series stats ∨ f = DataFrame [stats] →
     fit_intercept m && normalize m = true →
     (∀ i, (i < n)%nat → stats !! x_col i = Some (mu i)) →
     (∀ i j, (i ≤ j < n)%nat → stats !! xx_col i j = Some (s i j)) →
     (∀ i, (i < n)%nat → stats !! xy_col i = Some (r i)) →
     stats !! "y" = Some ybar →
     ∃ M : matrix,
       is_shape n n M ∧
       (∀ i j, (i < n)%nat → (j < n)%nat →
          mget M i j
          = Some (s (i `min` j) (i `max` j)
                  - mu (i `min` j) * mu (i `max` j))) ∧
       alg f = solve_system solve cond M
                 ((λ i, r i - mu i * ybar) <$> seq 0 n)
                 (λ coef,
                    d ← dot coef (mu <$> seq 0 n);
                    make_coef_row ((ybar - d) :: coef)
                      ("intercept" :: (clean_name <$> xs)))).
Proof.
  intros Hname Hquery ols fit alg n.
  assert (Hfit : fit = Ridge_compute_on_sql_magic_mode solve cond Table
                         sufficient_stats_query groupby_apply ols table
                         split_by).
  { unfold fit, LinearRegression_compute_on_sql_magic_mode.
    by rewrite Ridge_init_named. }
  split_and!; [done| | |].
  - rewrite Hfit.
    unfold Ridge_compute_on_sql_magic_mode, get_sufficient_stats_elements.
    unfold ols. cbn [with_cls y x group_by fit_intercept].
    rewrite Hquery, io_bind_lift_Ok.
    unfold apply_algorithm_to_sufficient_stats_elements.
    by destruct split_by.
  - intros f stats n_obs XtX Xty Hf Hnorm Hn Hn0 Hcons. unfold alg.
    rewrite (compute_ridge_coefs_unfold solve cond f stats xs ols XtX Xty)
      by done.
    destruct (construct_matrix_shape _ _ _ _ _ Hcons) as [_ Hshape].
    unfold ols, ridge_alpha. cbn [with_cls cls fit_intercept].
    unfold getitem. rewrite Hn. cbn [mbind result_bind].
    by rewrite (zero_penalty_plain solve cond), io_bind_lift_Ok.
  - intros f stats mu r s ybar Hf Hnorm Hx Hxx Hxy Hy.
    destruct (normalized_unfold solve cond stats xs ols mu r s ybar
                Hx Hxx Hxy Hy) as (M & _ & Hshape & Hent & Hrun).
    exists M. split_and!; [done|done|].
    unfold alg, compute_ridge_coefs.
    assert (Hrow : match f with
                   | DataFrame rows => iloc0 rows
                   | Series row => Ok row
                   end = Ok stats) by (by destruct Hf as [-> | ->]).
    rewrite Hrow, io_bind_lift_Ok.
    change (fit_intercept ols && normalize ols)
      with (fit_intercept m && normalize m).
    rewrite Hnorm, Hrun. unfold ols, ridge_alpha. cbn [with_cls cls].
    by rewrite (zero_penalty_normalized n M).
Qed.

End PushdownProperties.

(** ** [count_features] *)

(** Claim C6 as the specification words it fails: a composite metric of two
    leaves has width 1, the maximum of its children, not their sum 2. *)
Lemma count_features_composite_not_sum :
  count_features (CompositeMetric [SimpleMetric; SimpleMetric]) = Ok 1%nat ∧
  count_features (CompositeMetric [SimpleMetric; SimpleMetric])
  ≠ Ok (1 + 1)%nat.
Proof. split; [reflexivity|discriminate]. Qed.

(** Claim C6, as the code has it.  A list metric sums the widths of its
    children; a composite metric takes the largest of them; a metric with
    confidence interval multiplies the width of its first child by 3 when
    its confidence is set (truthy) and by 2 otherwise; a quantile metric has
    width 1 for a single quantile and the number of quantiles otherwise; any
    other leaf has width 1. *)
Theorem count_features_spec :
  (∀ children ns,
     result_mapM count_features children = Ok ns →
     count_features (MetricList children) = Ok (sum_list ns) ∧
     count_features (CompositeMetric children) = max_of ns) ∧
  (∀ confidence c rest n,
     count_features c = Ok n →
     count_features (MetricWithCI confidence (c :: rest))
     = Ok (if truthy confidence then n * 3 else n * 2)%nat) ∧
  (∀ quantile,
     count_features (Quantile true quantile) = Ok 1%nat ∧
     count_features (Quantile false quantile) = Ok (length quantile)) ∧
  count_features SimpleMetric = Ok 1%nat ∧
  (∀ n ns, max_of (n :: ns) = Ok (foldl Nat.max n ns) ∧
           ∀ k, k ∈ n :: ns → (k ≤ foldl Nat.max n ns)%nat).
Proof.
  split_and!.
  - intros children ns H. simpl. by rewrite H.
  - intros confidence c rest n H. simpl. by rewrite H.
  - done.
  - done.
  - intros n ns. split; [done|]. revert n.
    induction ns as [|a ns IH]; intros n k Hk.
    + apply list_elem_of_singleton in Hk as ->. done.
    + simpl. apply elem_of_cons in Hk as [->|Hk].
      * etrans; [|apply IH; left]. lia.
      * apply elem_of_cons in Hk as [->|Hk].
        -- etrans; [|apply IH; left]. lia.
        -- apply IH. by right.
Qed.

Lemma count_features_spec_witness :
  count_features (MetricList [SimpleMetric; Quantile false [1; 1]])
  = Ok 3%nat ∧
  count_features (MetricWithCI (Some 1) [Quantile false [1; 1]]) = Ok 6%nat.
Proof.
  destruct count_features_spec as (Hlist & Hci & _).
  split.
  - apply (Hlist [SimpleMetric; Quantile false [1; 1]] [1; 2]%nat).
    reflexivity.
  - apply (Hci (Some 1) (Quantile false [1; 1]) [] 2%nat). reflexivity.
Defined.

(** ** The preconditions of the logistic pushdown *)

Lemma bad_l1_ratio_false (v : option Qc) :
  bad_l1_ratio v = false ↔ ∃ r, v = Some r ∧ r ≠ 0 ∧ 0 <= r ∧ r <= 1.
Proof.
  unfold bad_l1_ratio, Qc_leb. destruct v as [r|]; [|naive_solver].
  rewrite orb_false_iff, negb_false_iff, andb_true_iff.
  rewrite bool_decide_eq_false, !bool_decide_eq_true. naive_solver.
Qed.

(** The checks pass exactly for the configurations below, and then print at
    most the L1 warning; [l1_ratio = 0] is not among them. *)
Lemma check_magic_preconditions_Ok (p : logistic_params) :
  (∃ out, check_magic_preconditions p = (out, Ok ())) ↔
  class_weight_set (class_weight p) = false ∧
  multi_class p ≠ "multinomial" ∧
  (penalty p = "elasticnet" →
   ∃ r, l1_ratio p = Some r ∧ r ≠ 0 ∧ 0 <= r ∧ r <= 1) ∧
  intercept_scaling p = 1.
Proof.
  unfold check_magic_preconditions.
  destruct (class_weight_set (class_weight p)); [naive_solver|].
  destruct (bool_decide (multi_class p = "multinomial")) eqn:Hm.
  { apply bool_decide_eq_true in Hm. naive_solver. }
  apply bool_decide_eq_false in Hm.
  destruct (bool_decide (penalty p = "elasticnet")) eqn:He.
  - apply bool_decide_eq_true in He. simpl.
    destruct (bad_l1_ratio (l1_ratio p)) eqn:Hb.
    + split; [naive_solver|]. intros (_ & _ & Hr & _).
      apply bad_l1_ratio_false in Hr; [congruence|done].
    + apply bad_l1_ratio_false in Hb.
      destruct (bool_decide (intercept_scaling p = 1)) eqn:Hi; simpl.
      * apply bool_decide_eq_true in Hi. rewrite orb_true_r.
        split; [done|]. intros _. by eexists.
      * apply bool_decide_eq_false in Hi. naive_solver.
  - apply bool_decide_eq_false in He. simpl.
    destruct (bool_decide (intercept_scaling p = 1)) eqn:Hi; simpl.
    + apply bool_decide_eq_true in Hi. split; [done|]. intros _.
      rewrite orb_false_r. destruct (bool_decide (penalty p = "l1"));
        by eexists.
    + apply bool_decide_eq_false in Hi. naive_solver.
Qed.

Section LogisticProperties.
Variable solve : matrix → vector → result vector.
Variable Table : Type.
Variable y_nunique : string → list string → Table → result nat.
Variable get_data_xs : Model → Table → list string → result (list string).
Variable distinct_slices : Table → list string → result (list slice_key).
Variable grads_and_hess_query :
  Model → logistic_params → Table → list string → list string →
  list slice_key → matrix → list bool → result (list Qc).

(** Claim C4, at the input where it fails.  With [penalty = 'elasticnet']
    and [l1_ratio = 0], a value inside [[0, 1]], and every other
    precondition met, the pushdown fit raises the [l1_ratio] error before
    any query is made. *)
Theorem elasticnet_l1_ratio_0_rejected (m : Model) (table : Table)
    (split_by : list string) :
  (0 <= 0 ∧ 0 <= 1) ∧
  LogisticRegression_compute_on_sql_magic_mode solve Table y_nunique
    get_data_xs distinct_slices grads_and_hess_query m elasticnet_l1_ratio_0
    table split_by
  = ([], Raise (ValueError "l1_ratio must be between 0 and 1")).
Proof. split; [split; compute_done|reflexivity]. Qed.

End LogisticProperties.

(** ** The modes of [compute_through_sql] *)

(** Claim C5 as the specification words it fails: in mode ['mixed'] the
    pushdown path, which would succeed here, is not tried; the failure of
    the fit on SQL-computed children reaches the caller as the
    distinguished error. *)
Lemma mixed_mode_signal_reaches_caller :
  working_magic_mode sample_ridge () [] = ([], Ok sample_fit) ∧
  compute_through_sql () (λ t _, t) (λ _, true) failing_mixed_mode
    working_magic_mode keep_names sample_ridge () [] (Some "mixed")
  = ([], Raise (MaybeBadSqlModeError "magic"
                  (Some (OtherException "the local fit failed")))).
Proof. split; reflexivity. Qed.

Section ModelFacadeProperties.
Variable Table : Type.
Variable sql_where : Table → string → Table.
Variable all_computable_in_pure_sql : Model → bool.
Variable compute_on_sql_mixed_mode :
  Model → Table → list string → option string → io fit_result.
Variable apply_name_tmpl : string → fit_result → result fit_result.

(** Claim C5, as the code has it.  An unknown mode string and mode ['sql']
    raise [ValueError] at once.  With mode ['mixed'] or no mode, only
    [compute_on_sql_mixed_mode] is called, on the filtered table, whatever
    the pushdown method is: its result is returned; a
    [MaybeBadSqlModeError] it raises is raised again unchanged; any other
    exception is replaced by [MaybeBadSqlModeError('magic')] chained to
    it. *)
Theorem compute_through_sql_modes (m : Model) (table : Table)
    (split_by : list string)
    (magic magic' : Model → Table → list string → io fit_result) :
  let run := compute_through_sql Table sql_where all_computable_in_pure_sql
               compute_on_sql_mixed_mode magic apply_name_tmpl m table
               split_by in
  let run' := compute_through_sql Table sql_where all_computable_in_pure_sql
                compute_on_sql_mixed_mode magic' apply_name_tmpl m table
                split_by in
  (∀ mode : string,
     mode ∉ ["sql"; "mixed"; "magic"] →
     run (Some mode)
     = ([], Raise (ValueError ("Mode " +:+ mode +:+ " is not supported!")))) ∧
  run (Some "sql")
  = ([], Raise (ValueError (name m +:+ " is not computable in pure SQL!"))) ∧
  (∀ mode, mode = None ∨ mode = Some "mixed" →
     run mode = run' mode ∧
     let fitted := compute_on_sql_mixed_mode m
                     (filtered_table Table sql_where m table) split_by mode in
     run mode
     = (fitted.1,
        match fitted.2 with
        | Ok res => Ok (Some res)
        | Raise (MaybeBadSqlModeError use_mode cause) =>
            Raise (MaybeBadSqlModeError use_mode cause)
        | Raise e => Raise (MaybeBadSqlModeError "magic" (Some e))
        end)).
Proof.
  intros run run'. split_and!.
  - intros mode Hmode. unfold run, compute_through_sql.
    rewrite bool_decide_eq_false_2; [done|].
    intros Hin. apply Hmode.
    repeat (apply elem_of_cons in Hin as [Hin|Hin];
            [first [discriminate Hin
                   |injection Hin as ->; set_solver]|]).
    by apply elem_of_nil in Hin.
  - done.
  - intros mode Hmode.
    assert (Hgen : ∀ mg,
      compute_through_sql Table sql_where all_computable_in_pure_sql
        compute_on_sql_mixed_mode mg apply_name_tmpl m table split_by mode
      = ((compute_on_sql_mixed_mode m
            (filtered_table Table sql_where m table) split_by mode).1,
         match (compute_on_sql_mixed_mode m
                  (filtered_table Table sql_where m table) split_by mode).2
         with
         | Ok res => Ok (Some res)
         | Raise (MaybeBadSqlModeError use_mode cause) =>
             Raise (MaybeBadSqlModeError use_mode cause)
         | Raise e => Raise (MaybeBadSqlModeError "magic" (Some e))
         end)).
    { intros mg. unfold compute_through_sql.
      rewrite (bool_decide_eq_true_2 (mode ∈ _))
        by (destruct Hmode as [-> | ->]; set_solver).
      rewrite (bool_decide_eq_false_2 (mode = Some "sql"))
        by (by destruct Hmode as [-> | ->]).
      rewrite (bool_decide_eq_false_2 (mode = Some "magic"))
        by (by destruct Hmode as [-> | ->]).
      assert (bool_decide (mode = Some "mixed")
              || bool_decide (mode = None ∨ mode = Some "") = true) as ->.
      { destruct Hmode as [-> | ->].
        - rewrite (bool_decide_eq_true_2 (_ ∨ _)) by (by left).
          apply orb_true_r.
        - by rewrite bool_decide_eq_true_2. }
      cbn [negb andb].
      destruct (compute_on_sql_mixed_mode m
                  (filtered_table Table sql_where m table) split_by mode)
        as [out [res|e]]; cbn; rewrite ?app_nil_r; [done|].
      destruct e; cbn; by rewrite app_nil_r. }
    split; [unfold run, run'; by rewrite !Hgen|apply Hgen].
Qed.

End ModelFacadeProperties.

Lemma compute_through_sql_modes_witness :
  compute_through_sql () (λ t _, t) (λ _, true) failing_mixed_mode
    working_magic_mode keep_names sample_ridge () [] (Some "turbo")
  = ([], Raise (ValueError "Mode turbo is not supported!")).
Proof.
  destruct (compute_through_sql_modes () (λ t _, t) (λ _, true)
              failing_mixed_mode keep_names sample_ridge () []
              working_magic_mode working_magic_mode) as (Hmode & _).
  apply (Hmode "turbo"). set_solver.
Defined.

(** ** The theorems at sample inputs *)

Lemma compute_ridge_coefs_system_witness :
  ∃ A : matrix,
    is_shape 2 2 A ∧
    mget A 0 0 = Some 1 ∧ mget A 1 1 = Some (#5 + 1 / #10 * 1) ∧
    compute_ridge_coefs unit_solve cond_one (Series sample_stats) ["a"]
      sample_ridge
    = solve_system unit_solve cond_one A [ #3; #7]
        (λ coef, make_coef_row coef ["intercept"; "a"]).
Proof.
  destruct (compute_ridge_coefs_system unit_solve cond_one
              (Series sample_stats) sample_stats ["a"] sample_ridge
              1 #10 [[1; #2]; [ #2; #5]] [ #3; #7])
    as (A & Hshape & Hent & Hrun);
    [by left|reflexivity|reflexivity|compute_done|compute_done|compute_done|].
  exists A. split_and!; [done| | |done].
  - destruct (Hent 0%nat 0%nat ltac:(simpl; lia) ltac:(simpl; lia))
      as (a & Ha & ->).
    cbv in Ha. injection Ha as <-. compute_done.
  - destruct (Hent 1%nat 1%nat ltac:(simpl; lia) ltac:(simpl; lia))
      as (a & Ha & ->).
    cbv in Ha. injection Ha as <-. compute_done.
Defined.

Lemma compute_coef_for_normalize_ridge_system_witness :
  ∃ A : matrix,
    is_shape 1 1 A ∧
    compute_coef_for_normalize_ridge unit_solve cond_one sample_stats ["a"]
      sample_ridge_normalized
    = solve_system unit_solve cond_one A [ #7 - #2 * #3]
        (λ coef,
           d ← dot coef [ #2];
           make_coef_row ((#3 - d) :: coef) ["intercept"; "a"]).
Proof.
  destruct (compute_coef_for_normalize_ridge_system unit_solve cond_one
              sample_stats ["a"] sample_ridge_normalized
              (λ _, #2) (λ _, #7) (λ _ _, #5) #3) with (alpha := 1)
    as (A & Hshape & _ & Hrun & _).
  - intros i Hi. simpl in Hi. replace i with 0%nat by lia. compute_done.
  - intros i j Hij. simpl in Hij. replace i with 0%nat by lia.
    replace j with 0%nat by lia. compute_done.
  - intros i Hi. simpl in Hi. replace i with 0%nat by lia. compute_done.
  - compute_done.
  - reflexivity.
  - exists A. split; [exact Hshape|exact Hrun].
Defined.

Lemma compute_ridge_coefs_infinite_cond_witness :
  compute_ridge_coefs unit_solve cond_inf (Series zero_feature_stats) ["a"]
    ols_model
  = ([], Raise OverflowError).
Proof.
  apply (compute_ridge_coefs_infinite_cond unit_solve cond_inf).
  reflexivity.
Defined.

Lemma newton_last_step_applied_witness :
  ∃ (delta : vector) (mx : Qc) (ci : vector),
    solve_slice unit_solve (Some [[1]]) (Some [1]) = Ok delta ∧
    max_abs delta = Ok mx ∧ mx < #2 ∧
    [[0]] !! 0%nat = Some ci ∧ length ci = length delta ∧
    [[- (1)]] !! 0%nat = Some (zip_with Qcminus ci delta) ∧
    [true] !! 0%nat = Some true ∧
    ∀ (out : list output) (res : matrix),
      newtons_method unit_solve unit_hess unit_grads #2 [[0]] 1 [["a"]]
      = (out, Ok res) →
      res !! 0%nat = Some (zip_with Qcminus ci delta).
Proof.
  destruct (newton_last_step_applied unit_solve unit_hess unit_grads #2
              [[0]] [[- (1)]] [false] [true] 0)
    as (h & j & hi & ji & delta & mx & ci & Hh & Hj & Hhi & Hji & Hdelta
        & Hmx & Hci & Hlen & Hstep & Hflag & Hconv);
    [compute_done|simpl; lia|reflexivity|].
  injection Hh as <-. injection Hj as <-.
  injection Hhi as <-. injection Hji as <-.
  assert (Hd : delta = [1]) by (by injection Hdelta).
  assert (Hm : mx = 1) by (rewrite Hd in Hmx; by injection Hmx).
  assert (Hlt : mx < #2) by (rewrite Hm; compute_done).
  destruct (Hconv Hlt) as (Htrue & _ & Hrun).
  exists delta, mx, ci. split_and!; [done|done|done|done|done|done|done|].
  intros out res Hres.
  apply (Hrun [[0]] 1%Z [["a"]] 0%nat out res); [reflexivity|simpl; lia|done].
Defined.

Lemma linear_regression_is_ridge_alpha_0_witness :
  let m := LinearRegression_init "y" ["a"] [] true false None None in
  let mn := LinearRegression_init "y" ["a"] [] true true None None in
  LinearRegression_compute_on_sql_magic_mode unit_solve cond_one ()
    sample_query no_groupby m () []
  = (row ← solve_system unit_solve cond_one [[1; #2]; [ #2; #5]] [ #3; #7]
             (λ coef, make_coef_row coef (coef_names true ["a"]));
     mret (SingleFit row)) ∧
  ∃ M : matrix,
    mget M 0 0 = Some (#5 - #2 * #2) ∧
    LinearRegression_compute_on_sql_magic_mode unit_solve cond_one ()
      sample_query no_groupby mn () []
    = (row ← solve_system unit_solve cond_one M [ #7 - #2 * #3]
               (λ coef,
                  d ← dot coef [ #2];
                  make_coef_row ((#3 - d) :: coef) ["intercept"; "a"]);
       mret (SingleFit row)).
Proof.
  intros m mn. split.
  - destruct (linear_regression_is_ridge_alpha_0 unit_solve cond_one ()
                sample_query no_groupby m () [] ["a"] [sample_stats])
      as (_ & Hfit & Hplain & _); [done|reflexivity|].
    rewrite Hfit.
    rewrite (Hplain (DataFrame [sample_stats]) sample_stats #10
               [[1; #2]; [ #2; #5]] [ #3; #7]);
      [done|by right|reflexivity|compute_done|compute_done|compute_done].
  - destruct (linear_regression_is_ridge_alpha_0 unit_solve cond_one ()
                sample_query no_groupby mn () [] ["a"] [sample_stats])
      as (_ & Hfit & _ & Hnorm); [done|reflexivity|].
    destruct (Hnorm (DataFrame [sample_stats]) sample_stats
                (λ _, #2) (λ _, #7) (λ _ _, #5) #3)
      as (M & _ & Hent & Halg).
    + by right.
    + reflexivity.
    + intros i Hi. simpl in Hi. by replace i with 0%nat by lia.
    + intros i j Hij. simpl in Hij.
      replace i with 0%nat by lia. by replace j with 0%nat by lia.
    + intros i Hi. simpl in Hi. by replace i with 0%nat by lia.
    + reflexivity.
    + exists M. split; [apply Hent; simpl; lia|].
      rewrite Hfit. by rewrite Halg.
Defined.

Lemma newtons_method_spec_witness :
  slice_pass unit_solve unit_hess unit_grads #2
    [[0]] [[- (1)]] [false] [true] 0.
Proof.
  destruct (newtons_method_spec unit_solve unit_hess unit_grads #2
              [[0]] 1 [["a"]]) as [_ Hpass].
  apply Hpass; [compute_done|simpl; lia].
Defined.

(** * Further properties *)

(** ** [symmetrize_triangular]: which lengths are accepted, and reading the
    triangle back *)

(** [symmetrize_triangular] accepts a list exactly when its length is a
    triangular number: the integer square root never misses the size. *)
Theorem symmetrize_triangular_accepts_iff (packed : list Qc) :
  (∃ M, symmetrize_triangular packed = Ok M) ↔
  (∃ n, n * (n + 1) = 2 * length packed)%nat.
Proof.
  split.
  - intros [M HM].
    exists (Nat.sqrt (2 * length packed)).
    destruct (decide (Nat.sqrt (2 * length packed)
                      * (Nat.sqrt (2 * length packed) + 1)
                      = 2 * length packed)%nat) as [Heq|Hne]; [done|].
    by rewrite symmetrize_triangular_Raise in HM.
  - intros [n Hn].
    destruct (symmetrize_triangular_Ok packed) as (M & HM & _).
    + by rewrite (sqrt_triangular n).
    + by exists M.
Qed.

(** Reading the upper triangle of the result row by row gives the packed
    list back. *)
Theorem symmetrize_triangular_round_trip (packed : list Qc) (M : matrix) :
  symmetrize_triangular packed = Ok M →
  (λ p, mget M p.1 p.2) <$> triu_indices (length M) = Some <$> packed.
Proof.
  intros HM.
  set (n := Nat.sqrt (2 * length packed)).
  assert (Hn : (n * (n + 1) = 2 * length packed)%nat).
  { destruct (decide (n * (n + 1) = 2 * length packed)%nat); [done|].
    unfold n in *. by rewrite symmetrize_triangular_Raise in HM. }
  destruct (symmetrize_triangular_Ok packed Hn) as (M' & HM' & Hshape & Hent).
  fold n in Hshape, Hent. assert (M' = M) as -> by congruence.
  destruct Hshape as [Hlen Hrows]. rewrite Hlen.
  apply list_eq. intros k. rewrite !list_lookup_fmap.
  destruct (triu_indices n !! k) as [[i j]|] eqn:Hk; simpl.
  - assert (Hij : (i ≤ j < n)%nat).
    { apply elem_of_triu_indices. by eapply list_elem_of_lookup_2. }
    assert (k = packed_index n i j) as ->.
    { eapply NoDup_lookup; [apply NoDup_triu_indices|exact Hk|].
      by apply triu_indices_lookup. }
    destruct (Hent i j) as (_ & -> & _); [lia|lia|].
    rewrite Nat.min_l, Nat.max_r by lia.
    pose proof (upper_entry_Some packed n i j Hn Hij) as ->. done.
  - apply lookup_ge_None in Hk. pose proof (triu_indices_length n).
    rewrite lookup_ge_None_2; [done|lia].
Qed.

Lemma symmetrize_triangular_round_trip_witness :
  (λ p, mget [QL [1; 2]%Z; QL [2; 3]%Z] p.1 p.2) <$> triu_indices 2
  = Some <$> QL [1; 2; 3]%Z.
Proof.
  apply (symmetrize_triangular_round_trip (QL [1; 2; 3]%Z)
           [QL [1; 2]%Z; QL [2; 3]%Z]).
  compute_done.
Defined.

(** ** [construct_matrix_from_elements]: which rows are accepted, and where
    each statistic lands *)

Lemma result_mapM_getitem_cases (s : series) (cols : list string) :
  match result_mapM (getitem s) cols with
  | Ok vs => length vs = length cols ∧
             ∀ k c, cols !! k = Some c → vs !! k = s !! c ∧ is_Some (s !! c)
  | Raise e => ∃ label, label ∈ cols ∧ e = KeyError label ∧ s !! label = None
  end.
Proof.
  induction cols as [|c cols IH]; [by split|]. cbn [result_mapM].
  assert (Hg : getitem s c = match s !! c with
                             | Some v => Ok v
                             | None => Raise (KeyError c)
                             end) by done.
  destruct (s !! c) as [v|] eqn:Hc; rewrite Hg; cbn [mbind result_bind].
  - destruct (result_mapM (getitem s) cols) as [vs|e];
      cbn [mbind result_bind].
    + destruct IH as [Hlen IH]. split; [simpl; lia|].
      intros [|k] c' Hk; simpl in *; [|by apply IH].
      injection Hk as <-. by rewrite Hc.
    + destruct IH as (label & ? & ? & ?). exists label.
      split_and!; [by right|done|done].
  - exists c. split_and!; [by left|done|done].
Qed.


Lemma xx_cols_triu (n : nat) :
  (seq 0 n ≫= λ i, xx_col i <$> seq i (n - i))
  = (λ p, xx_col p.1 p.2) <$> triu_indices n.
Proof.
  unfold triu_indices. induction (seq 0 n) as [|i l IH]; [done|]. simpl.
  rewrite fmap_app. f_equal; [|exact IH].
  by rewrite <- list_fmap_compose.
Qed.

Lemma xx_cols_lookup (n i j : nat) :
  (i ≤ j < n)%nat →
  (seq 0 n ≫= λ i, xx_col i <$> seq i (n - i)) !! packed_index n i j
  = Some (xx_col i j).
Proof.
  intros Hij. by rewrite xx_cols_triu, list_lookup_fmap, triu_indices_lookup.
Qed.

Lemma xx_cols_length (n : nat) :
  length (seq 0 n ≫= λ i, xx_col i <$> seq i (n - i)) = row_start n n.
Proof. by apply triu_rows_length. Qed.

Lemma row_start_full (n : nat) : (2 * row_start n n = n * (n + 1))%nat.
Proof.
  unfold row_start. destruct n as [|k]; [done|].
  pose proof (even_consecutive k).
  replace (S k * (S k - 1))%nat with (k * (k + 1))%nat by lia. nia.
Qed.

(** A statistics row is rejected only for a label it lacks, with the
    [KeyError] of that label: the shape check of [symmetrize_triangular]
    never fires here.  When the row is accepted every statistic the model
    needs was present. *)
Theorem construct_matrix_from_elements_outcome (stats : series)
    (xs : list string) (fi : bool) :
  let n := length xs in
  match construct_matrix_from_elements (Series stats) xs fi with
  | Ok (XtX, Xty) =>
      (∀ i j, (i ≤ j < n)%nat → is_Some (stats !! xx_col i j)) ∧
      (∀ i, (i < n)%nat → is_Some (stats !! xy_col i)) ∧
      (fi = true →
       is_Some (stats !! "y") ∧
       ∀ i, (i < n)%nat → is_Some (stats !! x_col i))
  | Raise e => ∃ label, e = KeyError label ∧ stats !! label = None
  end.
Proof.
  intros n. unfold construct_matrix_from_elements. fold n.
  cbn [mbind result_bind].
  set (xx := seq 0 n ≫= λ i, xx_col i <$> seq i (n - i)).
  pose proof (result_mapM_getitem_cases stats
                ((if fi then x_col <$> seq 0 n else []) ++ xx)) as H1.
  destruct (result_mapM (getitem stats) _) as [elems|e] in H1 |- *;
    [|destruct H1 as (label & _ & ? & ?); by exists label].
  cbn [mbind result_bind].
  pose proof (result_mapM_getitem_cases stats
                ((if fi then ["y"] else []) ++ (xy_col <$> seq 0 n))) as H2.
  destruct (result_mapM (getitem stats) _) as [xty|e] in H2 |- *;
    [|destruct H2 as (label & _ & ? & ?); by exists label].
  cbn [mbind result_bind].
  destruct H1 as [Hlen1 H1], H2 as [Hlen2 H2].
  rewrite length_app in Hlen1, Hlen2.
  unfold xx in Hlen1. rewrite xx_cols_length in Hlen1.
  rewrite length_fmap, length_seq in Hlen2.
  pose proof (row_start_full n) as Hfull.
  destruct (symmetrize_triangular_Ok (if fi then 1 :: elems else elems))
    as (M & -> & _).
  { rewrite (sqrt_triangular (length xty)); [|];
      destruct fi; simpl in *; rewrite ?length_fmap, ?length_seq in Hlen1;
      nia. }
  cbn [mbind result_bind]. split_and!.
  - intros i j Hij. eapply (H1 (length (if fi then x_col <$> seq 0 n else [])
                                + packed_index n i j)%nat).
    rewrite lookup_app_r by lia.
    replace (_ + _ - _)%nat with (packed_index n i j) by lia.
    by apply xx_cols_lookup.
  - intros i Hi. eapply (H2 (length (if fi then ["y"] else []) + i)%nat).
    rewrite lookup_app_r by lia.
    replace (_ + _ - _)%nat with i by lia.
    by rewrite list_lookup_fmap, lookup_seq_lt.
  - intros ->. split.
    + by eapply (H2 0%nat).
    + intros i Hi. eapply (H1 i). rewrite lookup_app_l
        by (rewrite length_fmap, length_seq; lia).
      by rewrite list_lookup_fmap, lookup_seq_lt.
Qed.

Lemma packed_index_first_row (p j : nat) : packed_index p 0 j = j.
Proof. unfold packed_index, row_start. simpl. lia. Qed.

Lemma construct_matrix_inv (stats : series) (xs : list string) (fi : bool)
    (XtX : matrix) (Xty : vector) :
  construct_matrix_from_elements (Series stats) xs fi = Ok (XtX, Xty) →
  let n := length xs in
  ∃ elems,
    result_mapM (getitem stats)
      ((if fi then x_col <$> seq 0 n else [])
       ++ (seq 0 n ≫= λ i, xx_col i <$> seq i (n - i))) = Ok elems ∧
    result_mapM (getitem stats)
      ((if fi then ["y"] else []) ++ (xy_col <$> seq 0 n)) = Ok Xty ∧
    symmetrize_triangular (if fi then 1 :: elems else elems) = Ok XtX.
Proof.
  unfold construct_matrix_from_elements. cbn [mbind result_bind]. intros H.
  apply result_bind_Ok in H as (elems & Helems & H).
  apply result_bind_Ok in H as (xty & Hxty & H).
  apply result_bind_Ok in H as (M & HM & H).
  injection H as <- <-. by exists elems.
Qed.

Lemma symmetrize_triangular_entry (packed : list Qc) (M : matrix) (p i j : nat) :
  symmetrize_triangular packed = Ok M → is_shape p p M →
  (i < p)%nat → (j < p)%nat →
  mget M i j = packed !! packed_index p (i `min` j) (i `max` j).
Proof.
  intros HM [Hlen _] Hi Hj.
  set (n := Nat.sqrt (2 * length packed)).
  assert (Hn : (n * (n + 1) = 2 * length packed)%nat).
  { destruct (decide (n * (n + 1) = 2 * length packed)%nat); [done|].
    unfold n in *. by rewrite symmetrize_triangular_Raise in HM. }
  destruct (symmetrize_triangular_Ok packed Hn) as (M' & HM' & Hshape & Hent).
  fold n in Hshape, Hent. assert (M' = M) as -> by congruence.
  assert (n = p) as -> by (destruct Hshape; congruence).
  by destruct (Hent i j Hi Hj) as (_ & ? & _).
Qed.


(** Without an intercept the matrix is the symmetric table of the product
    moments alone and the right-hand side the feature-response moments. *)
Theorem construct_matrix_layout_plain (stats : series)
    (xs : list string) (XtX : matrix) (Xty : vector) :
  construct_matrix_from_elements (Series stats) xs false = Ok (XtX, Xty) →
  let n := length xs in
  is_shape n n XtX ∧ length Xty = n ∧
  (∀ i j, (i < n)%nat → (j < n)%nat →
     mget XtX i j = stats !! xx_col (i `min` j) (i `max` j)) ∧
  (∀ i, (i < n)%nat → Xty !! i = stats !! xy_col i).
Proof.
  intros Hcons n.
  destruct (construct_matrix_shape _ _ _ _ _ Hcons) as [Hp Hshape].
  destruct (construct_matrix_inv _ _ _ _ _ Hcons)
    as (elems & Helems & Hxty & HM). fold n in Helems, Hxty, Hp.
  pose proof (result_mapM_getitem_cases stats
    ([] ++ (seq 0 n ≫= λ i, xx_col i <$> seq i (n - i)))) as H1.
  rewrite Helems in H1. destruct H1 as [_ H1].
  pose proof (result_mapM_getitem_cases stats
    ([] ++ (xy_col <$> seq 0 n))) as H2.
  rewrite Hxty in H2. destruct H2 as [_ H2].
  simpl in Hp. rewrite Hp in Hshape. split_and!; [done|done| |].
  - intros i j Hi Hj.
    rewrite (symmetrize_triangular_entry _ _ n i j HM Hshape) by lia.
    apply H1. simpl. apply xx_cols_lookup. lia.
  - intros i Hi. apply H2. simpl.
    by rewrite list_lookup_fmap, lookup_seq_lt.
Qed.


Lemma construct_matrix_layout_plain_witness :
  is_shape 1 1 [[ #5]] ∧ [ #7] !! 0%nat = sample_stats !! xy_col 0.
Proof.
  destruct (construct_matrix_layout_plain sample_stats ["a"]
              [[ #5]] [ #7]) as (Hshape & _ & _ & Hxy); [compute_done|].
  split; [exact Hshape|]. apply (Hxy 0%nat). simpl. lia.
Defined.

(** ** [compute_ridge_coefs]: what is printed and what is returned *)

Lemma io_bind_out_lift {A B : Type} (r : result A) (f : A → io B) :
  (lift r ≫= f).1 = match r with Ok a => (f a).1 | Raise _ => [] end.
Proof. destruct r as [a|e]; [|done]. by rewrite io_bind_lift_Ok. Qed.

Lemma io_bind_silent_tail {A B : Type} (m : io A) (f : A → io B) :
  (∀ a, (f a).1 = []) → (m ≫= f).1 = m.1.
Proof.
  intros Hf. destruct m as [out [a|e]]; [|done].
  unfold mbind, io_bind. specialize (Hf a). destruct (f a) as [out' r].
  simpl in *. subst. apply app_nil_r.
Qed.

Lemma io_bind_Ok {A B : Type} (m : io A) (f : A → io B) (b : B) :
  (m ≫= f).2 = Ok b → ∃ a, m.2 = Ok a ∧ (f a).2 = Ok b.
Proof.
  destruct m as [out [a|e]]; [|done]. unfold mbind, io_bind.
  intros H. exists a. split; [done|]. by destruct (f a).
Qed.

Section ClosedFormOutput.
Variable solve : matrix → vector → result vector.
Variable cond : matrix → result cond_value.

Lemma warn_if_ill_conditioned_out (A : matrix) :
  (warn_if_ill_conditioned cond A).1 = [] ∨
  ∃ q, cond A = Ok (CondFinite q) ∧ #20 < q ∧
       (warn_if_ill_conditioned cond A).1
       = [CondWarning (Z.quot (Qnum q) (Z.pos (Qden q)))].
Proof.
  unfold warn_if_ill_conditioned.
  destruct (cond A) as [[q|]|e]; [|by left|by left].
  rewrite io_bind_lift_Ok. cbn [cond_gt_20]. unfold Qc_ltb.
  case_bool_decide as Hq; [|by left]. right. exists q.
  split_and!; [done|done|]. cbn [format_i]. by rewrite io_bind_lift_Ok.
Qed.

(** Whatever the statistics, the model and the outcome, at most one line is
    printed: the condition warning, and only for a matrix whose condition
    number is reported finite and above 20. *)
Theorem compute_ridge_coefs_prints_at_most_one_warning (f : frame)
    (xs : list string) (m : Model) :
  (compute_ridge_coefs solve cond f xs m).1 = [] ∨
  ∃ (A : matrix) (q : Qc),
    cond A = Ok (CondFinite q) ∧ #20 < q ∧
    (compute_ridge_coefs solve cond f xs m).1
    = [CondWarning (Z.quot (Qnum q) (Z.pos (Qden q)))].
Proof.
  assert (Htail : ∀ (A : matrix) (k : () → io coef_row),
            (∀ u, (k u).1 = []) →
            (warn_if_ill_conditioned cond A ≫= k).1 = [] ∨
            ∃ (A' : matrix) (q : Qc),
              cond A' = Ok (CondFinite q) ∧ #20 < q ∧
              (warn_if_ill_conditioned cond A ≫= k).1
              = [CondWarning (Z.quot (Qnum q) (Z.pos (Qden q)))]).
  { intros A k Hk. rewrite io_bind_silent_tail by done.
    destruct (warn_if_ill_conditioned_out A) as [?|(q & ? & ? & ?)];
      [by left|right; by exists A, q]. }
  unfold compute_ridge_coefs. rewrite io_bind_out_lift.
  destruct (match f with
            | DataFrame rows => iloc0 rows
            | Series row => Ok row
            end) as [stats|e]; [|by left].
  destruct (fit_intercept m && normalize m).
  - unfold compute_coef_for_normalize_ridge. rewrite io_bind_out_lift.
    destruct (result_mapM _ (seq 0 (length xs))) as [rows|e]; [|by left].
    rewrite io_bind_out_lift.
    destruct (symmetrize_triangular _) as [M|e]; [|by left].
    apply Htail. intros _. rewrite io_bind_out_lift.
    destruct (solve _ _) as [coef|e]; [|done].
    rewrite io_bind_out_lift. destruct (getattr stats "y"); [|done].
    rewrite io_bind_out_lift. destruct (result_mapM _ _); [|done].
    rewrite io_bind_out_lift. by destruct (dot coef _).
  - rewrite io_bind_out_lift.
    destruct (construct_matrix_from_elements _ _ _) as [[XtX Xty]|e];
      [|by left].
    rewrite io_bind_out_lift.
    destruct (match ridge_alpha m with
              | Some alpha => _
              | None => Ok XtX
              end) as [A|e]; [|by left].
    apply Htail. intros _. rewrite io_bind_out_lift.
    by destruct (solve _ _).
Qed.

(** A row that is returned is named after the features, in order, behind
    ["intercept"] when the model has one, and carries one value per name. *)
Theorem compute_ridge_coefs_row_names (f : frame) (xs : list string)
    (m : Model) (out : list output) (row : coef_row) :
  compute_ridge_coefs solve cond f xs m = (out, Ok row) →
  columns row = coef_names (fit_intercept m) xs ∧
  length (values row) = (length xs + if fit_intercept m then 1 else 0)%nat.
Proof.
  intros H. apply (f_equal snd) in H. simpl in H.
  assert (Hmake : ∀ coef names,
            make_coef_row coef names = Ok row →
            columns row = names ∧ length (values row) = length names).
  { intros coef names Hrow. unfold make_coef_row in Hrow.
    case_decide; [|done]. by injection Hrow as <-. }
  unfold compute_ridge_coefs in H.
  apply io_bind_Ok in H as (stats & _ & H).
  destruct (fit_intercept m && normalize m) eqn:Hbranch.
  - apply andb_true_iff in Hbranch as [-> _].
    unfold compute_coef_for_normalize_ridge in H.
    apply io_bind_Ok in H as (rows & _ & H).
    apply io_bind_Ok in H as (M & _ & H).
    apply io_bind_Ok in H as (? & _ & H).
    apply io_bind_Ok in H as (coef & _ & H).
    apply io_bind_Ok in H as (sy & _ & H).
    apply io_bind_Ok in H as (means & _ & H).
    apply io_bind_Ok in H as (d & _ & H).
    apply Hmake in H as [-> ->]. split; [done|].
    simpl. rewrite length_fmap. lia.
  - apply io_bind_Ok in H as ([XtX Xty] & _ & H).
    apply io_bind_Ok in H as (A & _ & H).
    apply io_bind_Ok in H as (? & _ & H).
    apply io_bind_Ok in H as (coef & _ & H).
    apply Hmake in H as [-> ->]. split; [done|].
    destruct (fit_intercept m); simpl; rewrite length_fmap; lia.
Qed.

End ClosedFormOutput.

Lemma compute_ridge_coefs_row_names_witness :
  columns {| columns := ["intercept"; "a"]; values := [ #3; #7] |}
  = ["intercept"; "a"].
Proof.
  destruct (compute_ridge_coefs_row_names unit_solve cond_one
              (Series sample_stats) ["a"] (with_cls sample_ridge Lasso) []
              {| columns := ["intercept"; "a"]; values := [ #3; #7] |})
    as [Hcols _]; [compute_done|exact Hcols].
Defined.

(** ** [newtons_method]: the shape of the iterates *)

Section NewtonInvariants.
Variable solve : matrix → vector → result vector.
Variable hess : matrix → list bool → result (list (option matrix)).
Variable grads : matrix → list bool → result (list (option vector)).
Variable tol : Qc.

Lemma newton_slice_shape (h : list (option matrix))
    (j : list (option vector)) (n k : nat) (st st' : matrix * list bool)
    (i : nat) :
  newton_slice solve tol h j st i = Ok st' →
  is_shape n k st.1 → is_shape n k st'.1 ∧ length st'.2 = length st.2.
Proof.
  destruct st as [coef conv], st' as [coef' conv']. intros H [Hn Hk].
  apply newton_slice_at in H
    as [(_ & -> & ->)|(_ & hi & ji & delta & mx & ci & H)]; [done|].
  destruct H as (_ & _ & _ & _ & Hci & Hlen & -> & ->). simpl. split.
  - split; [by rewrite length_insert|].
    apply Forall_insert; [done|].
    rewrite length_zip_with, <- Hlen, Nat.min_id.
    rewrite Forall_lookup in Hk. eauto.
  - destruct (Qc_ltb mx tol); [|done]. by rewrite length_insert.
Qed.

Lemma newton_iter_shape (n k : nat) (st st' : matrix * list bool) :
  newton_iter solve hess grads tol st = Ok st' →
  is_shape n k st.1 → is_shape n k st'.1 ∧ length st'.2 = length st.2.
Proof.
  destruct st as [coef conv]. unfold newton_iter. intros H.
  apply result_bind_Ok in H as (h & _ & H).
  apply result_bind_Ok in H as (j & _ & H).
  revert H. generalize (seq 0 (length coef)). intros l.
  change conv with (coef, conv).2 at 2. change coef with (coef, conv).1 at 2.
  generalize (coef, conv). intros st. revert st.
  induction l as [|i l IH]; intros st H Hshape; simpl in H.
  - by injection H as <-.
  - apply result_bind_Ok in H as (st1 & H1 & H).
    destruct (newton_slice_shape h j n k st st1 i H1 Hshape) as [Hs1 <-].
    by apply IH.
Qed.

Lemma newton_iterate_shape (t n k : nat) (st st' : matrix * list bool) :
  newton_iterate solve hess grads tol t st = Ok st' →
  is_shape n k st.1 → is_shape n k st'.1 ∧ length st'.2 = length st.2.
Proof.
  revert st'. induction t as [|t IH]; intros st' H Hshape; simpl in H.
  - by injection H as <-.
  - apply result_bind_Ok in H as (st1 & H1 & H).
    destruct (IH _ H1 Hshape) as [Hs1 <-].
    by apply (newton_iter_shape n k st1 st').
Qed.

Lemma warn_not_converged_Ok (conds : list slice_key)
    (st : matrix * list bool) (out : list output) (res : matrix) :
  warn_not_converged conds st = (out, Ok res) →
  res = st.1 ∧ ∃ w, out = [w].
Proof.
  destruct st as [coef conv].
  destruct (warn_not_converged_cases conds coef conv)
    as [(_ & ->)|[(_ & _ & ->)|(_ & _ & ->)]]; intros [= <- <-]; eauto.
Qed.

(** The iterate that is returned has the shape of the starting point: one
    row per slice, one entry per coefficient. *)
Theorem newtons_method_keeps_shape (coef : matrix) (max_iter : Z)
    (conds : list slice_key) (n k : nat) (out : list output) (res : matrix) :
  is_shape n k coef →
  newtons_method solve hess grads tol coef max_iter conds = (out, Ok res) →
  is_shape n k res.
Proof.
  intros Hshape Hrun. unfold newtons_method in Hrun.
  destruct (newton_loop_spec solve hess grads tol (Z.to_nat max_iter) conds
              (coef, replicate (length coef) false)) as (t & _ & _ & Hend).
  destruct (newton_iterate solve hess grads tol t _) as [st'|e] eqn:Ht.
  - apply (newton_iterate_shape t n k) in Ht as [Hs _]; [|done].
    destruct Hend as [(_ & _ & Hr)|(_ & _ & Hr)]; rewrite Hr in Hrun.
    + by injection Hrun as <- <-.
    + apply warn_not_converged_Ok in Hrun as [-> _]. done.
  - destruct Hend as [_ Hr]. by rewrite Hr in Hrun.
Qed.

End NewtonInvariants.

Lemma newtons_method_keeps_shape_witness :
  is_shape 1 1 [[- (1)]].
Proof.
  apply (newtons_method_keeps_shape unit_solve unit_hess unit_grads
           (1 / #10000) [[0]] 1 [["a"]] 1 1 [NotConverged] [[- (1)]]).
  - split; [done|]. by repeat constructor.
  - compute_done.
Defined.

(** ** [compute_through_sql]: the pushdown mode and the possible outcomes *)

Section ModelFacadeOutcomes.
Variable Table : Type.
Variable sql_where : Table → string → Table.
Variable all_computable_in_pure_sql : Model → bool.
Variable compute_on_sql_magic_mode :
  Model → Table → list string → io fit_result.
Variable apply_name_tmpl : string → fit_result → result fit_result.

Lemma supported_mode_cases (mode : option string) :
  mode ∈ [None; Some "sql"; Some "mixed"; Some "magic"] →
  mode = None ∨ mode = Some "sql" ∨ mode = Some "mixed" ∨ mode = Some "magic".
Proof. set_solver. Qed.

(** With mode ['magic'] the local path is never taken, whatever
    [compute_on_sql_mixed_mode] is.  If some descendant is not computable in
    SQL, [ValueError] is raised before anything runs.  Otherwise the
    pushdown method runs on the filtered table and its result is renamed
    with the name template; an exception of either step, of whatever class,
    reaches the caller as [MaybeBadSqlModeError('mixed')] chained to it, and
    what was printed before stays printed. *)
Theorem compute_through_sql_magic (m : Model) (table : Table)
    (split_by : list string)
    (mixed mixed' : Model → Table → list string → option string
                    → io fit_result) :
  let run := compute_through_sql Table sql_where all_computable_in_pure_sql
               mixed compute_on_sql_magic_mode apply_name_tmpl m table
               split_by (Some "magic") in
  let run' := compute_through_sql Table sql_where all_computable_in_pure_sql
                mixed' compute_on_sql_magic_mode apply_name_tmpl m table
                split_by (Some "magic") in
  run = run' ∧
  if all_computable_in_pure_sql m
  then
    let fitted := compute_on_sql_magic_mode m
                    (filtered_table Table sql_where m table) split_by in
    run = (fitted.1,
           match fitted.2 with
           | Ok res =>
               match apply_name_tmpl (name_tmpl m) res with
               | Ok named => Ok (Some named)
               | Raise e => Raise (MaybeBadSqlModeError "mixed" (Some e))
               end
           | Raise e => Raise (MaybeBadSqlModeError "mixed" (Some e))
           end)
  else
    ∃ msg, run = ([], Raise (ValueError msg)).
Proof.
  intros run run'. split; [done|]. unfold run, compute_through_sql.
  cbn [negb bool_decide decide_rel].
  rewrite bool_decide_eq_true_2 by set_solver. cbn [negb].
  rewrite (bool_decide_eq_false_2 (Some "magic" = Some "sql")) by done.
  rewrite (bool_decide_eq_true_2 (Some "magic" = Some "magic")) by done.
  destruct (all_computable_in_pure_sql m); cbn [negb andb]; [|by eexists].
  rewrite (bool_decide_eq_false_2 (Some "magic" = Some "mixed")) by done.
  rewrite bool_decide_eq_false_2 by (by intros [|]). cbn [orb].
  destruct (compute_on_sql_magic_mode m _ split_by) as [out [res|e]];
    cbn [fst snd];
    [|unfold catch, mbind, io_bind, lift; cbn; by rewrite app_nil_r].
  unfold catch, mbind, io_bind, mret, io_ret, lift; cbn.
  destruct (apply_name_tmpl (name_tmpl m) res); cbn;
    by rewrite ?app_nil_r.
Qed.

(** Whatever the mode and the methods of the model do, a call never falls
    off the end: it returns a fitted result, never [None], or raises
    [ValueError] or [MaybeBadSqlModeError] and no other class of
    exception. *)
Theorem compute_through_sql_outcomes (m : Model) (table : Table)
    (split_by : list string) (mode : option string)
    (mixed : Model → Table → list string → option string → io fit_result) :
  match (compute_through_sql Table sql_where all_computable_in_pure_sql
           mixed compute_on_sql_magic_mode apply_name_tmpl m table
           split_by mode).2 with
  | Ok r => ∃ res, r = Some res
  | Raise e =>
      (∃ msg, e = ValueError msg) ∨
      (∃ use_mode cause, e = MaybeBadSqlModeError use_mode cause)
  end.
Proof.
  unfold compute_through_sql.
  destruct (bool_decide (mode ∈ _)) eqn:Hmode; cbn [negb];
    [|left; by eexists].
  apply bool_decide_eq_true_1, supported_mode_cases in Hmode.
  destruct (bool_decide (mode = Some "sql")) eqn:Hsql;
    [left; by eexists|].
  apply bool_decide_eq_false_1 in Hsql.
  destruct (bool_decide (mode = Some "magic")) eqn:Hmagic.
  - apply bool_decide_eq_true_1 in Hmagic as ->.
    destruct (all_computable_in_pure_sql m); cbn [negb andb];
      [|left; by eexists].
    rewrite (bool_decide_eq_false_2 (Some "magic" = Some "mixed")) by done.
    rewrite bool_decide_eq_false_2 by (by intros [|]). cbn [orb].
    destruct (compute_on_sql_magic_mode m _ split_by) as [out [res|e]];
      [|right; by eexists _, _].
    unfold catch, mbind, io_bind, mret, io_ret, lift; cbn.
    destruct (apply_name_tmpl (name_tmpl m) res); cbn;
      [by eexists|right; by eexists _, _].
  - apply bool_decide_eq_false_1 in Hmagic. cbn [andb].
    assert (Hm : mode = None ∨ mode = Some "mixed") by naive_solver.
    assert (bool_decide (mode = Some "mixed")
            || bool_decide (mode = None ∨ mode = Some "") = true) as ->.
    { destruct Hm as [->| ->]; [|done].
      apply orb_true_iff. right. apply bool_decide_eq_true_2. by left. }
    destruct (mixed m _ split_by mode) as [out [res|e]];
      [by eexists|].
    unfold catch, mbind, io_bind, lift; destruct e; cbn; right;
      by eexists _, _.
Qed.

End ModelFacadeOutcomes.

(** ** [count_features]: the exceptions it can raise *)

Lemma Metric_children_ind (P : Metric → Prop) :
  (∀ k, P (ModelMetric k)) →
  (∀ children, Forall P children → P (MetricList children)) →
  (∀ confidence children,
     Forall P children → P (MetricWithCI confidence children)) →
  (∀ children, Forall P children → P (Operation children)) →
  (∀ children, Forall P children → P (CompositeMetric children)) →
  (∀ one_quantile quantile, P (Quantile one_quantile quantile)) →
  P SimpleMetric →
  ∀ m, P m.
Proof.
  intros Hmodel Hlist Hci Hop Hcomp Hq Hsimple.
  fix IH 1. intros m.
  assert (Hall : ∀ children, Forall P children).
  { fix IHl 1. intros [|c children]; constructor; [apply IH|apply IHl]. }
  destruct m as [k|cs|c cs|cs|cs|b q|];
    [apply Hmodel|apply Hlist|apply Hci|apply Hop|apply Hcomp|apply Hq
    |apply Hsimple]; apply Hall.
Qed.

Lemma result_mapM_Raise {A B : Type} (f : A → result B) (l : list A)
    (e : exn) :
  result_mapM f l = Raise e → ∃ x, x ∈ l ∧ f x = Raise e.
Proof.
  induction l as [|x l IH]; intros H; simpl in H; [done|].
  destruct (f x) as [y|e'] eqn:Hx; simpl in H.
  - destruct (result_mapM f l) as [ys|e'']; simpl in H; [done|].
    destruct IH as (x' & Hin & Hx'); [done|].
    exists x'. split; [by right|done].
  - injection H as ->. exists x. split; [by left|done].
Qed.

(** Whatever the metric tree, the width computation can fail in two ways
    only: [IndexError], from the first child of an operation that has no
    children, and the [ValueError] of [max] on the empty list of children of
    a composite metric. *)
Theorem count_features_raises_only (m : Metric) (e : exn) :
  count_features m = Raise e →
  e = IndexError ∨ e = ValueError "max() arg is an empty sequence".
Proof.
  revert e. induction m as [k|cs IH|c cs IH|cs IH|cs IH|b q|]
    using Metric_children_ind; intros e H; cbn [count_features] in H.
  - done.
  - destruct (result_mapM count_features cs) as [ns|e'] eqn:Hcs;
      simpl in H; [done|]. injection H as ->.
    apply result_mapM_Raise in Hcs as (x & Hin & Hx).
    rewrite Forall_forall in IH. by apply (IH x).
  - destruct cs as [|c' cs]; [injection H as <-; by left|].
    apply Forall_cons in IH as [IH _].
    destruct (count_features c') as [n|e'] eqn:Hc; simpl in H; [done|].
    injection H as ->. by apply IH.
  - destruct cs as [|c' cs]; [injection H as <-; by left|].
    apply Forall_cons in IH as [IH _]. by apply IH.
  - destruct (result_mapM count_features cs) as [ns|e'] eqn:Hcs;
      simpl in H.
    + destruct ns; [injection H as <-; by right|done].
    + injection H as ->.
      apply result_mapM_Raise in Hcs as (x & Hin & Hx).
      rewrite Forall_forall in IH. by apply (IH x).
  - by destruct b.
  - done.
Qed.

Lemma count_features_raises_only_witness :
  IndexError = IndexError
  ∨ IndexError = ValueError "max() arg is an empty sequence".
Proof.
  apply (count_features_raises_only
           (MetricList [SimpleMetric; Operation []]) IndexError).
  reflexivity.
Defined.

(** ** [compute_grads_and_hess]: gradients and Hessians by slice *)

Lemma slice_gradients_spec (k : nat) (converged : list bool)
    (values rest : list Qc) (gs : list (option vector)) :
  slice_gradients k converged values = (gs, rest) →
  (length rest ≤ length values)%nat ∧
  length gs = length converged ∧
  ∀ i,
    (converged !! i = Some true → gs !! i = Some None) ∧
    (converged !! i = Some false →
     ∃ g, gs !! i = Some (Some g) ∧ (rest ≠ [] → length g = k)).
Proof.
  revert values gs. induction converged as [|b conv IH]; intros values gs H;
    simpl in H.
  - injection H as <- <-. split_and!; [done|done|]. by intros i.
  - destruct b.
    + destruct (slice_gradients k conv values) as [gs' rest'] eqn:Hrec.
      injection H as <- <-.
      destruct (IH _ _ Hrec) as (Hle & Hlen & Hi).
      split_and!; [done|by simpl; rewrite Hlen|].
      intros [|i]; [by split|]. apply Hi.
    + destruct (slice_gradients k conv (drop k values)) as [gs' rest']
        eqn:Hrec.
      injection H as <- <-.
      destruct (IH _ _ Hrec) as (Hle & Hlen & Hi).
      rewrite length_drop in Hle.
      split_and!; [lia|by simpl; rewrite Hlen|].
      intros [|i]; [|apply Hi]. split; [done|]. intros _.
      exists (take k values). split; [done|]. intros Hrest.
      rewrite length_take. destruct rest'; [done|]. simpl in Hle. lia.
Qed.

Lemma chunks_rows (fuel w : nat) (values : list Qc) :
  (0 < w)%nat → (length values ≤ fuel)%nat → (length values mod w = 0)%nat →
  Forall (λ row, length row = w) (chunks fuel w values).
Proof.
  intros Hw. revert values.
  induction fuel as [|fuel IH]; intros values Hfuel Hmod; [done|].
  destruct values as [|v values]; [done|]. cbn [chunks].
  assert (Hge : (w ≤ length (v :: values))%nat).
  { apply Nat.Div0.mod_divides in Hmod as [c Hc]. rewrite Hc.
    simpl in Hc. destruct c; [lia|nia]. }
  constructor.
  - rewrite length_take. lia.
  - apply IH.
    + rewrite length_drop. simpl in *. lia.
    + rewrite length_drop.
      apply Nat.Div0.mod_divides in Hmod as [c Hc]. rewrite Hc.
      apply Nat.Div0.mod_divides. exists (c - 1)%nat.
      rewrite Hc in Hge. destruct c; [lia|]. simpl. nia.
Qed.

Lemma reshape_rows_Ok (w : nat) (values : list Qc) (rows : list (list Qc)) :
  reshape_rows w values = Ok rows →
  Forall (λ row, length row = w) rows ∧ (values = [] → rows = []).
Proof.
  unfold reshape_rows. destruct (decide _) as [|Hok]; [done|].
  intros [= <-]. split.
  - apply chunks_rows; [lia|done|lia].
  - intros ->. done.
Qed.

Lemma slice_hessians_spec (w : nat) (converged : list bool)
    (rows : list (list Qc)) (hs : list (option matrix)) :
  Forall (λ row, length row = w) rows →
  slice_hessians converged rows = Ok hs →
  length hs = length converged ∧
  ∀ i,
    (converged !! i = Some true → hs !! i = Some None) ∧
    (converged !! i = Some false →
     rows ≠ [] ∧
     ∃ packed h, hs !! i = Some (Some h) ∧ length packed = w ∧
                 symmetrize_triangular packed = Ok h).
Proof.
  revert rows hs. induction converged as [|b conv IH]; intros rows hs Hw H;
    simpl in H.
  - injection H as <-. split; [done|]. by intros i.
  - destruct b.
    + apply result_bind_Ok in H as (hs' & Hrec & [= <-]).
      destruct (IH _ _ Hw Hrec) as [Hlen Hi].
      split; [by simpl; rewrite Hlen|].
      intros [|i]; [by split|]. apply Hi.
    + destruct rows as [|packed rows]; [done|].
      apply Forall_cons in Hw as [Hp Hw].
      apply result_bind_Ok in H as (h & Hh & H).
      apply result_bind_Ok in H as (hs' & Hrec & [= <-]).
      destruct (IH _ _ Hw Hrec) as [Hlen Hi].
      split; [by simpl; rewrite Hlen|].
      intros [|i].
      * split; [done|]. intros _. split; [done|]. by exists packed, h.
      * split; [apply Hi|]. intros Hc. split; [done|].
        by apply Hi in Hc as [_ ?].
Qed.

Section GradsAndHess.
Variable Table : Type.
Variable grads_and_hess_query :
  Model → logistic_params → Table → list string → list string →
  list slice_key → matrix → list bool → result (list Qc).

(** When a pass over the engine succeeds, the gradients and the Hessians
    line up with the slices: a slice that has converged gets [None] for
    both, and a slice that has not gets a gradient of [k] entries and a
    [k]-by-[k] Hessian, [k] being the number of coefficients of a slice. *)
Theorem compute_grads_and_hess_aligned (m : Model) (p : logistic_params)
    (table : Table) (xs split_by : list string) (conds : list slice_key)
    (coef : matrix) (converged : list bool) (coef0 : vector)
    (grads : list (option vector)) (hess : list (option matrix)) :
  coef !! 0%nat = Some coef0 →
  compute_grads_and_hess Table grads_and_hess_query m p table xs split_by
    conds coef converged = Ok (grads, hess) →
  length grads = length converged ∧ length hess = length converged ∧
  ∀ i,
    (converged !! i = Some true →
     grads !! i = Some None ∧ hess !! i = Some None) ∧
    (converged !! i = Some false →
     ∃ g h, grads !! i = Some (Some g) ∧ hess !! i = Some (Some h) ∧
            length g = length coef0 ∧
            is_shape (length coef0) (length coef0) h).
Proof.
  intros Hcoef0 H. unfold compute_grads_and_hess in H.
  apply index_Ok in Hcoef0. rewrite Hcoef0 in H. cbn [mbind result_bind] in H.
  set (k := length coef0) in *.
  apply result_bind_Ok in H as (values & _ & H).
  destruct (slice_gradients k converged values) as [gs rest] eqn:Hgs.
  apply result_bind_Ok in H as (rows & Hrows & H).
  apply result_bind_Ok in H as (hs & Hhs & [= <- <-]).
  apply slice_gradients_spec in Hgs as (_ & Hlg & Hg).
  apply reshape_rows_Ok in Hrows as [Hw Hempty].
  apply (slice_hessians_spec _ _ _ _ Hw) in Hhs as [Hlh Hh].
  split_and!; [done|done|]. intros i. split.
  - intros Hc. split; [by apply Hg|by apply Hh].
  - intros Hc.
    destruct (Hg i) as [_ (g & Hgi & Hglen)]; [done|].
    destruct (Hh i) as [_ (Hne & packed & h & Hhi & Hplen & Hsym)]; [done|].
    exists g, h. split_and!; [done|done| |].
    + apply Hglen. intros ->. by apply Hne, Hempty.
    + apply symmetrize_triangular_shape in Hsym.
      rewrite (sqrt_triangular k (length packed)) in Hsym; [done|].
      rewrite Hplen. symmetry. apply even_consecutive.
Qed.

End GradsAndHess.

Lemma compute_grads_and_hess_aligned_witness :
  length [Some [ #1]; None] = 2%nat ∧ length [Some [[ #2]]; None] = 2%nat ∧
  ∀ i,
    ([false; true] !! i = Some true →
     [Some [ #1]; None] !! i = Some None
     ∧ [Some [[ #2]]; None] !! i = Some None) ∧
    ([false; true] !! i = Some false →
     ∃ g h, [Some [ #1]; None] !! i = Some (Some g)
            ∧ [Some [[ #2]]; None] !! i = Some (Some h)
            ∧ length g = 1%nat ∧ is_shape 1 1 h).
Proof.
  apply (compute_grads_and_hess_aligned ()
           (λ _ _ _ _ _ _ _ _, Ok [ #1; #2]) sample_ridge
           elasticnet_l1_ratio_0 () ["a"] ["g"] [["u"]; ["v"]]
           [[0]; [0]] [false; true] [0]).
  - reflexivity.
  - compute_done.
Defined.

(** ** The fit of a single slice by [LogisticRegression] *)

Lemma io_bind_pair {A B : Type} (out : list output) (a : A) (f : A → io B) :
  ((out, Ok a) ≫= f) = (out ++ (f a).1, (f a).2).
Proof. unfold mbind, io_bind. by destruct (f a). Qed.

Lemma newtons_method_Ok_iterate (solve : matrix → vector → result vector)
    (hess : matrix → list bool → result (list (option matrix)))
    (grads : matrix → list bool → result (list (option vector)))
    (tol : Qc) (coef : matrix) (max_iter : Z) (conds : list slice_key)
    (out : list output) (res : matrix) :
  newtons_method solve hess grads tol coef max_iter conds = (out, Ok res) →
  ∃ t conv,
    newton_iterate solve hess grads tol t
      (coef, replicate (length coef) false) = Ok (res, conv).
Proof.
  intros Hrun. unfold newtons_method in Hrun.
  destruct (newton_loop_spec solve hess grads tol (Z.to_nat max_iter) conds
              (coef, replicate (length coef) false)) as (t & _ & _ & Hend).
  exists t.
  destruct (newton_iterate solve hess grads tol t _) as [[c v]|e] eqn:Ht.
  - exists v. destruct Hend as [(_ & _ & Hr)|(_ & _ & Hr)];
      rewrite Hr in Hrun.
    + by injection Hrun as <- <-.
    + apply warn_not_converged_Ok in Hrun as [-> _]. done.
  - destruct Hend as [_ Hr]. by rewrite Hr in Hrun.
Qed.

Section LogisticSingleSlice.
Variable solve : matrix → vector → result vector.
Variable Table : Type.
Variable y_nunique : string → list string → Table → result nat.
Variable get_data_xs : Model → Table → list string → result (list string).
Variable distinct_slices : Table → list string → result (list slice_key).
Variable grads_and_hess_query :
  Model → logistic_params → Table → list string → list string →
  list slice_key → matrix → list bool → result (list Qc).

(** Without [split_by], when the checks pass, the response has two classes
    and Newton's method returns, the fit is one row.  Its columns are the
    cleaned names of the features, and with an intercept the constant
    column ['1'], appended last for the optimization, comes back first
    under the name ['intercept'], with its own coefficient.  What the
    checks and the optimization printed is printed in that order. *)
Theorem logistic_single_slice_fit (m : Model) (p : logistic_params)
    (table : Table) (xs : list string) (out1 out2 : list output)
    (res : matrix) :
  check_magic_preconditions p = (out1, Ok ()) →
  y_nunique (y m) (group_by m) table = Ok 2%nat →
  get_data_xs m table [] = Ok xs →
  let names := if fit_intercept m then xs ++ ["1"] else xs in
  let both coef converged :=
    compute_grads_and_hess Table grads_and_hess_query m p table names [] []
      coef converged in
  newtons_method solve (λ coef converged, snd <$> both coef converged)
    (λ coef converged, fst <$> both coef converged) (lr_tol p)
    (zeros 1 (length names)) (lr_max_iter p) [] = (out2, Ok res) →
  let run := LogisticRegression_compute_on_sql_magic_mode solve Table
               y_nunique get_data_xs distinct_slices grads_and_hess_query
               m p table [] in
  if fit_intercept m
  then ∃ coefs b,
         res = [coefs ++ [b]] ∧ length coefs = length xs ∧
         run = (out1 ++ out2,
                Ok (SingleFit {| columns := "intercept" :: (clean_name <$> xs);
                                 values := b :: coefs |}))
  else ∃ coefs,
         res = [coefs] ∧ length coefs = length xs ∧
         run = (out1 ++ out2,
                Ok (SingleFit {| columns := clean_name <$> xs;
                                 values := coefs |})).
Proof.
  intros Hcheck Hny Hxs names both Hnewton run.
  assert (Hshape : is_shape 1 (length names) res).
  { apply newtons_method_Ok_iterate in Hnewton as (t & conv & Hit).
    apply (newton_iterate_shape _ _ _ _ t 1 (length names)) in Hit as [? _];
      [done|apply zeros_shape]. }
  destruct Hshape as [Hone Hrow].
  destruct res as [|c0 [|? ?]]; [done| |done].
  rewrite Forall_singleton in Hrow.
  unfold run, LogisticRegression_compute_on_sql_magic_mode.
  rewrite Hcheck, io_bind_pair, Hny, io_bind_lift_Ok.
  rewrite decide_False by (by intros H; apply H).
  rewrite Hxs, io_bind_lift_Ok. cbv beta iota zeta.
  rewrite io_bind_lift_Ok. cbv beta iota zeta.
  unfold both, names in Hnewton, Hrow.
  destruct (fit_intercept m).
  - rewrite Hnewton, io_bind_pair. cbn [fst snd].
    destruct c0 as [|b coefs _] using rev_ind;
      [rewrite length_app in Hrow; simpl in Hrow; lia|].
    exists coefs, b. rewrite !length_app in Hrow. simpl in Hrow.
    assert (Hlen : length coefs = length xs) by lia.
    split_and!; [done|done|].
    unfold index. cbn [lookup list_lookup]. rewrite io_bind_lift_Ok.
    unfold last_first. rewrite last_snoc, removelast_last.
    cbn [mbind result_bind]. rewrite io_bind_lift_Ok. cbn [fst snd].
    rewrite fmap_app. cbn [fmap list_fmap]. rewrite removelast_last.
    unfold make_coef_row. rewrite decide_True
      by (simpl; rewrite length_fmap; lia).
    rewrite io_bind_lift_Ok. cbn. by rewrite app_nil_r.
  - rewrite Hnewton, io_bind_pair. cbn [fst snd].
    exists c0. split_and!; [done|done|].
    unfold index. cbn [lookup list_lookup]. rewrite !io_bind_lift_Ok.
    cbn [fst snd].
    unfold make_coef_row. rewrite decide_True by (by rewrite length_fmap).
    rewrite io_bind_lift_Ok. cbn. by rewrite app_nil_r.
Qed.

End LogisticSingleSlice.

Lemma logistic_single_slice_fit_witness :
  ∃ coefs b,
    [[ #3; #5]] = [coefs ++ [b]] ∧ length coefs = length ["a"] ∧
    LogisticRegression_compute_on_sql_magic_mode unit_solve ()
      (λ _ _ _, Ok 2%nat) (λ _ _ _, Ok ["a"]) (λ _ _, Ok []) shifted_query
      sample_ridge default_logistic () []
    = ([] ++ [],
       Ok (SingleFit {| columns := "intercept" :: (clean_name <$> ["a"]);
                        values := b :: coefs |})).
Proof.
  apply (logistic_single_slice_fit unit_solve () (λ _ _ _, Ok 2%nat)
           (λ _ _ _, Ok ["a"]) (λ _ _, Ok []) shifted_query sample_ridge
           default_logistic () ["a"] [] [] [[ #3; #5]]).
  - reflexivity.
  - reflexivity.
  - reflexivity.
  - compute_done.
Defined.

(** ** The Hessian positions that carry the L2 penalty *)

Lemma cumsum_row_starts (n i c : nat) :
  (i + c ≤ n)%nat →
  cumsum_from (Z.of_nat (row_start n i))
    ((λ t, Z.of_nat n - Z.of_nat t)%Z <$> seq i c)
  = (λ t, Z.of_nat (row_start n (S t))) <$> seq i c.
Proof.
  revert i. induction c as [|c IH]; intros i Hic; [done|].
  cbn [seq fmap list_fmap cumsum_from].
  assert (Hstep : (Z.of_nat (row_start n i) + (Z.of_nat n - Z.of_nat i))%Z
                  = Z.of_nat (row_start n (S i))).
  { rewrite row_start_S by lia. lia. }
  rewrite Hstep. f_equal. apply IH. lia.
Qed.

Lemma packed_index_inj (n i j i' j' : nat) :
  (i ≤ j < n)%nat → (i' ≤ j' < n)%nat →
  packed_index n i j = packed_index n i' j' → i = i' ∧ j = j'.
Proof.
  intros Hij Hij' Heq.
  pose proof (triu_indices_lookup n i j Hij) as H1.
  pose proof (triu_indices_lookup n i' j' Hij') as H2.
  rewrite Heq in H1. rewrite H1 in H2. by injection H2.
Qed.

(** The positions penalized are the packed positions of the diagonal
    entries of the first [k] coefficients (of the first one also when [k]
    is 0): those, and no other entry of the Hessian that
    [symmetrize_triangular] rebuilds, carry the L2 term, and the intercept,
    which comes last, does not. *)
Theorem hess_diag_idx_diagonal (n k : nat) :
  (k ≤ n)%nat →
  hess_diag_idx n k
  = (λ i, Z.of_nat (packed_index n i i)) <$> seq 0 (k `max` 1) ∧
  ∀ i j, (i < n)%nat → (j < n)%nat →
    Z.of_nat (packed_index n (i `min` j) (i `max` j)) ∈ hess_diag_idx n k
    ↔ i = j ∧ (i < k `max` 1)%nat.
Proof.
  intros Hk.
  assert (Heq : hess_diag_idx n k
                = (λ i, Z.of_nat (packed_index n i i)) <$> seq 0 (k `max` 1)).
  { unfold hess_diag_idx, cumsum, arange_down.
    replace (Z.to_nat (Z.of_nat n - (Z.of_nat n - Z.of_nat k + 1)))
      with (k `max` 1 - 1)%nat by lia.
    replace (k `max` 1)%nat with (S (k `max` 1 - 1)) at 2 by lia.
    change 0%Z with (Z.of_nat (row_start n 0)) at 2.
    rewrite (cumsum_row_starts n 0 (k `max` 1 - 1)) by lia.
    cbn [seq fmap list_fmap]. rewrite packed_index_first_row.
    change (Z.of_nat 0) with 0%Z. f_equal.
    rewrite <- fmap_S_seq, <- list_fmap_compose.
    apply list_fmap_ext. intros _ t _. simpl. unfold packed_index.
    f_equal. lia. }
  split; [done|]. intros i j Hi Hj. rewrite Heq, list_elem_of_fmap. split.
  - intros (t & Ht & Hin). apply elem_of_seq in Hin.
    apply Nat2Z.inj in Ht.
    apply packed_index_inj in Ht; [lia|lia|lia].
  - intros [<- Hlt]. exists i. split; [|apply elem_of_seq; lia].
    by rewrite Nat.min_id, Nat.max_id.
Qed.

Lemma hess_diag_idx_diagonal_witness :
  hess_diag_idx 3 2 = [0; 3]%Z.
Proof.
  destruct (hess_diag_idx_diagonal 3 2) as [H _]; [lia|]. exact H.
Defined.

(** ** Models without a pushdown method *)

Section NoPushdown.
Variable solve : matrix → vector → result vector.
Variable cond : matrix → result cond_value.
Variable Table : Type.
Variable sql_where : Table → string → Table.
Variable all_computable_in_pure_sql : Model → bool.
Variable compute_on_sql_mixed_mode :
  Model → Table → list string → option string → io fit_result.
Variable apply_name_tmpl : string → fit_result → result fit_result.
Variable sufficient_stats_query :
  string → list string → list string → bool →
  Table → list string → bool → bool → result (list string * list series).
Variable groupby_apply :
  list series → list string → (frame → io coef_row) → io fit_result.
Variable y_nunique : string → list string → Table → result nat.
Variable get_data_xs : Model → Table → list string → result (list string).
Variable distinct_slices : Table → list string → result (list slice_key).
Variable grads_and_hess_query :
  Model → logistic_params → Table → list string → list string →
  list slice_key → matrix → list bool → result (list Qc).

(** [Lasso] and [ElasticNet] define no pushdown method, so mode ['magic']
    never gives them a fit and sends nothing to the engine: when every
    descendant is computable in SQL the caller gets
    [MaybeBadSqlModeError('mixed')] chained to the [NotImplementedError] of
    [Model], and otherwise the [ValueError] of the mode check. *)
Theorem magic_mode_not_implemented (m : Model) (table : Table)
    (split_by : list string) :
  cls m = Lasso ∨ cls m = ElasticNet →
  compute_through_sql Table sql_where all_computable_in_pure_sql
    compute_on_sql_mixed_mode
    (Model_compute_on_sql_magic_mode solve cond Table sufficient_stats_query
       groupby_apply y_nunique get_data_xs distinct_slices
       grads_and_hess_query)
    apply_name_tmpl m table split_by (Some "magic")
  = ([], Raise
           (if all_computable_in_pure_sql m
            then MaybeBadSqlModeError "mixed" (Some NotImplementedError)
            else ValueError
                   ("The " +:+ dquote +:+ "magic" +:+ dquote +:+ " mode of "
                    +:+ name m
                    +:+ " requires all descendants to be computable in SQL!"))).
Proof.
  intros Hcls. unfold compute_through_sql.
  rewrite bool_decide_eq_true_2 by set_solver. cbn [negb].
  rewrite (bool_decide_eq_false_2 (Some "magic" = Some "sql")) by done.
  rewrite (bool_decide_eq_true_2 (Some "magic" = Some "magic")) by done.
  destruct (all_computable_in_pure_sql m); cbn [negb andb]; [|done].
  rewrite (bool_decide_eq_false_2 (Some "magic" = Some "mixed")) by done.
  rewrite bool_decide_eq_false_2 by (by intros [|]). cbn [orb].
  unfold Model_compute_on_sql_magic_mode.
  by destruct Hcls as [-> | ->].
Qed.

End NoPushdown.

Lemma magic_mode_not_implemented_witness :
  compute_through_sql () (λ t _, t) (λ _, true) failing_mixed_mode
    (Model_compute_on_sql_magic_mode unit_solve cond_one () sample_query
       no_groupby (λ _ _ _, Ok 2%nat) (λ _ _ _, Ok ["a"]) (λ _ _, Ok [])
       shifted_query)
    keep_names (with_cls sample_ridge Lasso) () [] (Some "magic")
  = ([], Raise (MaybeBadSqlModeError "mixed" (Some NotImplementedError))).
Proof.
  apply (magic_mode_not_implemented unit_solve cond_one () (λ t _, t)
           (λ _, true) failing_mixed_mode keep_names sample_query no_groupby
           (λ _ _ _, Ok 2%nat) (λ _ _ _, Ok ["a"]) (λ _ _, Ok [])
           shifted_query (with_cls sample_ridge Lasso) () []).
  by left.
Defined.

(** ** The outcome of the checks of the logistic pushdown path *)

(** The checks pass exactly when [class_weight] is unset or empty,
    [multi_class] is not ['multinomial'], [intercept_scaling] is 1 and, for
    the elasticnet penalty, [l1_ratio] is a number other than 0 in
    [[0, 1]].  They then print the L1 warning for the penalties ['l1'] and
    ['elasticnet'] and nothing for any other; when they fail they raise
    [ValueError] and print nothing. *)
Theorem check_magic_preconditions_outcome (p : logistic_params) :
  let accepted :=
    class_weight_set (class_weight p) = false ∧
    multi_class p ≠ "multinomial" ∧
    (penalty p = "elasticnet" →
     ∃ r, l1_ratio p = Some r ∧ r ≠ 0 ∧ 0 <= r ∧ r <= 1) ∧
    intercept_scaling p = 1 in
  match check_magic_preconditions p with
  | (out, Ok _) =>
      accepted ∧
      out = if bool_decide (penalty p = "l1" ∨ penalty p = "elasticnet")
            then [L1Warning] else []
  | (out, Raise e) => ¬ accepted ∧ out = [] ∧ ∃ msg, e = ValueError msg
  end.
Proof.
  intros accepted.
  pose proof (check_magic_preconditions_Ok p) as Hok. fold accepted in Hok.
  destruct (check_magic_preconditions p) as [out [[]|e]] eqn:Hrun.
  - split; [apply Hok; by exists out|].
    assert (Hacc : accepted) by (apply Hok; by exists out).
    destruct Hacc as (Hcw & Hmc & Hl1 & Hscale).
    unfold check_magic_preconditions in Hrun. rewrite Hcw in Hrun.
    rewrite (bool_decide_eq_false_2 _ Hmc) in Hrun.
    rewrite (bool_decide_eq_true_2 _ Hscale) in Hrun. cbn [negb] in Hrun.
    destruct (bool_decide (penalty p = "elasticnet")) eqn:He.
    + apply bool_decide_eq_true in He.
      destruct (Hl1 He) as (r & Hr).
      assert (Hb : bad_l1_ratio (l1_ratio p) = false)
        by (apply bad_l1_ratio_false; by exists r).
      rewrite Hb, orb_true_r in Hrun. cbn [andb] in Hrun.
      injection Hrun as <-. rewrite bool_decide_eq_true_2; [done|by right].
    + apply bool_decide_eq_false in He. cbn [andb] in Hrun.
      rewrite orb_false_r in Hrun.
      destruct (bool_decide (penalty p = "l1")) eqn:Hp.
      * apply bool_decide_eq_true in Hp. injection Hrun as <-.
        rewrite bool_decide_eq_true_2; [done|by left].
      * apply bool_decide_eq_false in Hp. injection Hrun as <-.
        rewrite bool_decide_eq_false_2; [done|]. by intros [|].
  - split.
    { intros Hacc. apply Hok in Hacc as [out' Hout']. congruence. }
    unfold check_magic_preconditions in Hrun.
    repeat match type of Hrun with
           | (if ?b then _ else _) = _ => destruct b
           end;
      first [injection Hrun as <- <-; split; [done|by eexists]
            |discriminate Hrun].
Qed.

(** ** The fit by slice of [LogisticRegression] *)

Lemma key_le_total : Total key_le.
Proof.
  intros [a ra] [b rb]. unfold key_le. simpl. clear ra rb. revert b.
  induction a as [|u a IH]; intros b; [by left|].
  destruct b as [|v b]; [by right|]. simpl.
  rewrite (String.compare_antisym v u).
  destruct (String.compare u v); simpl; [apply IH|by left|by right].
Qed.

Lemma result_mapM_last_first (k : nat) (res : matrix) :
  Forall (λ row, length row = S k) res →
  ∃ rows,
    result_mapM last_first res = Ok rows ∧
    Forall2 (λ c r, ∃ coefs b, c = coefs ++ [b] ∧ r = b :: coefs) res rows.
Proof.
  induction res as [|c res IH]; intros Hlen.
  - exists []. by split.
  - apply Forall_cons in Hlen as [Hc Hlen].
    destruct (IH Hlen) as (rows & Hrows & Hall).
    destruct c as [|b coefs _] using rev_ind; [done|].
    exists ((b :: coefs) :: rows). split.
    + assert (Hlf : last_first (coefs ++ [b]) = Ok (b :: coefs)).
      { unfold last_first. by rewrite last_snoc, removelast_last. }
      cbn [result_mapM]. rewrite Hlf. cbn [mbind result_bind].
      by rewrite Hrows.
    + constructor; [by exists coefs, b|done].
Qed.

Section LogisticBySlice.
Variable solve : matrix → vector → result vector.
Variable Table : Type.
Variable y_nunique : string → list string → Table → result nat.
Variable get_data_xs : Model → Table → list string → result (list string).
Variable distinct_slices : Table → list string → result (list slice_key).
Variable grads_and_hess_query :
  Model → logistic_params → Table → list string → list string →
  list slice_key → matrix → list bool → result (list Qc).

(** With [split_by], when the checks pass, the response has two classes,
    there is at least one slice and Newton's method returns, the fit has one
    row per slice.  The rows come back in the order of their slice keys,
    each still with the key of its own slice; with an intercept the
    coefficient of the constant column, optimized last, stands first in
    every row, under the name ['intercept']. *)
Theorem logistic_fit_by_slice (m : Model) (p : logistic_params)
    (table : Table) (s : string) (split_by xs : list string)
    (conds : list slice_key) (out1 out2 : list output) (res : matrix) :
  check_magic_preconditions p = (out1, Ok ()) →
  y_nunique (y m) (group_by m) table = Ok 2%nat →
  get_data_xs m table (s :: split_by) = Ok xs →
  distinct_slices table (s :: split_by) = Ok conds →
  conds ≠ [] →
  let names := if fit_intercept m then xs ++ ["1"] else xs in
  let both coef converged :=
    compute_grads_and_hess Table grads_and_hess_query m p table names
      (s :: split_by) conds coef converged in
  newtons_method solve (λ coef converged, snd <$> both coef converged)
    (λ coef converged, fst <$> both coef converged) (lr_tol p)
    (zeros (length conds) (length names)) (lr_max_iter p) conds
  = (out2, Ok res) →
  ∃ (moved : matrix) (index : list slice_key) (rows : matrix),
    Forall2 (λ c r, if fit_intercept m
                    then ∃ coefs b, c = coefs ++ [b] ∧ r = b :: coefs
                    else r = c) res moved ∧
    LogisticRegression_compute_on_sql_magic_mode solve Table y_nunique
      get_data_xs distinct_slices grads_and_hess_query m p table
      (s :: split_by)
    = (out1 ++ out2,
       Ok (GroupedFit index (coef_names (fit_intercept m) xs) rows)) ∧
    Sorted (λ a b, key_leb a b = true) index ∧
    length index = length rows ∧
    zip index rows ≡ₚ zip conds moved.
Proof.
  intros Hcheck Hny Hxs Hconds Hne names both Hnewton.
  assert (Hshape : is_shape (length conds) (length names) res).
  { apply newtons_method_Ok_iterate in Hnewton as (t & conv & Hit).
    apply (newton_iterate_shape _ _ _ _ t (length conds) (length names))
      in Hit as [? _]; [done|apply zeros_shape]. }
  destruct Hshape as [Hrows Hrow].
  assert (Hfinish : ∀ moved : matrix,
    let sorted := merge_sort key_le (zip conds moved) in
    length moved = length conds →
    Sorted (λ a b, key_leb a b = true) sorted.*1 ∧
    length sorted.*1 = length sorted.*2 ∧
    zip sorted.*1 sorted.*2 ≡ₚ zip conds moved).
  { intros moved sorted Hlen. split_and!.
    - apply (Sorted_fmap fst key_le); [done|].
      apply Sorted_merge_sort, key_le_total.
    - by rewrite !length_fmap.
    - rewrite zip_fst_snd. apply merge_sort_Permutation. }
  unfold LogisticRegression_compute_on_sql_magic_mode.
  rewrite Hcheck, io_bind_pair, Hny, io_bind_lift_Ok.
  rewrite decide_False by (by intros H; apply H).
  rewrite Hxs, io_bind_lift_Ok. cbv beta iota zeta.
  rewrite Hconds, io_bind_lift_Ok. cbv beta iota zeta.
  unfold both, names in Hnewton, Hrow.
  destruct conds as [|c0 conds']; [done|]. cbv beta iota zeta.
  unfold coef_names.
  destruct (fit_intercept m).
  - rewrite Hnewton, io_bind_pair. cbn [fst snd].
    rewrite decide_False by (intros H; by apply H).
    assert (Hrow' : Forall (λ row, length row = S (length xs)) res).
    { eapply Forall_impl; [exact Hrow|]. intros row Hr. simpl in Hr.
      rewrite Hr, length_app. simpl. lia. }
    destruct (result_mapM_last_first _ _ Hrow') as (moved & Hmoved & Hall).
    rewrite Hmoved. cbn [mbind result_bind]. rewrite io_bind_lift_Ok.
    cbn [fst snd]. rewrite fmap_app. cbn [fmap list_fmap].
    rewrite removelast_last.
    destruct (Hfinish moved) as (Hsorted & Hlen & Hperm).
    { apply Forall2_length in Hall. congruence. }
    eexists moved, _, _. split_and!; [done| |done|done|done].
    unfold mret, io_ret. cbn [fst snd]. by rewrite app_nil_r.
  - rewrite Hnewton, io_bind_pair. cbn [fst snd].
    rewrite decide_False by (intros H; by apply H).
    rewrite io_bind_lift_Ok. cbn [fst snd].
    destruct (Hfinish res) as (Hsorted & Hlen & Hperm); [done|].
    eexists res, _, _. split_and!; [|  |done|done|done].
    + by apply Forall_Forall2_diag, Forall_true.
    + unfold mret, io_ret. cbn [fst snd]. by rewrite app_nil_r.
Qed.

End LogisticBySlice.

Lemma logistic_fit_by_slice_witness :
  ∃ (moved : matrix) (index : list slice_key) (rows : matrix),
    Forall2 (λ c r, ∃ coefs b, c = coefs ++ [b] ∧ r = b :: coefs)
      [[ #3; #5]; [ #4; #5]] moved ∧
    LogisticRegression_compute_on_sql_magic_mode unit_solve ()
      (λ _ _ _, Ok 2%nat) (λ _ _ _, Ok ["a"]) (λ _ _, Ok [["v"]; ["u"]])
      sliced_query sample_ridge default_logistic () ["g"]
    = ([] ++ [], Ok (GroupedFit index (coef_names true ["a"]) rows)) ∧
    Sorted (λ a b, key_leb a b = true) index ∧
    length index = length rows ∧
    zip index rows ≡ₚ zip [["v"]; ["u"]] moved.
Proof.
  apply (logistic_fit_by_slice unit_solve () (λ _ _ _, Ok 2%nat)
           (λ _ _ _, Ok ["a"]) (λ _ _, Ok [["v"]; ["u"]]) sliced_query
           sample_ridge default_logistic () "g" [] ["a"] [["v"]; ["u"]]
           [] [] [[ #3; #5]; [ #4; #5]]).
  - reflexivity.
  - reflexivity.
  - reflexivity.
  - reflexivity.
  - done.
  - compute_done.
Defined.

(** ** The statistics the closed-form solvers read *)

Lemma result_mapM_ext {A B : Type} (f g : A → result B) (l : list A) :
  (∀ x, x ∈ l → f x = g x) → result_mapM f l = result_mapM g l.
Proof.
  induction l as [|x l IH]; intros H; [done|]. simpl.
  rewrite (H x) by left. rewrite IH; [done|].
  intros y Hy. apply H. by right.
Qed.

Section StatisticsRead.
Variable s1 s2 : series.
Hypothesis agree_y : s1 !! "y" = s2 !! "y".
Hypothesis agree_x : ∀ i, s1 !! x_col i = s2 !! x_col i.
Hypothesis agree_xx : ∀ i j, s1 !! xx_col i j = s2 !! xx_col i j.
Hypothesis agree_xy : ∀ i, s1 !! xy_col i = s2 !! xy_col i.

Lemma getitem_agree_y : getitem s1 "y" = getitem s2 "y".
Proof. unfold getitem. by rewrite agree_y. Qed.

Lemma getattr_agree_y : getattr s1 "y" = getattr s2 "y".
Proof. unfold getattr. by rewrite agree_y. Qed.

Lemma getitem_agree_x (i : nat) : getitem s1 (x_col i) = getitem s2 (x_col i).
Proof. unfold getitem. by rewrite agree_x. Qed.

Lemma getitem_agree_xx (i j : nat) :
  getitem s1 (xx_col i j) = getitem s2 (xx_col i j).
Proof. unfold getitem. by rewrite agree_xx. Qed.

Lemma getitem_agree_xy (i : nat) :
  getitem s1 (xy_col i) = getitem s2 (xy_col i).
Proof. unfold getitem. by rewrite agree_xy. Qed.

Lemma construct_matrix_agree (xs : list string) (fi : bool) :
  construct_matrix_from_elements (Series s1) xs fi
  = construct_matrix_from_elements (Series s2) xs fi.
Proof.
  unfold construct_matrix_from_elements. cbn [mbind result_bind].
  assert (Hxx : ∀ c n,
            c ∈ (seq 0 n ≫= λ i, xx_col i <$> seq i (n - i)) →
            getitem s1 c = getitem s2 c).
  { intros c n Hc. apply list_elem_of_bind in Hc as (i & Hc & _).
    apply list_elem_of_fmap in Hc as (j & -> & _).
    apply getitem_agree_xx. }
  assert (Hxy : ∀ c n, c ∈ xy_col <$> seq 0 n →
                       getitem s1 c = getitem s2 c).
  { intros c n Hc. apply list_elem_of_fmap in Hc as (i & -> & _).
    apply getitem_agree_xy. }
  rewrite (result_mapM_ext (getitem s1) (getitem s2)
             ((if fi then x_col <$> seq 0 (length xs) else []) ++ _)).
  2:{ intros c Hc. apply elem_of_app in Hc as [Hc|Hc]; [|by eapply Hxx].
      destruct fi; [|by apply elem_of_nil in Hc].
      apply list_elem_of_fmap in Hc as (i & -> & _).
      apply getitem_agree_x. }
  rewrite (result_mapM_ext (getitem s1) (getitem s2)
             ((if fi then ["y"] else []) ++ _)); [done|].
  intros c Hc. apply elem_of_app in Hc as [Hc|Hc]; [|by eapply Hxy].
  destruct fi; [|by apply elem_of_nil in Hc].
  apply list_elem_of_singleton in Hc as ->. apply getitem_agree_y.
Qed.

Variable solve : matrix → vector → result vector.
Variable cond : matrix → result cond_value.

Lemma normalized_agree (xs : list string) (m : Model) :
  compute_coef_for_normalize_ridge solve cond s1 xs m
  = compute_coef_for_normalize_ridge solve cond s2 xs m.
Proof.
  unfold compute_coef_for_normalize_ridge.
  rewrite (result_mapM_ext _
             (λ i, xiy ← getitem s2 (xy_col i); xi ← getitem s2 (x_col i);
                   sy ← getitem s2 "y";
                   row ← result_mapM (λ j,
                       xixj ← getitem s2 (xx_col i j);
                       xi ← getitem s2 (x_col i);
                       xj ← getitem s2 (x_col j);
                       Ok (xixj - xi * xj))
                     (seq i (length xs - i));
                   Ok (xiy - xi * sy, row)) (seq 0 (length xs))).
  2:{ intros i _.
      rewrite (result_mapM_ext
                 (λ j, xixj ← getitem s1 (xx_col i j);
                       xi ← getitem s1 (x_col i);
                       xj ← getitem s1 (x_col j);
                       Ok (xixj - xi * xj))
                 (λ j, xixj ← getitem s2 (xx_col i j);
                       xi ← getitem s2 (x_col i);
                       xj ← getitem s2 (x_col j);
                       Ok (xixj - xi * xj)) (seq i (length xs - i))).
      - by rewrite getitem_agree_xy, getitem_agree_x, getitem_agree_y.
      - intros j _. by rewrite getitem_agree_xx, !getitem_agree_x. }
  apply io_bind_ext. intros rows.
  apply io_bind_ext. intros x_t_x.
  apply io_bind_ext. intros _.
  apply io_bind_ext. intros coef.
  rewrite getattr_agree_y.
  apply io_bind_ext. intros sy.
  rewrite (result_mapM_ext (λ i, getitem s1 (x_col i))
             (λ i, getitem s2 (x_col i)) (seq 0 (length xs))); [done|].
  intros i _. apply getitem_agree_x.
Qed.

(** The fitted row depends on the statistics row through the means [x_i]
    and [y] and the moments [x_ix_j] and [x_iy] only, and through [n_obs]
    for a Ridge model on the path without normalization only: two rows that
    agree there give the same output and outcome.  The normalized path and
    the models that are not Ridge never read [n_obs]. *)
Theorem compute_ridge_coefs_reads_statistics (xs : list string) (m : Model) :
  (ridge_alpha m ≠ None → fit_intercept m && normalize m = false →
   s1 !! "n_obs" = s2 !! "n_obs") →
  compute_ridge_coefs solve cond (Series s1) xs m
  = compute_ridge_coefs solve cond (Series s2) xs m.
Proof.
  intros Hn. unfold compute_ridge_coefs. rewrite !io_bind_lift_Ok.
  destruct (fit_intercept m && normalize m) eqn:Hpath;
    [apply normalized_agree|].
  rewrite construct_matrix_agree.
  apply io_bind_ext. intros [x_t_x x_t_y].
  destruct (ridge_alpha m) as [alpha|]; [|done].
  unfold getitem at 1 2. by rewrite Hn.
Qed.

End StatisticsRead.

Lemma compute_ridge_coefs_reads_statistics_witness :
  compute_ridge_coefs unit_solve cond_one
    (Series (<["n_obs" := 0]> sample_stats)) ["a"] sample_ridge_normalized
  = compute_ridge_coefs unit_solve cond_one (Series sample_stats) ["a"]
      sample_ridge_normalized.
Proof.
  apply (compute_ridge_coefs_reads_statistics (<["n_obs" := 0]> sample_stats)
           sample_stats).
  - reflexivity.
  - intros i. by apply lookup_insert_ne.
  - intros i j. by apply lookup_insert_ne.
  - intros i. by apply lookup_insert_ne.
  - intros _ Hpath. discriminate Hpath.
Defined.
